(** * gg-git: commit object codec and pack-protocol v1 fetch negotiation

    A shallow embedding of [object/commit.go] and
    [packfile/client/fetch_v1.go], followed by the properties of the
    natural-language specification that concern them.

    Conventions of the embedding:
    - a Go [[]byte] is a [list ascii]; a Go [string] is a Rocq [string];
      the conversions [string(b)] and [[]byte(s)] are
      [string_of_list_ascii] and [list_ascii_of_string];
    - a Go function returning [(v, err)] returns a pair whose second
      component is an [option error] ([None] is Go's [nil]);
    - a method with a pointer receiver that assigns to the receiver takes
      the receiver's value and returns the new one;
    - a Go panic is the [Panicked] constructor of [outcome]. *)

From stdpp Require Import gmap strings list fin_maps.
From Stdlib Require Import ZArith Ascii.
From Stdlib Require String.

Local Open Scope Z_scope.
Local Open Scope list_scope.

(** ** Bytes and strings *)

Abbreviation bytes := (list ascii).
Abbreviation list_ascii_of_string := String.list_ascii_of_string.
Abbreviation string_of_list_ascii := String.string_of_list_ascii.

Definition LF : ascii := ascii_of_nat 10.
Definition NUL : ascii := ascii_of_nat 0.
Definition SP : ascii := ascii_of_nat 32.

(** [[]byte("...")] for a string literal. *)
Definition B (s : string) : bytes := list_ascii_of_string s.

Definition byte_val (c : ascii) : Z := Z.of_nat (nat_of_ascii c).
Definition byte_of (z : Z) : ascii := ascii_of_nat (Z.to_nat (z mod 256)).

(** ** Errors and panics *)

(** An argument of a [fmt.Errorf] format string. *)
Inductive fmt_arg : Type :=
  | ArgBytes (b : bytes)
  | ArgInt (z : Z).

(** Go's [error] values that the modelled code can produce.  [Errorf]
    keeps the format string and the formatted operands; [Wrapf] is an
    [Errorf] whose format ends in [%w], with the error it wraps. *)
Inductive error : Type :=
  | io_ErrUnexpectedEOF
  | hex_InvalidByteError (b : ascii)
  | hex_ErrLength
  | strconv_ErrSyntax
  | strconv_ErrRange
  | Errorf (format : string) (args : list fmt_arg)
  | Wrapf (format : string) (args : list fmt_arg) (wrapped : error).

Inductive outcome (A : Type) : Type :=
  | Returned (a : A)
  | Panicked (e : error).
Arguments Returned {A} a.
Arguments Panicked {A} e.

(** ** Models of the Go standard library functions the code calls *)

(** [bytes.IndexByte]: [None] stands for the result [-1]. *)
Fixpoint bytes_IndexByte (s : bytes) (c : ascii) : option nat :=
  match s with
  | [] => None
  | x :: s' =>
      if Ascii.eqb x c then Some 0%nat
      else match bytes_IndexByte s' c with
           | Some i => Some (S i)
           | None => None
           end
  end.

(** [bytes.LastIndexByte]. *)
Fixpoint bytes_LastIndexByte (s : bytes) (c : ascii) : option nat :=
  match s with
  | [] => None
  | x :: s' =>
      match bytes_LastIndexByte s' c with
      | Some i => Some (S i)
      | None => if Ascii.eqb x c then Some 0%nat else None
      end
  end.

(** [bytes.Equal]. *)
Fixpoint bytes_Equal (a b : bytes) : bool :=
  match a, b with
  | [], [] => true
  | x :: a', y :: b' => Ascii.eqb x y && bytes_Equal a' b'
  | _, _ => false
  end.

(** [bytes.HasPrefix] and [strings.HasPrefix]. *)
Fixpoint bytes_HasPrefix (s p : bytes) {struct p} : bool :=
  match p, s with
  | [], _ => true
  | y :: p', x :: s' => Ascii.eqb x y && bytes_HasPrefix s' p'
  | _ :: _, [] => false
  end.

Definition strings_HasPrefix (s p : string) : bool :=
  bytes_HasPrefix (list_ascii_of_string s) (list_ascii_of_string p).

(** [strings.Contains]. *)
Fixpoint bytes_Contains (s sub : bytes) : bool :=
  bytes_HasPrefix s sub ||
  match s with
  | [] => false
  | _ :: s' => bytes_Contains s' sub
  end.

Definition strings_Contains (s sub : string) : bool :=
  bytes_Contains (list_ascii_of_string s) (list_ascii_of_string sub).

(** *** encoding/hex *)

Definition hextable : bytes := B "0123456789abcdef".

Definition hex_digit (n : Z) : ascii := nth (Z.to_nat n) hextable NUL.

(** [hex.EncodeToString], which is also what the verb [%x] prints for a
    byte array. *)
Definition hex_Encode (src : bytes) : bytes :=
  flat_map (fun c => [hex_digit (byte_val c / 16); hex_digit (byte_val c mod 16)]) src.

(** [hex.fromHexChar]: both cases of the letters are accepted. *)
Definition fromHexChar (c : ascii) : option Z :=
  let v := byte_val c in
  if (48 <=? v) && (v <=? 57) then Some (v - 48)
  else if (97 <=? v) && (v <=? 102) then Some (v - 97 + 10)
  else if (65 <=? v) && (v <=? 70) then Some (v - 65 + 10)
  else None.

Definition hex_EncodedLen (n : nat) : nat := (2 * n)%nat.

(** [hex.Decode dst src], writing from index [i] on.  The bytes decoded
    before an invalid digit is met stay written in [dst]. *)
Fixpoint hex_Decode_from (i : nat) (dst src : bytes) : bytes * nat * option error :=
  match src with
  | [] => (dst, i, None)
  | [p] =>
      match fromHexChar p with
      | None => (dst, i, Some (hex_InvalidByteError p))
      | Some _ => (dst, i, Some hex_ErrLength)
      end
  | p :: q :: src' =>
      match fromHexChar p with
      | None => (dst, i, Some (hex_InvalidByteError p))
      | Some a =>
          match fromHexChar q with
          | None => (dst, i, Some (hex_InvalidByteError q))
          | Some b => hex_Decode_from (S i) (<[i := byte_of (a * 16 + b)]> dst) src'
          end
      end
  end.

Definition hex_Decode (dst src : bytes) : bytes * nat * option error :=
  hex_Decode_from 0 dst src.

(** *** strconv and the verb [%d] *)

Definition is_digit (c : ascii) : bool :=
  (48 <=? byte_val c) && (byte_val c <=? 57).

Definition maxUint64 : Z := 2 ^ 64 - 1.

(** The loop of [strconv.ParseUint s 10 64], accumulator [n]. *)
Fixpoint ParseUint_loop (n : Z) (s : bytes) : Z * option error :=
  match s with
  | [] => (n, None)
  | c :: s' =>
      if negb (is_digit c) then (0, Some strconv_ErrSyntax)
      else if maxUint64 / 10 + 1 <=? n then (maxUint64, Some strconv_ErrRange)
      else
        let n1 := n * 10 + (byte_val c - 48) in
        if maxUint64 <? n1 then (maxUint64, Some strconv_ErrRange)
        else ParseUint_loop n1 s'
  end.

Definition strconv_ParseUint (s : bytes) : Z * option error :=
  match s with
  | [] => (0, Some strconv_ErrSyntax)
  | _ => ParseUint_loop 0 s
  end.

(** [strconv.ParseInt s 10 64]. *)
Definition strconv_ParseInt (s : bytes) : Z * option error :=
  match s with
  | [] => (0, Some strconv_ErrSyntax)
  | c :: s' =>
      let neg := Ascii.eqb c "-" in
      let digits := if Ascii.eqb c "+" || neg then s' else s in
      match strconv_ParseUint digits with
      | (_, Some strconv_ErrSyntax) => (0, Some strconv_ErrSyntax)
      | (un, _) =>
          let cutoff := 2 ^ 63 in
          if negb neg && (cutoff <=? un) then (cutoff - 1, Some strconv_ErrRange)
          else if neg && (cutoff <? un) then (- cutoff, Some strconv_ErrRange)
          else (if neg then - un else un, None)
      end
  end.

(** Decimal digits of a non-negative number, most significant first. *)
Fixpoint decimal_digits (fuel : nat) (n : Z) : bytes :=
  match fuel with
  | O => []
  | S fuel' =>
      if n <? 10 then [byte_of (48 + n)]
      else decimal_digits fuel' (n / 10) ++ [byte_of (48 + n mod 10)]
  end.

Definition format_uint (n : Z) : bytes :=
  decimal_digits (S (Z.to_nat (Z.log2 n))) n.

(** The verb [%d] applied to an integer. *)
Definition format_int (z : Z) : bytes :=
  if z <? 0 then "-"%char :: format_uint (- z) else format_uint z.

(** [time.appendInt b x width] for a non-negative [x]: decimal, padded
    with zeros on the left up to [width] digits. *)
Definition appendInt (x : Z) (width : nat) : bytes :=
  let d := format_uint x in
  replicate (width - length d) "0"%char ++ d.

(** *** time *)

(** A [*time.Location] that is a fixed zone: its name and its offset
    east of UTC in seconds. *)
Record Location : Type := FixedZone {
  loc_name : string;
  loc_offset : Z
}.

Definition UTC : Location := FixedZone "UTC" 0.

(** A [time.Time] in a fixed zone: the instant, as seconds and
    nanoseconds since the Unix epoch, and the location. *)
Record Time : Type := mkTime {
  unix_sec : Z;
  nsec : Z;
  loc : Location
}.

(** The zero [time.Time{}]: January 1, year 1, 00:00:00 UTC. *)
Definition Time_zero : Time := mkTime (-62135596800) 0 UTC.

(** [time.Unix(sec, 0).In(tz)]. *)
Definition time_Unix_In (sec : Z) (tz : Location) : Time := mkTime sec 0 tz.

(** [t.Unix()]. *)
Definition Time_Unix (t : Time) : Z := unix_sec t.

(** The layout element [-0700] for a zone [offset] seconds east of UTC:
    sign, hours and minutes. *)
Definition format_numTZ (offset : Z) : bytes :=
  let zone := Z.quot offset 60 in
  let sign := if zone <? 0 then "-"%char else "+"%char in
  let zone := Z.abs zone in
  sign :: appendInt (zone / 60) 2 ++ appendInt (zone mod 60) 2.

(** [t.Format("-0700")]. *)
Definition Time_Format_numTZ (t : Time) : bytes :=
  format_numTZ (loc_offset (loc t)).

(** *** crypto/sha1 *)

(** SHA-1 as FIPS 180-4 defines it, on 32-bit words held in [Z] with the
    wrap-around written out. *)
Definition w32 (x : Z) : Z := x mod 2 ^ 32.

Definition rotl32 (x n : Z) : Z :=
  Z.lor (w32 (Z.shiftl x n)) (Z.shiftr x (32 - n)).

Fixpoint be_bytes (k : nat) (x : Z) : list Z :=
  match k with
  | O => []
  | S k' => Z.shiftr x (8 * Z.of_nat k') mod 256 :: be_bytes k' x
  end.

Fixpoint be_words (bs : list Z) : list Z :=
  match bs with
  | a :: b :: c :: d :: rest =>
      (a * 2 ^ 24 + b * 2 ^ 16 + c * 2 ^ 8 + d) :: be_words rest
  | _ => []
  end.

Definition sha1_pad (msg : bytes) : list Z :=
  let len := Z.of_nat (length msg) in
  map byte_val msg ++ [128] ++ replicate (Z.to_nat ((55 - len) mod 64)) 0
    ++ be_bytes 8 ((8 * len) mod 2 ^ 64).

Definition sha1_f (t : nat) (b c d : Z) : Z :=
  if (t <? 20)%nat then Z.lor (Z.land b c) (Z.land (Z.lxor b (2 ^ 32 - 1)) d)
  else if (t <? 40)%nat then Z.lxor (Z.lxor b c) d
  else if (t <? 60)%nat then Z.lor (Z.lor (Z.land b c) (Z.land b d)) (Z.land c d)
  else Z.lxor (Z.lxor b c) d.

Definition sha1_k (t : nat) : Z :=
  if (t <? 20)%nat then 0x5A827999
  else if (t <? 40)%nat then 0x6ED9EBA1
  else if (t <? 60)%nat then 0x8F1BBCDC
  else 0xCA62C1D6.

Definition sha1_state : Type := Z * Z * Z * Z * Z.

(** [n] rounds from round [t] on; [w] holds the sixteen words of the
    message schedule from [t] on. *)
Fixpoint sha1_rounds (n t : nat) (w : list Z) (s : sha1_state) : sha1_state :=
  match n with
  | O => s
  | S n' =>
      let '(a, b, c, d, e) := s in
      let tmp := w32 (rotl32 a 5 + sha1_f t b c d + e + nth 0 w 0 + sha1_k t) in
      let nxt :=
        rotl32 (Z.lxor (Z.lxor (Z.lxor (nth 13 w 0) (nth 8 w 0)) (nth 2 w 0)) (nth 0 w 0)) 1 in
      sha1_rounds n' (S t) (tl w ++ [nxt]) (tmp, a, rotl32 b 30, c, d)
  end.

Definition sha1_block (s : sha1_state) (w : list Z) : sha1_state :=
  let '(h0, h1, h2, h3, h4) := s in
  let '(a, b, c, d, e) := sha1_rounds 80 0 w s in
  (w32 (h0 + a), w32 (h1 + b), w32 (h2 + c), w32 (h3 + d), w32 (h4 + e)).

Definition sha1_init : sha1_state :=
  (0x67452301, 0xEFCDAB89, 0x98BADCFE, 0x10325476, 0xC3D2E1F0).

(** [sha1.Sum(msg)], the 20 bytes of the digest. *)
Definition sha1_Sum (msg : bytes) : bytes :=
  let ws := be_words (sha1_pad msg) in
  let nblocks := (length ws / 16)%nat in
  let '(h0, h1, h2, h3, h4) :=
    fold_left (fun s i => sha1_block s (take 16 (drop (16 * i) ws)))
              (seq 0 nblocks) sha1_init in
  map byte_of (be_bytes 4 h0 ++ be_bytes 4 h1 ++ be_bytes 4 h2
                 ++ be_bytes 4 h3 ++ be_bytes 4 h4).

(** A [hash.Hash] made by [sha1.New()]: [Write] adds data to the running
    hash and [Sum] appends the digest of all that was written. *)
Record digest : Type := mkDigest { written : bytes }.

Definition sha1_New : digest := mkDigest [].

Definition digest_Write (h : digest) (p : bytes) : digest :=
  mkDigest (written h ++ p).

Definition digest_Sum (h : digest) (b : bytes) : bytes :=
  b ++ sha1_Sum (written h).

(** ** Package githash *)

(** [githash.SHA1], a [[20]byte]. *)
Abbreviation SHA1 := (list ascii).

Definition SHA1Size : nat := 20.

(** The zero value [githash.SHA1{}]. *)
Definition SHA1_zero : SHA1 := replicate SHA1Size NUL.

(** Modelled from the spec: [githash.SHA1]'s methods [String] and
    [Format] are not in the sources at hand; the textual form of an
    object id is its 40 lowercase hexadecimal digits. *)
Definition SHA1_String (h : SHA1) : bytes := hex_Encode h.

Definition is_lower_hex (c : ascii) : bool :=
  is_digit c || ((97 <=? byte_val c) && (byte_val c <=? 102)).

Inductive result (A : Type) : Type :=
  | Ok (a : A)
  | Err (e : error).
Arguments Ok {A} a.
Arguments Err {A} e.

(** Modelled from the spec: [githash.ParseSHA1] and the method
    [UnmarshalText] of [githash.SHA1] are not in the sources at hand; a
    hex id is 40 lowercase hexadecimal digits. *)
Definition ParseSHA1 (s : bytes) : result SHA1 :=
  if negb (length s =? hex_EncodedLen SHA1Size)%nat then
    Err (Errorf "parse sha1: wrong size" [ArgBytes s])
  else if negb (forallb is_lower_hex s) then
    Err (Errorf "parse sha1: invalid digit" [ArgBytes s])
  else
    match hex_Decode SHA1_zero s with
    | (h, _, None) => Ok h
    | (_, _, Some e) => Err (Wrapf "parse sha1: %w" [] e)
    end.


(** ** Package object: commit.go *)

(** Modelled from the spec: [object.AppendPrefix] is not in the sources
    at hand; an object is framed by its type, a space, its length in
    ASCII decimal and a NUL. *)
Definition AppendPrefix (dst : bytes) (typ : string) (n : Z) : bytes :=
  dst ++ B typ ++ [SP] ++ format_int n ++ [NUL].

(** [type User string]. *)
Abbreviation User := string.

Record Commit : Type := mkCommit {
  Tree : SHA1;
  Parents : list SHA1;
  Author : User;
  AuthorTime : Time;
  Committer : User;
  CommitTime : Time;
  GPGSignature : bytes;
  Message : string
}.

(** The zero value [Commit{}]. *)
Definition Commit_zero : Commit :=
  mkCommit SHA1_zero [] "" Time_zero "" Time_zero [] "".

Definition set_Tree (c : Commit) (t : SHA1) : Commit :=
  mkCommit t (Parents c) (Author c) (AuthorTime c) (Committer c) (CommitTime c)
           (GPGSignature c) (Message c).
Definition set_Parents (c : Commit) (ps : list SHA1) : Commit :=
  mkCommit (Tree c) ps (Author c) (AuthorTime c) (Committer c) (CommitTime c)
           (GPGSignature c) (Message c).
Definition set_Author (c : Commit) (u : User) (t : Time) : Commit :=
  mkCommit (Tree c) (Parents c) u t (Committer c) (CommitTime c)
           (GPGSignature c) (Message c).
Definition set_Committer (c : Commit) (u : User) (t : Time) : Commit :=
  mkCommit (Tree c) (Parents c) (Author c) (AuthorTime c) u t
           (GPGSignature c) (Message c).
Definition set_GPGSignature (c : Commit) (sig : bytes) : Commit :=
  mkCommit (Tree c) (Parents c) (Author c) (AuthorTime c) (Committer c) (CommitTime c)
           sig (Message c).
Definition set_Message (c : Commit) (m : string) : Commit :=
  mkCommit (Tree c) (Parents c) (Author c) (AuthorTime c) (Committer c) (CommitTime c)
           (GPGSignature c) m.

Definition consumeString (src : bytes) (s : string) : bytes * bool :=
  let sb := list_ascii_of_string s in
  if (length src <? length sb)%nat then (src, false)
  else if negb (bytes_Equal (take (length sb) src) sb) then (src, false)
  else (drop (length sb) src, true).

(** [consumeHex dst src] returns the array [dst] as the call leaves it,
    the tail and the error. *)
Definition consumeHex (dst : bytes) (src : bytes) : bytes * bytes * option error :=
  let n := hex_EncodedLen (length dst) in
  if (length src <? n)%nat then (dst, src, Some io_ErrUnexpectedEOF)
  else
    match hex_Decode dst (take n src) with
    | (dst', _, Some err) => (dst', src, Some err)
    | (dst', _, None) => (dst', drop n src, None)
    end.

Definition parseTZOffset (src : bytes) : result Location :=
  match src with
  | [s0; s1; s2; s3; s4] =>
      match
        (if Ascii.eqb s0 "-" then Some (-1)
         else if Ascii.eqb s0 "+" then Some 1
         else None)
      with
      | None =>
          Err (Errorf "parse UTC offset %q: must start with plus or minus sign" [ArgBytes src])
      | Some sign =>
          if negb (forallb is_digit [s1; s2; s3; s4]) then
            Err (Errorf "parse UTC offset %q: must have 4 digits after sign" [ArgBytes src])
          else
            let hours := (byte_val s1 - 48) * 10 + (byte_val s2 - 48) in
            let minutes := (byte_val s3 - 48) * 10 + (byte_val s4 - 48) in
            let offset := (hours * 60 * 60 + minutes * 60) * sign in
            Ok (FixedZone (string_of_list_ascii src) offset)
      end
  | _ => Err (Errorf "parse UTC offset %q: wrong length" [ArgBytes src])
  end.

Definition consumeUser (src : bytes) : User * Time * bytes * option error :=
  match bytes_IndexByte src LF with
  | None => (""%string, Time_zero, src, Some io_ErrUnexpectedEOF)
  | Some eol =>
      let line := take eol src in
      let tail := drop (S eol) src in
      match bytes_LastIndexByte line SP with
      | None => (""%string, Time_zero, src, Some (Errorf "invalid format" []))
      | Some timestampEnd =>
          let tzOffsetStart := S timestampEnd in
          match bytes_LastIndexByte (take timestampEnd line) SP with
          | None => (""%string, Time_zero, src, Some (Errorf "invalid format" []))
          | Some userEnd =>
              let timestampStart := S userEnd in
              match
                strconv_ParseInt (drop timestampStart (take timestampEnd line))
              with
              | (_, Some err) =>
                  (""%string, Time_zero, src, Some (Wrapf "parse timestamp: %w" [] err))
              | (timestamp, None) =>
                  match parseTZOffset (drop tzOffsetStart line) with
                  | Err err => (""%string, Time_zero, src, Some err)
                  | Ok tz =>
                      (string_of_list_ascii (take userEnd line),
                       time_Unix_In timestamp tz, tail, None)
                  end
              end
          end
      end
  end.

(** The loop of [consumeSignature]; every iteration consumes at least
    one byte of [tail], so [length tail] iterations are enough. *)
Fixpoint consumeSignature_loop (fuel : nat) (sig tail : bytes)
  : bytes * bytes * option error :=
  match fuel, tail with
  | S fuel', c :: _ =>
      if Ascii.eqb c SP then
        match bytes_IndexByte tail LF with
        | None => (sig, tail, Some (Wrapf "parse signature: %w" [] io_ErrUnexpectedEOF))
        | Some i =>
            consumeSignature_loop fuel' (sig ++ drop 1 (take (S i) tail)) (drop (S i) tail)
        end
      else (sig, tail, None)
  | _, _ => (sig, tail, None)
  end.

Definition consumeSignature (src : bytes) : bytes * bytes * option error :=
  match bytes_IndexByte src LF with
  | None => ([], src, Some (Wrapf "parse signature: %w" [] io_ErrUnexpectedEOF))
  | Some i =>
      let sig := take (S i) src in
      let tail := drop (S i) src in
      consumeSignature_loop (length tail) sig tail
  end.

(** The loop of [writeGPGSignature] on the buffer [w]. *)
Fixpoint writeGPGSignature_loop (fuel : nat) (w sig : bytes) : bytes * option error :=
  match fuel, sig with
  | S fuel', _ :: _ =>
      match bytes_IndexByte sig LF with
      | None => (w, Some (Errorf "write gpg signature: data has unterminated line" []))
      | Some lineEnd =>
          writeGPGSignature_loop fuel' (w ++ B " " ++ take (S lineEnd) sig)
                                 (drop (S lineEnd) sig)
      end
  | _, _ => (w, None)
  end.

Definition gpgSignaturePrefix : bytes := B "gpgsig".

(** [writeGPGSignature w sig] for a [w] that is a [*bytes.Buffer], whose
    [Write] never fails. *)
Definition writeGPGSignature (w : bytes) (sig : bytes) : bytes * option error :=
  match sig with
  | [] => (w, None)
  | _ => writeGPGSignature_loop (length sig) (w ++ gpgSignaturePrefix) sig
  end.

(** The [parent] loop of [UnmarshalText], at iteration [i]. *)
Fixpoint UnmarshalText_parents (fuel : nat) (i : Z) (c : Commit) (data : bytes)
  : Commit * bytes * option error :=
  match fuel with
  | O => (c, data, None)
  | S fuel' =>
      match consumeString data "parent " with
      | (data, false) => (c, data, None)
      | (data, true) =>
          match consumeHex SHA1_zero data with
          | (_, _, Some err) =>
              (c, data, Some (Wrapf "parse git commit: parent %d: %w" [ArgInt i] err))
          | (p, data, None) =>
              let c := set_Parents c (Parents c ++ [p]) in
              match consumeString data (String LF "") with
              | (data, false) =>
                  (c, data, Some (Errorf "parse git commit: parent %d: trailing data" [ArgInt i]))
              | (data, true) => UnmarshalText_parents fuel' (i + 1) c data
              end
          end
      end
  end.

(** [(c *Commit) UnmarshalText(data)]: the receiver after the call and
    the error. *)
Definition Commit_UnmarshalText (c : Commit) (data : bytes) : Commit * option error :=
  match consumeString data "tree " with
  | (_, false) => (c, Some (Errorf "parse git commit: tree: missing" []))
  | (data, true) =>
  let c := Commit_zero in
  match consumeHex (Tree c) data with
  | (tree, _, Some err) =>
      (set_Tree c tree, Some (Wrapf "parse git commit: tree: %w" [] err))
  | (tree, data, None) =>
  let c := set_Tree c tree in
  match consumeString data (String LF "") with
  | (_, false) => (c, Some (Errorf "parse git commit: tree: trailing data" []))
  | (data, true) =>
  match UnmarshalText_parents (length data) 0 c data with
  | (c, _, Some err) => (c, Some err)
  | (c, data, None) =>
  match consumeString data "author " with
  | (_, false) => (c, Some (Errorf "parse git commit: author: missing line" []))
  | (data, true) =>
  match consumeUser data with
  | (u, t, _, Some err) =>
      (set_Author c u t, Some (Wrapf "parse git commit: author: %w" [] err))
  | (u, t, data, None) =>
  let c := set_Author c u t in
  match consumeString data "committer " with
  | (_, false) => (c, Some (Errorf "parse git commit: committer: missing line" []))
  | (data, true) =>
  match consumeUser data with
  | (u, t, _, Some err) =>
      (set_Committer c u t, Some (Wrapf "parse git commit: committer: %w" [] err))
  | (u, t, data, None) =>
  let c := set_Committer c u t in
  let after_sig (c : Commit) (data : bytes) : Commit * option error :=
    match consumeString data (String LF "") with
    | (_, false) =>
        (c, Some (Errorf "parse git commit: message: expect blank line after header" []))
    | (data, true) => (set_Message c (string_of_list_ascii data), None)
    end in
  match consumeString data "gpgsig " with
  | (data, false) => after_sig c data
  | (data, true) =>
      match consumeSignature data with
      | (sig, _, Some err) =>
          (set_GPGSignature c sig, Some (Wrapf "parse git commit: gpg signature: %w" [] err))
      | (sig, data, None) => after_sig (set_GPGSignature c sig) data
      end
  end end end end end end end end end.

(** [ParseCommit data]. *)
Definition ParseCommit (data : bytes) : Commit * option error :=
  Commit_UnmarshalText Commit_zero data.

(** [(c *Commit) MarshalText()]. *)
Definition Commit_MarshalText (c : Commit) : result bytes :=
  if strings_Contains (Author c) (String LF "") then
    Err (Errorf "marshal git commit: author %q contains newline"
                [ArgBytes (list_ascii_of_string (Author c))])
  else if strings_Contains (Committer c) (String LF "") then
    Err (Errorf "marshal git commit: committer %q contains newline"
                [ArgBytes (list_ascii_of_string (Committer c))])
  else
    let buf : bytes := [] in
    let buf := buf ++ B "tree " ++ SHA1_String (Tree c) ++ [LF] in
    let buf :=
      fold_left (fun buf par => buf ++ B "parent " ++ SHA1_String par ++ [LF])
                (Parents c) buf in
    let buf :=
      buf ++ B "author " ++ list_ascii_of_string (Author c) ++ [SP]
          ++ format_int (Time_Unix (AuthorTime c)) ++ [SP]
          ++ Time_Format_numTZ (AuthorTime c) ++ [LF] in
    let buf :=
      buf ++ B "committer " ++ list_ascii_of_string (Committer c) ++ [SP]
          ++ format_int (Time_Unix (CommitTime c)) ++ [SP]
          ++ Time_Format_numTZ (CommitTime c) ++ [LF] in
    match writeGPGSignature buf (GPGSignature c) with
    | (_, Some err) => Err (Wrapf "marshal git commit: %w" [] err)
    | (buf, None) =>
        let buf := buf ++ [LF] in
        let buf := buf ++ list_ascii_of_string (Message c) in
        Ok buf
    end.

(** [(c *Commit) SHA1()]. *)
Definition Commit_SHA1 (c : Commit) : outcome SHA1 :=
  let h := sha1_New in
  match Commit_MarshalText c with
  | Err err => Panicked err
  | Ok s =>
      let h := digest_Write h (AppendPrefix [] "commit" (Z.of_nat (length s))) in
      let h := digest_Write h s in
      let arr := digest_Sum h [] in
      Returned arr
  end.

(** [(c *Commit) Summary()]. *)
Definition Commit_Summary (c : Commit) : string :=
  match bytes_IndexByte (list_ascii_of_string (Message c)) LF with
  | None => Message c
  | Some i => string_of_list_ascii (take i (list_ascii_of_string (Message c)))
  end.

(** [strings.HasSuffix]. *)
Definition strings_HasSuffix (s suffix : string) : bool :=
  let sb := list_ascii_of_string s in
  let xb := list_ascii_of_string suffix in
  (length xb <=? length sb)%nat && bytes_Equal (drop (length sb - length xb) sb) xb.

Section user.

(** [strings.TrimSpace], which goes by Unicode's White Space property;
    it is kept abstract. *)
Variable strings_TrimSpace : string -> string.

(** [(u User) split()].  The slice expression [u[i+1 : len(u)-1]]
    panics when [i+1] is above [len(u)-1]. *)
Definition User_split (u : User) : outcome (string * string) :=
  let ub := list_ascii_of_string u in
  if negb (strings_HasSuffix u ">") then Returned (strings_TrimSpace u, ""%string)
  else
    match bytes_LastIndexByte ub "<" with
    | None => Returned (strings_TrimSpace u, ""%string)
    | Some i =>
        if (length ub - 1 <? S i)%nat then
          Panicked (Errorf "slice bounds out of range" [])
        else
          Returned (strings_TrimSpace (string_of_list_ascii (take i ub)),
                    string_of_list_ascii (drop (S i) (take (length ub - 1) ub)))
    end.

(** [(u User) Name()]. *)
Definition User_Name (u : User) : outcome string :=
  match User_split u with
  | Returned (name, _) => Returned name
  | Panicked e => Panicked e
  end.

(** [(u User) Email()]. *)
Definition User_Email (u : User) : outcome string :=
  match User_split u with
  | Returned (_, email) => Returned email
  | Panicked e => Panicked e
  end.

End user.


(** ** Package pktline *)

(** Modelled from the spec: the package [internal/pktline] is not in the
    sources at hand.  A frame is a flush marker ([0000]), a delim marker
    ([0001]), a response-end marker ([0002]) or a data frame whose first
    four hexadecimal digits give its total length, prefix included. *)
Inductive PacketType : Type := Data | Flush | Delim | ResponseEnd.

Inductive packet : Type :=
  | PktData (payload : bytes)
  | PktFlush
  | PktDelim
  | PktResponseEnd.

Definition packet_type (p : packet) : PacketType :=
  match p with
  | PktData _ => Data
  | PktFlush => Flush
  | PktDelim => Delim
  | PktResponseEnd => ResponseEnd
  end.

(** The largest payload of a data frame. *)
Definition MaxSize : Z := 65516.

(** Four lowercase hexadecimal digits of [n]. *)
Definition hex4 (n : Z) : bytes :=
  [hex_digit (n / 4096 mod 16); hex_digit (n / 256 mod 16);
   hex_digit (n / 16 mod 16); hex_digit (n mod 16)].

(** Modelled from the spec: [pktline.AppendString dst line] appends a
    data frame; a payload longer than 65516 bytes fails with Overflow. *)
Definition AppendString (dst : bytes) (line : bytes) : outcome bytes :=
  if MaxSize <? Z.of_nat (length line) then Panicked (Errorf "Overflow" [])
  else Returned (dst ++ hex4 (Z.of_nat (length line) + 4) ++ line).

(** Modelled from the spec: [pktline.AppendFlush dst]. *)
Definition AppendFlush (dst : bytes) : bytes := dst ++ B "0000".

Definition parse_hex4 (h : bytes) : option Z :=
  match h with
  | [a; b; c; d] =>
      match fromHexChar a, fromHexChar b, fromHexChar c, fromHexChar d with
      | Some a, Some b, Some c, Some d => Some (((a * 16 + b) * 16 + c) * 16 + d)
      | _, _, _, _ => None
      end
  | _ => None
  end.

(** Modelled from the spec: the frames of a byte stream, up to its end
    or to the first framing error ([ShortRead], [BadLength] for a length
    that is not hexadecimal or below 4, [Truncated]).  Every frame takes
    at least four bytes, so [length s] steps are enough. *)
Fixpoint pktline_decode (fuel : nat) (s : bytes) : list packet * option error :=
  match fuel, s with
  | S fuel', _ :: _ =>
      if (length s <? 4)%nat then ([], Some (Errorf "ShortRead" []))
      else
        match parse_hex4 (take 4 s) with
        | None => ([], Some (Errorf "BadLength" []))
        | Some n =>
            let rest := drop 4 s in
            let continue (p : packet) (rest : bytes) :=
              let '(ps, e) := pktline_decode fuel' rest in (p :: ps, e) in
            if n =? 0 then continue PktFlush rest
            else if n =? 1 then continue PktDelim rest
            else if n =? 2 then continue PktResponseEnd rest
            else if n <? 4 then ([], Some (Errorf "BadLength" []))
            else
              let k := Z.to_nat (n - 4) in
              if (length rest <? k)%nat then ([], Some (Errorf "Truncated" []))
              else continue (PktData (take k rest)) (drop k rest)
        end
  | _, _ => ([], None)
  end.

(** Modelled from the spec: a [*pktline.Reader] over a byte stream.
    [pending] are the frames not yet read, [stream_err] the framing
    error met after them, [current] the frame [Next] advanced to and
    [reader_err] what [Err] reports. *)
Record Reader : Type := mkReader {
  pending : list packet;
  stream_err : option error;
  current : option packet;
  reader_err : option error
}.

Definition NewReader (body : bytes) : Reader :=
  let '(ps, e) := pktline_decode (length body) body in
  mkReader ps e None None.

Definition Reader_Next (r : Reader) : bool * Reader :=
  match reader_err r with
  | Some _ => (false, r)
  | None =>
      match pending r with
      | p :: ps => (true, mkReader ps (stream_err r) (Some p) None)
      | [] => (false, mkReader [] None None (stream_err r))
      end
  end.

Definition Reader_Err (r : Reader) : option error := reader_err r.

Definition Reader_Type (r : Reader) : PacketType :=
  match current r with
  | Some p => packet_type p
  | None => Data
  end.

(** Modelled from the spec: the helper that trims an optional single
    trailing LF. *)
Definition trimLF (line : bytes) : bytes :=
  match last line with
  | Some c => if Ascii.eqb c LF then take (length line - 1) line else line
  | None => line
  end.

Definition Reader_Text (r : Reader) : result bytes :=
  match reader_err r with
  | Some e => Err e
  | None =>
      match current r with
      | Some (PktData payload) => Ok (trimLF payload)
      | _ => Err (Errorf "unexpected packet" [])
      end
  end.

(** ** Package client: capabilities *)

(** Modelled from the spec: the capability names the engine negotiates;
    their declarations are not in the sources at hand. *)
Definition multiAckCap : string := "multi_ack".
Definition ofsDeltaCap : string := "ofs-delta".
Definition noProgressCap : string := "no-progress".
Definition sideBand64KCap : string := "side-band-64k".
Definition sideBandCap : string := "side-band".
Definition symrefCap : string := "symref".

(** Modelled from the spec: [capabilityList], a mapping from capability
    name to value, with the [symref] advertisements lifted into a
    separate mapping from ref name to ref name. *)
Record capabilityList : Type := mkCaps {
  caps_map : gmap string string;
  caps_symrefs : gmap string string
}.

Definition caps_empty : capabilityList := mkCaps ∅ ∅.

(** [caps[k] = v]. *)
Definition caps_set (caps : capabilityList) (k v : string) : capabilityList :=
  mkCaps (<[k := v]> (caps_map caps)) (caps_symrefs caps).

(** Modelled from the spec: [supports(k)] is membership. *)
Definition caps_supports (caps : capabilityList) (k : string) : bool :=
  bool_decide (is_Some (caps_map caps !! k)).

(** Modelled from the spec: [intersect(other)] retains the left-hand
    value but drops keys absent from [other]. *)
Definition caps_intersect (caps other : capabilityList) : capabilityList :=
  mkCaps (filter (fun kv => is_Some (caps_map other !! kv.1)) (caps_map caps))
         (caps_symrefs caps).

Definition caps_symrefs_of (caps : capabilityList) : gmap string string :=
  caps_symrefs caps.

(** Modelled from the spec: a [symref] value has the form [from:to] and
    contributes one entry. *)
Definition caps_addSymref (caps : capabilityList) (v : string) : capabilityList :=
  let vb := list_ascii_of_string v in
  match bytes_IndexByte vb ":" with
  | None => caps
  | Some i =>
      mkCaps (caps_map caps)
             (<[string_of_list_ascii (take i vb) := string_of_list_ascii (drop (S i) vb)]>
                (caps_symrefs caps))
  end.

Definition cap_token (kv : string * string) : bytes :=
  if bool_decide (kv.2 = ""%string) then list_ascii_of_string kv.1
  else list_ascii_of_string kv.1 ++ B "=" ++ list_ascii_of_string kv.2.

Fixpoint join_SP (tokens : list bytes) : bytes :=
  match tokens with
  | [] => []
  | [t] => t
  | t :: ts => t ++ [SP] ++ join_SP ts
  end.

(** Modelled from the spec: the capabilities of a [want] line are
    space-separated tokens [key] or [key=value]; the spec fixes no order,
    the map's enumeration order is taken. *)
Definition caps_String (caps : capabilityList) : bytes :=
  join_SP (cap_token <$> map_to_list (caps_map caps)).

Definition is_cap_key_char (c : ascii) : bool :=
  let v := byte_val c in
  is_digit c || ((65 <=? v) && (v <=? 90)) || ((97 <=? v) && (v <=? 122))
  || Ascii.eqb c "_" || Ascii.eqb c "-".

(** Modelled from the spec: [parseCapability] reads a token [key] or
    [key=value] whose key matches [[A-Za-z0-9_-]+]; another token is a
    malformed capability. *)
Definition parseCapability (word : bytes) : string * string * option error :=
  let '(k, v) :=
    match bytes_IndexByte word "=" with
    | Some i => (take i word, drop (S i) word)
    | None => (word, [])
    end in
  if bool_decide (k = []) || negb (forallb is_cap_key_char k) then
    (""%string, ""%string, Some (Errorf "malformed capability %q" [ArgBytes word]))
  else (string_of_list_ascii k, string_of_list_ascii v, None).

(** ** Packages unicode/utf8, unicode and bytes: [bytes.Fields] *)

Definition utf8_RuneError : Z := 65533.
Definition utf8_RuneSelf : Z := 128.

(** The table [first] of [unicode/utf8], entry of the byte [p0]: [as]
    (240) for ASCII, [xx] (241) for a byte that starts no sequence,
    otherwise the size of the sequence in the low three bits and the
    index of the range of its second byte in the high four
    ([s1] = 2, [s2] = 19, [s3] = 3, [s4] = 35, [s5] = 52, [s6] = 4,
    [s7] = 68). *)
Definition utf8_first (p0 : Z) : Z :=
  if p0 <? 128 then 240
  else if p0 <? 194 then 241
  else if p0 <? 224 then 2
  else if p0 =? 224 then 19
  else if p0 <? 237 then 3
  else if p0 =? 237 then 35
  else if p0 <? 240 then 3
  else if p0 =? 240 then 52
  else if p0 <? 244 then 4
  else if p0 =? 244 then 68
  else 241.

(** The table [acceptRanges]: the lowest and highest second byte. *)
Definition utf8_acceptRanges (k : Z) : Z * Z :=
  if k =? 0 then (128, 191)
  else if k =? 1 then (160, 191)
  else if k =? 2 then (128, 159)
  else if k =? 3 then (144, 191)
  else if k =? 4 then (128, 143)
  else (0, 0).

(** [p[i]], for an index in range. *)
Definition byte_at (p : bytes) (i : nat) : Z := byte_val (nth i p NUL).

(** [utf8.DecodeRune p]: the rune and its width; an invalid encoding
    gives [(RuneError, 1)].  The mask [rune(x) << 31 >> 31] on [int32]
    is all ones when [x] is odd and zero otherwise. *)
Definition utf8_DecodeRune (p : bytes) : Z * nat :=
  let n := length p in
  if (n <? 1)%nat then (utf8_RuneError, 0%nat)
  else
    let p0 := byte_at p 0 in
    let x := utf8_first p0 in
    if 240 <=? x then
      let mask := if Z.odd x then -1 else 0 in
      (Z.lor (Z.land p0 (Z.lnot mask)) (Z.land utf8_RuneError mask), 1%nat)
    else
      let sz := Z.to_nat (Z.land x 7) in
      let accept := utf8_acceptRanges (Z.shiftr x 4) in
      if (n <? sz)%nat then (utf8_RuneError, 1%nat)
      else
        let b1 := byte_at p 1 in
        if (b1 <? accept.1) || (accept.2 <? b1) then (utf8_RuneError, 1%nat)
        else if (sz <=? 2)%nat then
          (Z.lor (Z.shiftl (Z.land p0 31) 6) (Z.land b1 63), 2%nat)
        else
          let b2 := byte_at p 2 in
          if (b2 <? 128) || (191 <? b2) then (utf8_RuneError, 1%nat)
          else if (sz <=? 3)%nat then
            (Z.lor (Z.lor (Z.shiftl (Z.land p0 15) 12) (Z.shiftl (Z.land b1 63) 6))
                   (Z.land b2 63), 3%nat)
          else
            let b3 := byte_at p 3 in
            if (b3 <? 128) || (191 <? b3) then (utf8_RuneError, 1%nat)
            else
              (Z.lor (Z.lor (Z.lor (Z.shiftl (Z.land p0 7) 18) (Z.shiftl (Z.land b1 63) 12))
                            (Z.shiftl (Z.land b2 63) 6))
                     (Z.land b3 63), 4%nat).

(** The 16-bit ranges [(Lo, Hi, Stride)] of the table
    [unicode.White_Space]; it has no 32-bit range, and its first two
    ranges ([LatinOffset]) lie within Latin-1. *)
Definition unicode_White_Space : list (Z * Z * Z) :=
  [(9, 13, 1); (32, 133, 101); (160, 5760, 5600); (8192, 8202, 1);
   (8232, 8233, 1); (8239, 8287, 48); (12288, 12288, 1)].

Definition unicode_White_Space_LatinOffset : nat := 2.

(** [unicode.is16]: [r] lies in a range, on its stride. *)
Definition unicode_is16 (ranges : list (Z * Z * Z)) (r : Z) : bool :=
  existsb (fun '(lo, hi, stride) =>
             (lo <=? r) && (r <=? hi) && ((stride =? 1) || ((r - lo) mod stride =? 0)))
          ranges.

(** [unicode.isExcludingLatin(White_Space, r)]. *)
Definition unicode_isExcludingLatin_White_Space (r : Z) : bool :=
  (r <=? 12288)
  && unicode_is16 (drop unicode_White_Space_LatinOffset unicode_White_Space) r.

(** [unicode.IsSpace r], for a rune that is not negative (as those that
    [utf8.DecodeRune] gives): tab, LF, VT, FF, CR, space, U+0085 and
    U+00A0 in Latin-1, the table above it. *)
Definition unicode_IsSpace (r : Z) : bool :=
  if r <=? 255 then
    (r =? 9) || (r =? 10) || (r =? 11) || (r =? 12) || (r =? 13) || (r =? 32)
    || (r =? 133) || (r =? 160)
  else unicode_isExcludingLatin_White_Space r.

(** The loop of [bytes.FieldsFunc s f]: [i] is the index and [start] the
    start of the field being read ([None] for [-1]); the spans recorded
    from [i] on are returned.  Every turn advances [i] by one byte at
    least, so [length s - i] turns are enough before the last test. *)
Fixpoint bytes_FieldsFunc_loop (fuel : nat) (f : Z -> bool) (s : bytes) (i : nat)
    (start : option nat) : list (nat * nat) :=
  match fuel with
  | O => []
  | S fuel' =>
      if (i <? length s)%nat then
        let r0 := byte_at s i in
        let '(r, size) :=
          if utf8_RuneSelf <=? r0 then utf8_DecodeRune (drop i s) else (r0, 1%nat) in
        if f r then
          match start with
          | Some st => (st, i) :: bytes_FieldsFunc_loop fuel' f s (i + size) None
          | None => bytes_FieldsFunc_loop fuel' f s (i + size) None
          end
        else
          bytes_FieldsFunc_loop fuel' f s (i + size)
            (match start with Some st => Some st | None => Some i end)
      else
        match start with
        | Some st => [(st, length s)]
        | None => []
        end
  end.

(** [bytes.FieldsFunc s f]: the subslices [s[start:end]] of the spans. *)
Definition bytes_FieldsFunc (s : bytes) (f : Z -> bool) : list bytes :=
  (fun span : nat * nat => take (span.2 - span.1) (drop span.1 s))
    <$> bytes_FieldsFunc_loop (S (length s)) f s 0 None.

(** The table [asciiSpace] of package [bytes]. *)
Definition asciiSpace (c : ascii) : bool :=
  let v := byte_val c in
  (v =? 32) || ((9 <=? v) && (v <=? 13)).

(** The path of [bytes.Fields] for ASCII input; [cur] is the field being
    read. *)
Fixpoint bytes_Fields_from (cur : bytes) (s : bytes) : list bytes :=
  match s with
  | [] => match cur with [] => [] | _ => [cur] end
  | c :: s' =>
      if asciiSpace c then
        match cur with
        | [] => bytes_Fields_from [] s'
        | _ => cur :: bytes_Fields_from [] s'
        end
      else bytes_Fields_from (cur ++ [c]) s'
  end.

(** [bytes.Fields s]: [setBits] is the bitwise or of the bytes of [s];
    when a byte is not ASCII the fields are those of
    [FieldsFunc(s, unicode.IsSpace)], which splits at the white space of
    Unicode in its UTF-8 encoding too. *)
Definition bytes_Fields (s : bytes) : list bytes :=
  let setBits := foldl (fun acc c => Z.lor acc (byte_val c)) 0 s in
  if utf8_RuneSelf <=? setBits then bytes_FieldsFunc s unicode_IsSpace
  else bytes_Fields_from [] s.

(** ** Package client: fetch_v1.go *)

Definition v1ExtraParams : string := "version=1".

(** Modelled from the spec: the constants [ackPrefix] and [nak] are not
    in the sources at hand; an acknowledgement line starts with [ACK ]
    and the negative acknowledgement is the line [NAK]. *)
Definition ackPrefix : string := "ACK ".
Definition nak : string := "NAK".

Record Ref : Type := mkRef {
  ObjectID : SHA1;
  Name : string;
  SymrefTarget : string
}.

Definition set_SymrefTarget (r : Ref) (t : string) : Ref :=
  mkRef (ObjectID r) (Name r) t.

(** An [io.Writer] given as progress sink, known by its identity only. *)
Inductive Writer : Type := mkWriter (id : nat).

Record FetchRequest : Type := mkFetchRequest {
  Want : list SHA1;
  Have : list SHA1;
  HaveMore : bool;
  Progress : option Writer
}.

Record packfileReader : Type := mkPackfileReader {
  errPrefix : string;
  packReader : Reader;
  progress : option Writer
}.

Record FetchResponse : Type := mkFetchResponse {
  Acks : gmap SHA1 bool;
  Packfile : option packfileReader
}.

(** The transport: [uploadPack extraParams request] gives the response
    body or an error. *)
Record impl : Type := mkImpl {
  uploadPack : string -> bytes -> result bytes
}.

(** One request made to the transport. *)
Definition transport_call : Type := string * bytes.

Record fetchV1 : Type := mkFetchV1 {
  caps : capabilityList;
  fetch_impl : impl;
  refsReader : option Reader;
  refs : list Ref;
  refsError : option error
}.

Global Instance PacketType_eq_dec : EqDecision PacketType.
Proof. solve_decision. Defined.

Global Instance outcome_bind : MBind outcome :=
  fun A B k m => match m with Returned a => k a | Panicked e => Panicked e end.

(** A [for ... range] loop whose body may panic. *)
Fixpoint outcome_foldl {A X : Type} (body : A -> X -> outcome A) (a : A) (l : list X)
  : outcome A :=
  match l with
  | [] => Returned a
  | x :: l' => a' ← body a x; outcome_foldl body a' l'
  end.

(** The capability loop of [parseFirstRefV1]. *)
Fixpoint parseFirstRefV1_caps (caps : capabilityList) (fields : list bytes)
  : result capabilityList :=
  match fields with
  | [] => Ok caps
  | c :: fields' =>
      match parseCapability c with
      | (_, _, Some err) => Err (Wrapf "first ref: %w" [] err)
      | (k, v, None) =>
          if bool_decide (k = symrefCap) then
            parseFirstRefV1_caps (caps_addSymref caps v) fields'
          else parseFirstRefV1_caps (caps_set caps k v) fields'
      end
  end.

Section fetch_v1.

(** [githash.Ref.IsValid], which is not in the sources at hand. *)
Variable Ref_IsValid : string -> bool.

Definition parseFirstRefV1 (line : bytes) : option Ref * capabilityList * option error :=
  match bytes_IndexByte line NUL with
  | None => (None, caps_empty, Some (Errorf "first ref: missing nul" []))
  | Some refEnd =>
  match bytes_IndexByte (take refEnd line) SP with
  | None => (None, caps_empty, Some (Errorf "first ref: missing space" []))
  | Some idEnd =>
  match ParseSHA1 (take idEnd line) with
  | Err err => (None, caps_empty, Some (Wrapf "first ref: %w" [] err))
  | Ok id =>
  let refName := string_of_list_ascii (drop (S idEnd) (take refEnd line)) in
  match parseFirstRefV1_caps caps_empty (bytes_Fields (drop (S refEnd) line)) with
  | Err err => (None, caps_empty, Some err)
  | Ok caps =>
      if bool_decide (refName = "capabilities^{}"%string) then
        if negb (bool_decide (id = SHA1_zero)) then
          (None, caps_empty,
           Some (Errorf "first ref: non-zero ID passed with no-refs response" []))
        else (None, caps, None)
      else if negb (Ref_IsValid refName) then
        (None, caps_empty,
         Some (Errorf "first ref %q: invalid name" [ArgBytes (list_ascii_of_string refName)]))
      else
        (Some (mkRef id refName (default ""%string (caps_symrefs_of caps !! refName))),
         caps, None)
  end end end end.

(** [readFirstRefV1 r]: the reader as the call leaves it and the
    results. *)
Definition readFirstRefV1 (r : Reader)
  : Reader * (option Ref * capabilityList * option error) :=
  match Reader_Text r with
  | Err err => (r, (None, caps_empty, Some (Wrapf "read refs: first ref: %w" [] err)))
  | Ok line =>
  let skipped :=
    if bytes_Equal line (B "version 1") then
      let r := (Reader_Next r).2 in (r, Reader_Text r)
    else (r, Ok line) in
  match skipped with
  | (r, Err err) => (r, (None, caps_empty, Some (Wrapf "read refs: first ref: %w" [] err)))
  | (r, Ok line) =>
  match parseFirstRefV1 line with
  | (_, _, Some err) => (r, (None, caps_empty, Some (Wrapf "read refs: %w" [] err)))
  | (Some ref0, caps, None) => (r, (Some ref0, caps, None))
  | (None, caps, None) =>
      let '(ok, r) := Reader_Next r in
      if negb ok then
        (r, (None, caps_empty,
             Some match Reader_Err r with
                  | Some err => Wrapf "read refs: %w" [] err
                  | None => Errorf "read refs: %w" []
                  end))
      else if negb (bool_decide (Reader_Type r = Flush)) then
        (r, (None, caps_empty, Some (Errorf "read refs: expected flush after no-refs" [])))
      else (r, (None, caps, None))
  end end end.

Definition newFetchV1 (i : impl) (refsReader : Reader) : fetchV1 :=
  let '(r, (ref0, caps, err)) := readFirstRefV1 refsReader in
  match ref0 with
  | None => mkFetchV1 caps i None [] err
  | Some ref0 => mkFetchV1 caps i (Some r) [ref0] err
  end.

Definition parseOtherRefV1 (line : bytes) : result Ref :=
  let line := trimLF line in
  match bytes_IndexByte line SP with
  | None => Err (Errorf "ref: missing space" [])
  | Some idEnd =>
      let refName := string_of_list_ascii (drop (S idEnd) line) in
      if negb (Ref_IsValid refName) then
        Err (Errorf "ref %q: invalid name" [ArgBytes (list_ascii_of_string refName)])
      else
        match ParseSHA1 (take idEnd line) with
        | Err err => Err (Wrapf "ref %s: %w" [ArgBytes (list_ascii_of_string refName)] err)
        | Ok id => Ok (mkRef id refName ""%string)
        end
  end.

(** [readOtherRefsV1]; every iteration of its loop reads one frame, so
    one more step than there are pending frames is enough. *)
Fixpoint readOtherRefsV1_loop (fuel : nat) (refs : list Ref)
    (symrefs : gmap string string) (r : Reader) : Reader * (list Ref * option error) :=
  let finish (r : Reader) :=
    match Reader_Err r with
    | Some err => (r, (refs, Some (Wrapf "read refs: %w" [] err)))
    | None => (r, (refs, None))
    end in
  match fuel with
  | O => finish r
  | S fuel' =>
      let '(ok, r) := Reader_Next r in
      if ok && negb (bool_decide (Reader_Type r = Flush)) then
        match Reader_Text r with
        | Err err => (r, ([], Some (Wrapf "read refs: %w" [] err)))
        | Ok line =>
            match parseOtherRefV1 line with
            | Err err => (r, ([], Some (Wrapf "read refs: %w" [] err)))
            | Ok ref =>
                let ref := set_SymrefTarget ref (default ""%string (symrefs !! Name ref)) in
                readOtherRefsV1_loop fuel' (refs ++ [ref]) symrefs r
            end
        end
      else finish r
  end.

Definition readOtherRefsV1 (refs : list Ref) (symrefs : gmap string string) (r : Reader)
  : Reader * (list Ref * option error) :=
  readOtherRefsV1_loop (S (length (pending r))) refs symrefs r.

(** [(f *fetchV1) listRefs(ctx, refPrefixes)]: the receiver after the
    call, the refs and the error. *)
Definition listRefs (f : fetchV1) (refPrefixes : list string)
  : fetchV1 * (list Ref * option error) :=
  let f :=
    match refsReader f with
    | Some r =>
        let '(_, (refs', err)) := readOtherRefsV1 (refs f) (caps_symrefs_of (caps f)) r in
        mkFetchV1 (caps f) (fetch_impl f) None refs' err
    | None => f
    end in
  if (length refPrefixes =? 0)%nat then (f, (refs f, refsError f))
  else
    let refs' :=
      fold_left
        (fun refs' r =>
           fold_left
             (fun refs' prefix =>
                if strings_HasPrefix (Name r) prefix then refs' ++ [r] else refs')
             refPrefixes refs')
        (refs f) [] in
    (f, (refs', refsError f)).

End fetch_v1.

(** Lines 212-230 of [negotiate]: the capabilities to use. *)
Definition negotiate_useCaps (f : fetchV1) (req : FetchRequest) : result capabilityList :=
  let useCaps := caps_set (caps_set caps_empty multiAckCap "") ofsDeltaCap "" in
  let useCaps :=
    match Progress req with
    | None => caps_set useCaps noProgressCap ""
    | Some _ => useCaps
    end in
  let useCaps := caps_intersect useCaps (caps f) in
  if caps_supports (caps f) sideBand64KCap then Ok (caps_set useCaps sideBand64KCap "")
  else if caps_supports (caps f) sideBandCap then Ok (caps_set useCaps sideBandCap "")
  else Err (Errorf "remote does not support side-band" []).

(** Lines 232-245 of [negotiate]: the request buffer.  [req.Want[0]]
    panics on an empty list. *)
Definition negotiate_commandBuf (req : FetchRequest) (useCaps : capabilityList)
  : outcome bytes :=
  match Want req with
  | [] => Panicked (Errorf "index out of range [0] with length 0" [])
  | want0 :: wants =>
      commandBuf ← AppendString []
        (B "want " ++ SHA1_String want0 ++ [SP] ++ caps_String useCaps ++ [LF]);
      commandBuf ← outcome_foldl
        (fun buf want => AppendString buf (B "want " ++ SHA1_String want ++ [LF]))
        commandBuf wants;
      let commandBuf := AppendFlush commandBuf in
      commandBuf ← outcome_foldl
        (fun buf have => AppendString buf (B "have " ++ SHA1_String have ++ [LF]))
        commandBuf (Have req);
      if negb (HaveMore req) then AppendString commandBuf (B "done")
      else Returned (AppendFlush commandBuf)
  end.

(** Lines 261-293 of [negotiate]: the loop labelled [ackLoop].  On a
    normal exit it gives the acknowledgements and [foundCommonBase]. *)
Fixpoint negotiate_ackLoop (fuel : nat) (respReader : Reader) (acks : gmap SHA1 bool)
  : Reader * result (gmap SHA1 bool * bool) :=
  match fuel with
  | O => (respReader, Ok (acks, false))
  | S fuel' =>
      let '(ok, respReader) := Reader_Next respReader in
      if negb ok then (respReader, Ok (acks, false))
      else
        match Reader_Text respReader with
        | Err err => (respReader, Err (Wrapf "parse response: %w" [] err))
        | Ok line =>
            if bytes_HasPrefix line (B ackPrefix) then
              let line := drop (String.length ackPrefix) line in
              let idEnd := hex_EncodedLen SHA1Size in
              if (length line <? idEnd)%nat then
                (respReader,
                 Err (Errorf "parse response: acknowledgements: ack too short" []))
              else
                match ParseSHA1 (take idEnd line) with
                | Err err =>
                    (respReader, Err (Wrapf "parse response: acknowledgements: %w" [] err))
                | Ok id =>
                    let acks := <[id := true]> acks in
                    let status := drop idEnd line in
                    if (length status =? 0)%nat then (respReader, Ok (acks, true))
                    else if bytes_Equal status (B "continue") then
                      negotiate_ackLoop fuel' respReader acks
                    else
                      (respReader,
                       Err (Errorf "parse response: acknowledgements: unknown status %q"
                                   [ArgBytes status]))
                end
            else if bytes_Equal line (B nak) then (respReader, Ok (acks, false))
            else
              (respReader,
               Err (Errorf "parse response: acknowledgements: unrecognized directive %q"
                           [ArgBytes line]))
        end
  end.

(** [(f *fetchV1) negotiate(ctx, errPrefix, req)]: the requests made to
    the transport, in order, and the result. *)
Definition negotiate (f : fetchV1) (errPrefix : string) (req : FetchRequest)
  : list transport_call * outcome (result FetchResponse) :=
  match negotiate_useCaps f req with
  | Err err => ([], Returned (Err err))
  | Ok useCaps =>
  match negotiate_commandBuf req useCaps with
  | Panicked e => ([], Panicked e)
  | Returned commandBuf =>
  let calls := [(v1ExtraParams, commandBuf)] in
  match uploadPack (fetch_impl f) v1ExtraParams commandBuf with
  | Err err => (calls, Returned (Err err))
  | Ok resp =>
  let respReader := NewReader resp in
  match negotiate_ackLoop (S (length (pending respReader))) respReader ∅ with
  | (_, Err err) => (calls, Returned (Err err))
  | (respReader, Ok (acks, foundCommonBase)) =>
  match Reader_Err respReader with
  | Some err => (calls, Returned (Err (Wrapf "parse response: %w" [] err)))
  | None =>
      let result := mkFetchResponse acks None in
      let result :=
        if foundCommonBase || negb (HaveMore req) then
          mkFetchResponse acks
            (Some (mkPackfileReader errPrefix respReader (Progress req)))
        else result in
      (calls, Returned (Ok result))
  end end end end end.

(** * Properties *)

(** ** Byte search and comparison *)

Lemma ascii_eqb_spec (a b : ascii) : Ascii.eqb a b = bool_decide (a = b).
Proof.
  destruct (Ascii.eqb_spec a b);
    [rewrite bool_decide_eq_true_2 | rewrite bool_decide_eq_false_2]; done.
Qed.

Lemma bytes_Equal_spec (a b : bytes) : bytes_Equal a b = true <-> a = b.
Proof.
  revert b; induction a as [|x a IH]; intros [|y b]; simpl; try (split; congruence).
  rewrite andb_true_iff, Ascii.eqb_eq, IH. split; [intros [-> ->]; done | intros [= -> ->]; done].
Qed.

Lemma bytes_Equal_refl (a : bytes) : bytes_Equal a a = true.
Proof. by apply bytes_Equal_spec. Qed.

Lemma bytes_IndexByte_None (s : bytes) (c : ascii) :
  bytes_IndexByte s c = None <-> c ∉ s.
Proof.
  induction s as [|x s IH]; simpl.
  - split; [intros _; apply not_elem_of_nil | done].
  - rewrite not_elem_of_cons. destruct (Ascii.eqb_spec x c) as [->|Hne].
    + split; [done | intros [? _]; done].
    + destruct (bytes_IndexByte s c); split; try done.
      * intros [_ H]. by apply IH in H.
      * intros _. split; [congruence | by apply IH].
Qed.

Lemma bytes_IndexByte_app (l r : bytes) (c : ascii) :
  c ∉ l -> bytes_IndexByte (l ++ c :: r) c = Some (length l).
Proof.
  induction l as [|x l IH]; simpl; intros Hnotin.
  - by rewrite Ascii.eqb_refl.
  - apply not_elem_of_cons in Hnotin as [Hne Hnotin].
    destruct (Ascii.eqb_spec x c); [congruence|]. by rewrite IH.
Qed.

Lemma bytes_IndexByte_Some (s : bytes) (c : ascii) (i : nat) :
  bytes_IndexByte s c = Some i ->
  s = take i s ++ c :: drop (S i) s /\ c ∉ take i s.
Proof.
  revert i; induction s as [|x s IH]; simpl; intros i; [done|].
  destruct (Ascii.eqb_spec x c) as [->|Hne].
  - intros [= <-]. simpl. split; [by rewrite drop_0 | apply not_elem_of_nil].
  - destruct (bytes_IndexByte s c) as [j|]; [|done].
    intros [= <-]. destruct (IH j eq_refl) as [Heq Hnotin]. simpl. split.
    + by rewrite <- Heq.
    + apply not_elem_of_cons. split; [congruence | done].
Qed.

Lemma bytes_LastIndexByte_None (s : bytes) (c : ascii) :
  c ∉ s -> bytes_LastIndexByte s c = None.
Proof.
  induction s as [|x s IH]; simpl; [done|].
  intros [Hne Hnotin]%not_elem_of_cons. rewrite IH by done.
  destruct (Ascii.eqb_spec x c); congruence.
Qed.

Lemma bytes_LastIndexByte_app (l r : bytes) (c : ascii) :
  c ∉ r -> bytes_LastIndexByte (l ++ c :: r) c = Some (length l).
Proof.
  intros Hnotin. induction l as [|x l IH]; simpl.
  - by rewrite bytes_LastIndexByte_None, Ascii.eqb_refl.
  - by rewrite IH.
Qed.

Lemma bytes_Contains_single (s : bytes) (c : ascii) :
  bytes_Contains s [c] = true <-> c ∈ s.
Proof.
  induction s as [|x s IH]; simpl.
  - split; [done | by intros ?%elem_of_nil].
  - rewrite orb_true_iff, andb_true_r, Ascii.eqb_eq, IH, elem_of_cons.
    split; (intros [->|?]; [by left | by right]).
Qed.

(** A string contains a newline. *)
Definition contains_LF (s : string) : Prop := LF ∈ list_ascii_of_string s.

Lemma strings_Contains_LF (s : string) :
  strings_Contains s (String LF "") = true <-> contains_LF s.
Proof. apply bytes_Contains_single. Qed.

(** ** Hexadecimal *)

Lemma byte_val_range (c : ascii) : 0 <= byte_val c < 256.
Proof.
  unfold byte_val. pose proof (nat_ascii_bounded c). lia.
Qed.

Lemma byte_of_val (c : ascii) : byte_of (byte_val c) = c.
Proof.
  unfold byte_of. rewrite Z.mod_small by apply byte_val_range.
  unfold byte_val. rewrite Nat2Z.id. apply ascii_nat_embedding.
Qed.

Lemma byte_val_of (z : Z) : 0 <= z < 256 -> byte_val (byte_of z) = z.
Proof.
  intros Hz. unfold byte_val, byte_of. rewrite Z.mod_small by done.
  rewrite nat_ascii_embedding by lia. lia.
Qed.

(** Every number below 16 is one of sixteen cases. *)
Lemma nibble_cases (n : Z) :
  0 <= n < 16 -> n ∈ Z.of_nat <$> seq 0 16.
Proof.
  intros Hn. apply list_elem_of_fmap. exists (Z.to_nat n). split; [lia|].
  apply elem_of_seq. lia.
Qed.

Lemma fromHexChar_hex_digit (n : Z) :
  0 <= n < 16 -> fromHexChar (hex_digit n) = Some n /\ is_lower_hex (hex_digit n) = true.
Proof.
  intros Hn%nibble_cases. revert n Hn. apply Forall_forall.
  repeat constructor.
Qed.

Lemma length_hex_Encode (h : bytes) : length (hex_Encode h) = (2 * length h)%nat.
Proof. induction h as [|c h IH]; simpl; lia. Qed.

Lemma hex_Encode_lower (h : bytes) : forallb is_lower_hex (hex_Encode h) = true.
Proof.
  induction h as [|c h IH]; simpl; [done|].
  pose proof (byte_val_range c) as Hc.
  destruct (fromHexChar_hex_digit (byte_val c / 16)) as [_ ->];
    [split; [apply Z.div_pos | apply Z.div_lt_upper_bound]; lia|].
  destruct (fromHexChar_hex_digit (byte_val c mod 16)) as [_ ->];
    [apply Z.mod_pos_bound; lia|].
  done.
Qed.

Lemma hex_Decode_from_Encode (h : bytes) : forall (i : nat) (dst : bytes),
  (i + length h <= length dst)%nat ->
  hex_Decode_from i dst (hex_Encode h)
  = (take i dst ++ h ++ drop (i + length h) dst, (i + length h)%nat, None).
Proof.
  induction h as [|c h IH]; intros i dst Hlen; simpl.
  - rewrite Nat.add_0_r, take_drop. done.
  - pose proof (byte_val_range c) as Hc.
    destruct (fromHexChar_hex_digit (byte_val c / 16)) as [-> _];
      [split; [apply Z.div_pos | apply Z.div_lt_upper_bound]; lia|].
    destruct (fromHexChar_hex_digit (byte_val c mod 16)) as [-> _];
      [apply Z.mod_pos_bound; lia|].
    replace (byte_val c / 16 * 16 + byte_val c mod 16) with (byte_val c)
      by (pose proof (Z.div_mod (byte_val c) 16); lia).
    rewrite byte_of_val. simpl in Hlen.
    rewrite IH by (rewrite length_insert; lia).
    rewrite take_insert_lt by lia. rewrite drop_insert_lt by lia.
    rewrite insert_take_drop by (rewrite length_take; lia).
    rewrite take_take, Nat.min_l by lia.
    rewrite (drop_ge (take (S i) dst)) by (rewrite length_take; lia).
    rewrite <- app_assoc. simpl.
    by replace (i + S (length h))%nat with (S (i + length h)) by lia.
Qed.

(** Decoding the hexadecimal form of an array into an array of its
    size gives it back. *)
Lemma hex_Decode_Encode (h dst : bytes) :
  length dst = length h ->
  hex_Decode dst (hex_Encode h) = (h, length h, None).
Proof.
  intros Hlen. unfold hex_Decode. rewrite hex_Decode_from_Encode by lia.
  simpl. rewrite drop_ge by lia. by rewrite app_nil_r.
Qed.

Lemma ParseSHA1_String (h : SHA1) :
  length h = SHA1Size -> ParseSHA1 (SHA1_String h) = Ok h.
Proof.
  intros Hlen. unfold ParseSHA1, SHA1_String.
  rewrite length_hex_Encode, Hlen. simpl.
  rewrite hex_Encode_lower. simpl.
  rewrite hex_Decode_Encode; [done|]. by rewrite Hlen.
Qed.

(** ** Decimal numbers *)

(** The number a string of decimal digits denotes, after the digits
    already read gave [acc]. *)
Definition digits_val (acc : Z) (ds : bytes) : Z :=
  fold_left (fun a c => a * 10 + (byte_val c - 48)) ds acc.

Lemma is_digit_range (c : ascii) : is_digit c = true <-> 48 <= byte_val c <= 57.
Proof. unfold is_digit. rewrite andb_true_iff, !Z.leb_le. done. Qed.

Lemma digits_val_ge (ds : bytes) : forall acc,
  0 <= acc -> Forall (fun c => is_digit c = true) ds -> acc <= digits_val acc ds.
Proof.
  induction ds as [|c ds IH]; intros acc Hacc Hds; simpl; [unfold digits_val; simpl; lia|].
  inversion_clear Hds as [|? ? Hc Hds']. apply is_digit_range in Hc.
  unfold digits_val in *. simpl. etrans; [|apply IH]; [lia | lia | done].
Qed.

Lemma ParseUint_loop_digits (ds : bytes) : forall n,
  0 <= n -> Forall (fun c => is_digit c = true) ds -> digits_val n ds <= maxUint64 ->
  ParseUint_loop n ds = (digits_val n ds, None).
Proof.
  induction ds as [|c ds IH]; intros n Hn Hds Hmax; [done|].
  inversion Hds as [|? ? Hc Hds']; subst. simpl. rewrite Hc. simpl.
  apply is_digit_range in Hc.
  assert (n * 10 + (byte_val c - 48) <= maxUint64) as Hstep.
  { etrans; [|exact Hmax]. apply (digits_val_ge ds); [lia | done]. }
  unfold maxUint64 in *.
  change ((2 ^ 64 - 1) / 10 + 1) with 1844674407370955162.
  change (2 ^ 64 - 1) with 18446744073709551615 in *.
  destruct (Z.leb_spec 1844674407370955162 n) as [Hcut|_]; [lia|].
  destruct (Z.ltb_spec 18446744073709551615 (n * 10 + (byte_val c - 48))) as [Hov|_]; [lia|].
  apply IH; [lia | done | done].
Qed.

Lemma decimal_digits_spec (fuel : nat) : forall n,
  0 <= n < 2 ^ Z.of_nat (S fuel) ->
  Forall (fun c => is_digit c = true) (decimal_digits (S fuel) n)
  /\ digits_val 0 (decimal_digits (S fuel) n) = n
  /\ decimal_digits (S fuel) n <> [].
Proof.
  induction fuel as [|fuel IH]; intros n Hn.
  - change (2 ^ Z.of_nat 1) with 2 in Hn. simpl.
    destruct (Z.ltb_spec n 10) as [Hlt|Hge]; [|lia].
    split_and!; [|unfold digits_val; simpl; rewrite byte_val_of; lia|done].
    constructor; [|done]. apply is_digit_range. rewrite byte_val_of; lia.
  - remember (S fuel) as fuel' eqn:Hfuel.
    simpl. destruct (Z.ltb_spec n 10) as [Hlt|Hge].
    + split_and!; [|unfold digits_val; simpl; rewrite byte_val_of; lia|done].
      constructor; [|done]. apply is_digit_range. rewrite byte_val_of; lia.
    + assert (0 <= n / 10 < 2 ^ Z.of_nat fuel') as Hdiv.
      { rewrite Nat2Z.inj_succ, Z.pow_succ_r in Hn by lia.
        assert (0 < 2 ^ Z.of_nat fuel') by (apply Z.pow_pos_nonneg; lia).
        split; [apply Z.div_pos; lia | apply Z.div_lt_upper_bound; lia]. }
      subst fuel'. destruct (IH _ Hdiv) as (Hds & Hval & Hne).
      pose proof (Z.mod_pos_bound n 10) as Hmod.
      split_and!.
      * apply Forall_app. split; [done|]. constructor; [|done].
        apply is_digit_range. rewrite byte_val_of; lia.
      * unfold digits_val in *. rewrite fold_left_app, Hval. simpl.
        rewrite byte_val_of by lia. pose proof (Z.div_mod n 10). lia.
      * by destruct (decimal_digits (S fuel) (n / 10)).
Qed.

Lemma format_uint_spec (n : Z) :
  0 <= n ->
  Forall (fun c => is_digit c = true) (format_uint n)
  /\ digits_val 0 (format_uint n) = n
  /\ format_uint n <> [].
Proof.
  intros Hn. apply decimal_digits_spec.
  rewrite Nat2Z.inj_succ, Z2Nat.id by apply Z.log2_nonneg.
  destruct (decide (n = 0)) as [->|Hne]; [done|].
  split; [done|]. apply Z.log2_spec. lia.
Qed.

Lemma digit_not_sign (c : ascii) :
  is_digit c = true -> Ascii.eqb c "+" = false /\ Ascii.eqb c "-" = false.
Proof.
  intros Hc%is_digit_range.
  split; apply Ascii.eqb_neq; intros ->; vm_compute in Hc; destruct Hc; congruence.
Qed.

Lemma strconv_ParseUint_digits (ds : bytes) :
  ds <> [] -> Forall (fun c => is_digit c = true) ds -> digits_val 0 ds <= maxUint64 ->
  strconv_ParseUint ds = (digits_val 0 ds, None).
Proof.
  intros Hne Hds Hmax. unfold strconv_ParseUint. destruct ds; [done|].
  by apply ParseUint_loop_digits.
Qed.

(** The bounds of the 64-bit integers, as numerals [lia] can use. *)
Ltac int64_bounds :=
  unfold maxUint64 in *;
  change (2 ^ 63) with 9223372036854775808 in *;
  change (2 ^ 64 - 1) with 18446744073709551615 in *.

(** Parsing what [%d] prints for an [int64] gives the number back. *)
Lemma ParseInt_format_int (z : Z) :
  - 2 ^ 63 <= z < 2 ^ 63 -> strconv_ParseInt (format_int z) = (z, None).
Proof.
  intros Hz. unfold format_int. destruct (Z.ltb_spec z 0) as [Hneg|Hpos].
  - destruct (format_uint_spec (- z)) as (Hds & Hval & Hne); [lia|].
    unfold strconv_ParseInt. rewrite Ascii.eqb_refl.
    change (Ascii.eqb "-" "+") with false. cbv zeta. cbn [orb negb andb].
    rewrite strconv_ParseUint_digits; [|done|done|rewrite Hval; int64_bounds; lia].
    rewrite Hval. int64_bounds.
    destruct (Z.ltb_spec 9223372036854775808 (- z)); [lia|]. f_equal. lia.
  - destruct (format_uint_spec z) as (Hds & Hval & Hne); [lia|].
    unfold strconv_ParseInt. destruct (format_uint z) as [|c ds] eqn:E; [done|].
    pose proof (Forall_inv Hds) as Hc. simpl in Hc.
    destruct (digit_not_sign c Hc) as [-> ->]. cbv zeta. cbn [orb negb andb].
    rewrite strconv_ParseUint_digits; [|done|done|rewrite Hval; int64_bounds; lia].
    rewrite Hval. int64_bounds.
    destruct (Z.leb_spec 9223372036854775808 z); [lia | done].
Qed.

(** What [%d] prints has neither a space nor a newline. *)
Lemma format_int_chars (z : Z) (c : ascii) :
  c ∈ format_int z -> is_digit c = true \/ c = "-"%char.
Proof.
  unfold format_int. destruct (Z.ltb_spec z 0) as [Hneg|Hpos].
  - intros [->|Hin]%elem_of_cons; [by right|]. left.
    destruct (format_uint_spec (- z)) as (Hds & _); [lia|].
    by apply (proj1 (Forall_forall _ _) Hds).
  - intros Hin. left. destruct (format_uint_spec z) as (Hds & _); [lia|].
    by apply (proj1 (Forall_forall _ _) Hds).
Qed.

(** ** The zone offset *)

(** [appendInt x 2] is two digits that denote [x], checked for each
    [x] below 100. *)
Definition two_digits_ok (x : Z) : bool :=
  match appendInt x 2 with
  | [d1; d2] =>
      is_digit d1 && is_digit d2 && ((byte_val d1 - 48) * 10 + (byte_val d2 - 48) =? x)
  | _ => false
  end.

Lemma two_digits_ok_below_100 : forallb two_digits_ok (Z.of_nat <$> seq 0 100) = true.
Proof. vm_compute. reflexivity. Qed.

Lemma appendInt_two_digits (x : Z) :
  0 <= x < 100 ->
  exists d1 d2, appendInt x 2 = [d1; d2]
    /\ is_digit d1 = true /\ is_digit d2 = true
    /\ (byte_val d1 - 48) * 10 + (byte_val d2 - 48) = x.
Proof.
  intros Hx.
  assert (two_digits_ok x = true) as Hok.
  { apply (proj1 (forallb_forall _ _) two_digits_ok_below_100).
    apply list_elem_of_In, list_elem_of_fmap. exists (Z.to_nat x).
    split; [lia|]. apply elem_of_seq. lia. }
  unfold two_digits_ok in Hok.
  destruct (appendInt x 2) as [|d1 [|d2 [|? ?]]]; try done.
  apply andb_true_iff in Hok as [[H1 H2]%andb_true_iff H3%Z.eqb_eq].
  by exists d1, d2.
Qed.

(** A zone offset of whole minutes, less than a hundred hours away from
    UTC: the offsets that the layout [-0700] renders in five bytes. *)
Definition offset_fits_numTZ (offset : Z) : Prop :=
  offset mod 60 = 0 /\ -360000 < offset < 360000.

Lemma format_numTZ_shape (offset : Z) :
  offset_fits_numTZ offset ->
  exists s h1 h2 m1 m2,
    format_numTZ offset = [s; h1; h2; m1; m2]
    /\ (s = "-"%char \/ s = "+"%char)
    /\ Forall (fun c => is_digit c = true) [h1; h2; m1; m2]
    /\ parseTZOffset [s; h1; h2; m1; m2]
       = Ok (FixedZone (string_of_list_ascii [s; h1; h2; m1; m2]) offset).
Proof.
  intros [Hmod Hrange]. unfold format_numTZ.
  set (zone := offset `quot` 60).
  assert (offset = 60 * zone) as Hoff.
  { unfold zone. apply Z.quot_exact; [lia|]. by apply Z.rem_mod_eq_0. }
  assert (0 <= Z.abs zone < 6000) as Habs by lia.
  pose proof (Z.div_mod (Z.abs zone) 60) as Hdm.
  pose proof (Z.mod_pos_bound (Z.abs zone) 60) as Hmm.
  destruct (appendInt_two_digits (Z.abs zone / 60)) as (h1 & h2 & -> & Hh1 & Hh2 & Hh).
  { split; [apply Z.div_pos; lia | apply Z.div_lt_upper_bound; lia]. }
  destruct (appendInt_two_digits (Z.abs zone mod 60)) as (m1 & m2 & -> & Hm1 & Hm2 & Hm);
    [lia|].
  exists (if zone <? 0 then "-"%char else "+"%char), h1, h2, m1, m2.
  split_and!; [done | destruct (zone <? 0); auto | by repeat constructor |].
  unfold parseTZOffset.
  destruct (Z.ltb_spec zone 0) as [Hneg|Hpos].
  - change (Ascii.eqb "-" "-") with true. cbv iota beta.
    cbn [forallb]. rewrite Hh1, Hh2, Hm1, Hm2. cbn [andb negb].
    do 2 f_equal. rewrite Hh, Hm. lia.
  - change (Ascii.eqb "+" "-") with false. change (Ascii.eqb "+" "+") with true.
    cbv iota beta. cbn [forallb]. rewrite Hh1, Hh2, Hm1, Hm2. cbn [andb negb].
    do 2 f_equal. rewrite Hh, Hm. lia.
Qed.

Lemma format_numTZ_chars (offset : Z) (c : ascii) :
  offset_fits_numTZ offset -> c ∈ format_numTZ offset ->
  is_digit c = true \/ c = "-"%char \/ c = "+"%char.
Proof.
  intros Hfit Hin.
  destruct (format_numTZ_shape offset Hfit) as (s & h1 & h2 & m1 & m2 & Heq & Hs & Hds & _).
  rewrite Heq in Hin. apply elem_of_cons in Hin as [->|Hin]; [tauto|].
  left. by apply (proj1 (Forall_forall _ _) Hds).
Qed.

Lemma SP_not_digit_or_sign (c : ascii) :
  is_digit c = true \/ c = "-"%char \/ c = "+"%char -> c <> SP /\ c <> LF.
Proof.
  intros [Hc%is_digit_range | [-> | ->] ]; [|done..].
  split; intros ->; vm_compute in Hc; destruct Hc; congruence.
Qed.

Lemma bytes_IndexByte_split (s : bytes) (c : ascii) (i : nat) :
  bytes_IndexByte s c = Some i ->
  exists l r, s = l ++ c :: r /\ (c ∉ l) /\ i = length l.
Proof.
  revert i; induction s as [|x s IH]; simpl; intros i; [done|].
  destruct (Ascii.eqb_spec x c) as [->|Hne].
  - intros [= <-]. exists [], s. split_and!; [done | apply not_elem_of_nil | done].
  - destruct (bytes_IndexByte s c) as [j|]; [|done].
    intros [= <-]. destruct (IH j eq_refl) as (l & r & -> & Hnotin & ->).
    exists (x :: l), r. split_and!; [done | | done].
    apply not_elem_of_cons. split; [congruence | done].
Qed.

Lemma drop_S_app_cons {A} (l : list A) (c : A) (r : list A) :
  drop (S (length l)) (l ++ c :: r) = r.
Proof. induction l; simpl; [by rewrite drop_0 | done]. Qed.

Lemma take_S_app_cons {A} (l : list A) (c : A) (r : list A) :
  take (S (length l)) (l ++ c :: r) = l ++ [c].
Proof. induction l; simpl; [by rewrite take_0 | by f_equal]. Qed.

(** ** The pieces of the commit parser *)

Lemma consumeString_app (s : string) (rest : bytes) :
  consumeString (B s ++ rest) s = (rest, true).
Proof.
  unfold consumeString, B. rewrite length_app.
  destruct (Nat.ltb_spec (length (list_ascii_of_string s) + length rest)
                         (length (list_ascii_of_string s))) as [?|_]; [lia|].
  rewrite take_app_length, bytes_Equal_refl. simpl. by rewrite drop_app_length.
Qed.

Lemma consumeString_mismatch (c d : ascii) (rest : bytes) (s : string) :
  c <> d -> consumeString (c :: rest) (String d s) = (c :: rest, false).
Proof.
  intros Hne. unfold consumeString. simpl list_ascii_of_string.
  destruct (_ <? _)%nat; [done|]. simpl.
  by rewrite (proj2 (Ascii.eqb_neq c d) Hne).
Qed.

Lemma consumeString_nil (d : ascii) (s : string) :
  consumeString [] (String d s) = ([], false).
Proof. done. Qed.

Lemma consumeHex_Encode (dst h rest : bytes) :
  length dst = length h ->
  consumeHex dst (hex_Encode h ++ rest) = (h, rest, None).
Proof.
  intros Hlen. unfold consumeHex, hex_EncodedLen.
  rewrite length_app, length_hex_Encode, Hlen.
  destruct (Nat.ltb_spec (2 * length h + length rest) (2 * length h)) as [?|_]; [lia|].
  rewrite take_app_length' by (by rewrite length_hex_Encode).
  rewrite hex_Decode_Encode by done.
  by rewrite drop_app_length' by (by rewrite length_hex_Encode).
Qed.

(** A zone whose name is what the layout [-0700] prints for its offset,
    as [parseTZOffset] makes them. *)
Definition numeric_zone (l : Location) : Prop :=
  offset_fits_numTZ (loc_offset l)
  /\ loc_name l = string_of_list_ascii (format_numTZ (loc_offset l)).

(** A time that a commit header can hold in full: whole seconds, in a
    numeric zone. *)
Definition wire_time (t : Time) : Prop :=
  nsec t = 0 /\ numeric_zone (loc t).

Lemma parseTZOffset_format (l : Location) :
  numeric_zone l -> parseTZOffset (format_numTZ (loc_offset l)) = Ok l.
Proof.
  intros [Hfit Hname].
  destruct (format_numTZ_shape _ Hfit) as (s & h1 & h2 & m1 & m2 & Heq & _ & _ & Hparse).
  rewrite Heq in Hname |- *. rewrite Hparse, <- Hname. by destruct l.
Qed.

Lemma list_ascii_of_string_inv (s : string) :
  string_of_list_ascii (list_ascii_of_string s) = s.
Proof. apply String.string_of_list_ascii_of_string. Qed.

Lemma format_int_no_SP_LF (z : Z) : (SP ∉ format_int z) /\ (LF ∉ format_int z).
Proof.
  split; intros Hin%format_int_chars.
  - destruct (SP_not_digit_or_sign SP); [tauto | done].
  - destruct (SP_not_digit_or_sign LF); [tauto | done].
Qed.

Lemma format_numTZ_no_SP_LF (offset : Z) :
  offset_fits_numTZ offset ->
  (SP ∉ format_numTZ offset) /\ (LF ∉ format_numTZ offset).
Proof.
  intros Hfit. split; intros Hin%format_numTZ_chars; try done.
  - by destruct (SP_not_digit_or_sign SP).
  - by destruct (SP_not_digit_or_sign LF).
Qed.

(** The line [<user> <seconds> <zone>] of a header is read back. *)
Lemma consumeUser_line (u : string) (z : Z) (l : Location) (rest : bytes) :
  ~ contains_LF u -> (- 2 ^ 63 <= z) /\ (z < 2 ^ 63) -> numeric_zone l ->
  consumeUser (list_ascii_of_string u ++ [SP] ++ format_int z ++ [SP]
                 ++ format_numTZ (loc_offset l) ++ [LF] ++ rest)
  = (u, time_Unix_In z l, rest, None).
Proof.
  intros Hu Hz Hl. unfold contains_LF in Hu.
  destruct (format_int_no_SP_LF z) as [HtsSP HtsLF].
  destruct (format_numTZ_no_SP_LF (loc_offset l)) as [HtzSP HtzLF]; [apply Hl|].
  pose proof (ParseInt_format_int z Hz) as Hparse.
  pose proof (parseTZOffset_format l Hl) as Hzone.
  revert HtsSP HtsLF HtzSP HtzLF Hparse Hzone.
  generalize (format_int z) (format_numTZ (loc_offset l)). intros ts tz.
  intros HtsSP HtsLF HtzSP HtzLF Hparse Hzone.
  set (ub := list_ascii_of_string u) in *.
  set (line := ub ++ [SP] ++ ts ++ [SP] ++ tz).
  replace (ub ++ [SP] ++ ts ++ [SP] ++ tz ++ [LF] ++ rest) with (line ++ LF :: rest)
    by (unfold line; by rewrite <- !app_assoc).
  assert (LF ∉ line) as HlineLF.
  { unfold line. rewrite !not_elem_of_app, !not_elem_of_cons.
    split_and!; try done; apply not_elem_of_nil. }
  unfold consumeUser. rewrite bytes_IndexByte_app by done.
  rewrite take_app_length, drop_S_app_cons.
  assert (line = (ub ++ SP :: ts) ++ SP :: tz) as Hline1
    by (unfold line; by rewrite <- !app_assoc).
  assert (bytes_LastIndexByte line SP = Some (length (ub ++ SP :: ts))) as ->
    by (rewrite Hline1; by apply bytes_LastIndexByte_app).
  assert (take (length (ub ++ SP :: ts)) line = ub ++ SP :: ts) as ->
    by (rewrite Hline1; apply take_app_length).
  rewrite bytes_LastIndexByte_app by done.
  rewrite drop_S_app_cons, Hparse.
  assert (drop (S (length (ub ++ SP :: ts))) line = tz) as ->
    by (rewrite Hline1; apply drop_S_app_cons).
  rewrite Hzone. unfold line. rewrite take_app_length.
  unfold ub. by rewrite list_ascii_of_string_inv.
Qed.

(** ** GPG signatures *)

(** Brings appends to the right-nested form. *)
Ltac list_norm :=
  repeat (rewrite <- app_assoc || rewrite <- app_comm_cons); simpl.

(** The bytes of a list of lines, each followed by LF. *)
Definition join_lines (lines : list bytes) : bytes :=
  concat ((fun l => l ++ [LF]) <$> lines).

(** A signature buffer that consists only of LF-terminated lines. *)
Definition lf_terminated_lines (sig : bytes) : Prop :=
  exists lines, Forall (fun l => LF ∉ l) lines /\ sig = join_lines lines.

(** The folded form of the lines in a header: each line after a space. *)
Definition folded_lines (lines : list bytes) : bytes :=
  concat ((fun l => SP :: l ++ [LF]) <$> lines).

Lemma join_lines_cons (l : bytes) (lines : list bytes) :
  join_lines (l :: lines) = l ++ LF :: join_lines lines.
Proof. unfold join_lines. simpl. by list_norm. Qed.

Lemma folded_lines_cons (l : bytes) (lines : list bytes) :
  folded_lines (l :: lines) = SP :: l ++ LF :: folded_lines lines.
Proof. unfold folded_lines. simpl. by list_norm. Qed.

Lemma length_folded_lines (lines : list bytes) :
  (length lines <= length (folded_lines lines))%nat.
Proof.
  induction lines as [|l lines IH]; [done|].
  rewrite folded_lines_cons. simpl. rewrite length_app. simpl. lia.
Qed.

Lemma split_at_first (c : ascii) (a b x y : bytes) :
  c ∉ a -> c ∉ b -> a ++ c :: x = b ++ c :: y -> a = b /\ x = y.
Proof.
  revert b; induction a as [|a0 a IH]; intros [|b0 b] Ha Hb; simpl.
  - by intros [= ->].
  - intros [= <- _]. by apply not_elem_of_cons in Hb as [? _].
  - intros [= -> _]. by apply not_elem_of_cons in Ha as [? _].
  - intros [= -> Heq]. apply not_elem_of_cons in Ha as [_ Ha].
    apply not_elem_of_cons in Hb as [_ Hb].
    destruct (IH b Ha Hb Heq) as [-> ->]. done.
Qed.

Lemma lf_terminated_lines_tail (l rest : bytes) :
  LF ∉ l -> lf_terminated_lines (l ++ LF :: rest) -> lf_terminated_lines rest.
Proof.
  intros Hl ([|l1 lines] & Hlines & Heq).
  - by destruct l.
  - inversion_clear Hlines as [|? ? Hl1 Hlines'].
    rewrite join_lines_cons in Heq.
    destruct (split_at_first LF l l1 rest _ Hl Hl1 Heq) as [_ ->].
    by exists lines.
Qed.

Lemma lf_terminated_lines_has_LF (sig : bytes) :
  sig <> [] -> lf_terminated_lines sig -> LF ∈ sig.
Proof.
  intros Hne ([|l1 lines] & _ & ->); [done|].
  rewrite join_lines_cons, elem_of_app, elem_of_cons. auto.
Qed.

Definition err_unterminated : error :=
  Errorf "write gpg signature: data has unterminated line" [].

(** The loop of [writeGPGSignature] either folds all the lines of the
    signature, or meets a last line without LF and fails. *)
Lemma writeGPGSignature_loop_spec (fuel : nat) : forall (w sig : bytes),
  (length sig <= fuel)%nat ->
  (exists lines, Forall (fun l => LF ∉ l) lines /\ sig = join_lines lines
     /\ writeGPGSignature_loop fuel w sig = (w ++ folded_lines lines, None))
  \/ (~ lf_terminated_lines sig
      /\ exists w', writeGPGSignature_loop fuel w sig = (w', Some err_unterminated)).
Proof.
  induction fuel as [|fuel IH]; intros w sig Hlen.
  - destruct sig; [|simpl in Hlen; lia].
    left. exists []. by rewrite app_nil_r.
  - destruct sig as [|c sig'] eqn:Hsig.
    { left. exists []. by rewrite app_nil_r. }
    rewrite <- Hsig in *. 
    assert (writeGPGSignature_loop (S fuel) w sig
            = match bytes_IndexByte sig LF with
              | None => (w, Some err_unterminated)
              | Some lineEnd =>
                  writeGPGSignature_loop fuel (w ++ B " " ++ take (S lineEnd) sig)
                                         (drop (S lineEnd) sig)
              end) as -> by (by rewrite Hsig).
    destruct (bytes_IndexByte sig LF) as [i|] eqn:Hidx.
    + apply bytes_IndexByte_split in Hidx as (l & rest & Hsplit & Hnotin & ->).
      rewrite Hsplit, take_S_app_cons, drop_S_app_cons.
      destruct (IH (w ++ B " " ++ l ++ [LF]) rest) as
        [(lines & Hlines & -> & ->)|(Hbad & w' & ->)].
      { rewrite Hsplit, length_app in Hlen. simpl in Hlen. lia. }
      * left. exists (l :: lines). split_and!; [by constructor| |].
        -- by rewrite join_lines_cons.
        -- rewrite folded_lines_cons. by list_norm.
      * right. split; [|by exists w'].
        intros Hterm. by apply Hbad, (lf_terminated_lines_tail l).
    + right. split; [|by exists w].
      intros Hterm%lf_terminated_lines_has_LF; [|by rewrite Hsig].
      by apply bytes_IndexByte_None in Hidx.
Qed.

Lemma writeGPGSignature_spec (w sig : bytes) :
  (exists lines, Forall (fun l => LF ∉ l) lines /\ sig = join_lines lines
     /\ writeGPGSignature w sig
        = (w ++ (if bool_decide (sig = []) then [] else gpgSignaturePrefix ++ folded_lines lines),
           None))
  \/ (sig <> [] /\ ~ lf_terminated_lines sig
      /\ exists w', writeGPGSignature w sig = (w', Some err_unterminated)).
Proof.
  unfold writeGPGSignature. destruct sig as [|c sig'] eqn:Hsig.
  { left. exists []. by rewrite app_nil_r. }
  rewrite <- Hsig.
  destruct (writeGPGSignature_loop_spec (length sig) (w ++ gpgSignaturePrefix) sig)
    as [(lines & Hlines & Heq & ->)|(Hbad & w' & ->)]; [done| |].
  - left. exists lines. rewrite bool_decide_eq_false_2 by (by rewrite Hsig).
    by rewrite <- app_assoc.
  - right. split_and!; [by rewrite Hsig | done | by exists w'].
Qed.

(** The loop of [consumeSignature] unfolds the continuation lines. *)
Lemma consumeSignature_loop_folded (lines : list bytes) :
  forall (fuel : nat) (sig rest : bytes),
  Forall (fun l => LF ∉ l) lines -> (length lines <= fuel)%nat ->
  head rest <> Some SP ->
  consumeSignature_loop fuel sig (folded_lines lines ++ rest)
  = (sig ++ join_lines lines, rest, None).
Proof.
  induction lines as [|l lines IH]; intros fuel sig rest Hlines Hfuel Hrest.
  - unfold folded_lines, join_lines. simpl. rewrite app_nil_r.
    destruct fuel; [done|]. destruct rest as [|c rest]; [done|]. simpl.
    destruct (Ascii.eqb_spec c SP) as [->|_]; [done | done].
  - destruct fuel as [|fuel]; [simpl in Hfuel; lia|].
    inversion_clear Hlines as [|? ? Hl Hlines'].
    rewrite folded_lines_cons, join_lines_cons.
    assert ((SP :: l ++ LF :: folded_lines lines) ++ rest
            = SP :: (l ++ LF :: (folded_lines lines ++ rest))) as -> by (by list_norm).
    cbn [consumeSignature_loop]. rewrite Ascii.eqb_refl.
    rewrite (app_comm_cons l (LF :: folded_lines lines ++ rest) SP).
    rewrite (bytes_IndexByte_app (SP :: l)) by (by apply not_elem_of_cons).
    rewrite (take_S_app_cons (SP :: l)), (drop_S_app_cons (SP :: l)).
    simpl drop. rewrite drop_0.
    rewrite IH by (done || simpl in Hfuel; lia).
    by list_norm.
Qed.

Lemma consumeSignature_folded (l : bytes) (lines : list bytes) (rest : bytes) :
  LF ∉ l -> Forall (fun l => LF ∉ l) lines -> head rest <> Some SP ->
  consumeSignature (l ++ [LF] ++ folded_lines lines ++ rest)
  = (join_lines (l :: lines), rest, None).
Proof.
  intros Hl Hlines Hrest. unfold consumeSignature.
  change (l ++ [LF] ++ folded_lines lines ++ rest)
    with (l ++ LF :: (folded_lines lines ++ rest)).
  rewrite bytes_IndexByte_app by done.
  rewrite take_S_app_cons, drop_S_app_cons.
  rewrite consumeSignature_loop_folded; [done | done | | done].
  rewrite length_app. pose proof (length_folded_lines lines). lia.
Qed.

(** ** Emission *)

Definition parent_lines (ps : list SHA1) : bytes :=
  concat ((fun p => B "parent " ++ SHA1_String p ++ [LF]) <$> ps).

Definition user_line (key : string) (u : User) (t : Time) : bytes :=
  B key ++ list_ascii_of_string u ++ [SP] ++ format_int (Time_Unix t) ++ [SP]
    ++ Time_Format_numTZ t ++ [LF].

(** The header of a commit up to the committer line. *)
Definition commit_header (c : Commit) : bytes :=
  B "tree " ++ SHA1_String (Tree c) ++ [LF] ++ parent_lines (Parents c)
    ++ user_line "author " (Author c) (AuthorTime c)
    ++ user_line "committer " (Committer c) (CommitTime c).

(** The [gpgsig] header of the signature made of [lines]. *)
Definition gpgsig_header (lines : list bytes) : bytes :=
  match lines with
  | [] => []
  | _ => gpgSignaturePrefix ++ folded_lines lines
  end.

Definition err_author (c : Commit) : error :=
  Errorf "marshal git commit: author %q contains newline"
         [ArgBytes (list_ascii_of_string (Author c))].

Definition err_committer (c : Commit) : error :=
  Errorf "marshal git commit: committer %q contains newline"
         [ArgBytes (list_ascii_of_string (Committer c))].

Definition err_signature : error :=
  Wrapf "marshal git commit: %w" [] err_unterminated.

Lemma fold_left_parents (ps : list SHA1) : forall buf : bytes,
  fold_left (fun buf par => buf ++ B "parent " ++ SHA1_String par ++ [LF]) ps buf
  = buf ++ parent_lines ps.
Proof.
  induction ps as [|p ps IH]; intros buf; simpl.
  - by rewrite app_nil_r.
  - rewrite IH. unfold parent_lines. simpl. by list_norm.
Qed.

Lemma join_lines_nil_inv (lines : list bytes) : join_lines lines = [] -> lines = [].
Proof.
  destruct lines as [|l lines]; [done|]. rewrite join_lines_cons. by destruct l.
Qed.

(** The four outcomes of [MarshalText], in the order the code checks
    for them. *)
Lemma Commit_MarshalText_cases (c : Commit) :
  (contains_LF (Author c) /\ Commit_MarshalText c = Err (err_author c))
  \/ (~ contains_LF (Author c) /\ contains_LF (Committer c)
      /\ Commit_MarshalText c = Err (err_committer c))
  \/ (~ contains_LF (Author c) /\ ~ contains_LF (Committer c)
      /\ GPGSignature c <> [] /\ ~ lf_terminated_lines (GPGSignature c)
      /\ Commit_MarshalText c = Err err_signature)
  \/ (~ contains_LF (Author c) /\ ~ contains_LF (Committer c)
      /\ exists lines, Forall (fun l => LF ∉ l) lines
         /\ GPGSignature c = join_lines lines
         /\ Commit_MarshalText c
            = Ok (commit_header c ++ gpgsig_header lines ++ [LF]
                    ++ list_ascii_of_string (Message c))).
Proof.
  unfold Commit_MarshalText.
  destruct (strings_Contains (Author c) _) eqn:HA.
  { left. split; [by apply strings_Contains_LF | done]. }
  assert (~ contains_LF (Author c)) as HA'
    by (rewrite <- strings_Contains_LF, HA; done).
  destruct (strings_Contains (Committer c) _) eqn:HC.
  { right; left. split_and!; [done | by apply strings_Contains_LF | done]. }
  assert (~ contains_LF (Committer c)) as HC'
    by (rewrite <- strings_Contains_LF, HC; done).
  right; right. rewrite fold_left_parents.
  match goal with |- context [writeGPGSignature ?buf _] =>
    destruct (writeGPGSignature_spec buf (GPGSignature c))
      as [(lines & Hlines & Hsig & ->)|(Hne & Hbad & w' & ->)]
  end.
  - right. split_and!; [done..|]. exists lines. split_and!; [done..|].
    f_equal. unfold commit_header, user_line, gpgsig_header.
    case_bool_decide as Hnil.
    + rewrite Hsig in Hnil. apply join_lines_nil_inv in Hnil as ->. by list_norm.
    + destruct lines; [by rewrite Hsig in Hnil|]. by list_norm.
  - left. done.
Qed.

(** ** Parsing what was emitted *)

Lemma consumeString_LF (rest : bytes) :
  consumeString (LF :: rest) (String LF "") = (rest, true).
Proof. apply (consumeString_app (String LF "") rest). Qed.

Lemma consumeString_LF_app (rest : bytes) :
  consumeString ([LF] ++ rest) (String LF "") = (rest, true).
Proof. apply consumeString_LF. Qed.

Lemma parent_lines_cons (p : SHA1) (ps : list SHA1) :
  parent_lines (p :: ps) = B "parent " ++ SHA1_String p ++ LF :: parent_lines ps.
Proof. unfold parent_lines. simpl concat. by rewrite <- !app_assoc. Qed.

Lemma length_parent_lines (ps : list SHA1) :
  (length ps <= length (parent_lines ps))%nat.
Proof.
  induction ps as [|p ps IH]; [done|].
  rewrite parent_lines_cons, !length_app. simpl. lia.
Qed.

Lemma set_Parents_id (c : Commit) : set_Parents c (Parents c ++ []) = c.
Proof. destruct c. unfold set_Parents. simpl. by rewrite app_nil_r. Qed.

Lemma UnmarshalText_parents_lines (ps : list SHA1) :
  forall (fuel : nat) (i : Z) (c : Commit) (rest : bytes),
  Forall (fun p => length p = SHA1Size) ps ->
  (length ps < fuel)%nat ->
  consumeString rest "parent " = (rest, false) ->
  UnmarshalText_parents fuel i c (parent_lines ps ++ rest)
  = (set_Parents c (Parents c ++ ps), rest, None).
Proof.
  induction ps as [|p ps IH]; intros fuel i c rest Hps Hfuel Hrest.
  - destruct fuel; [lia|]. simpl. by rewrite Hrest, set_Parents_id.
  - destruct fuel; [lia|]. inversion_clear Hps as [|? ? Hp Hps'].
    assert (parent_lines (p :: ps) ++ rest
            = B "parent " ++ (hex_Encode p ++ (LF :: (parent_lines ps ++ rest)))) as ->.
    { rewrite parent_lines_cons. unfold SHA1_String. by rewrite <- !app_assoc. }
    cbn [UnmarshalText_parents].
    rewrite consumeString_app, consumeHex_Encode by (by rewrite Hp).
    rewrite consumeString_LF.
    rewrite IH by (done || simpl in Hfuel; lia).
    unfold set_Parents. simpl. by rewrite <- app_assoc.
Qed.

(** The bytes of a well-formed commit, piece by piece, are parsed into
    the commit they came from, whatever the receiver held. *)
Lemma UnmarshalText_emitted (recv : Commit) (tree : SHA1) (ps : list SHA1)
    (au cu : User) (az cz : Z) (al cl : Location) (lines : list bytes) (msg : string) :
  length tree = SHA1Size -> Forall (fun p => length p = SHA1Size) ps ->
  ~ contains_LF au -> ~ contains_LF cu ->
  (- 2 ^ 63 <= az) /\ (az < 2 ^ 63) -> (- 2 ^ 63 <= cz) /\ (cz < 2 ^ 63) ->
  numeric_zone al -> numeric_zone cl ->
  Forall (fun l => LF ∉ l) lines ->
  Commit_UnmarshalText recv
    (B "tree " ++ SHA1_String tree ++ [LF] ++ parent_lines ps
       ++ user_line "author " au (mkTime az 0 al)
       ++ user_line "committer " cu (mkTime cz 0 cl)
       ++ gpgsig_header lines ++ [LF] ++ list_ascii_of_string msg)
  = (mkCommit tree ps au (mkTime az 0 al) cu (mkTime cz 0 cl) (join_lines lines) msg, None).
Proof.
  intros Htree Hps Hau Hcu Haz Hcz Hal Hcl Hlines.
  unfold Commit_UnmarshalText, user_line, Time_Format_numTZ, Time_Unix. simpl loc. simpl unix_sec.
  rewrite consumeString_app. cbv zeta. simpl (Tree Commit_zero).
  unfold SHA1_String. rewrite <- !app_assoc.
  rewrite consumeHex_Encode by (by rewrite Htree).
  rewrite consumeString_LF_app.
  rewrite UnmarshalText_parents_lines; [|done| |].
  2:{ rewrite !length_app. pose proof (length_parent_lines ps). simpl. lia. }
  2:{ apply (consumeString_mismatch "a" "p"). done. }
  rewrite consumeString_app.
  rewrite (consumeUser_line au az al) by done.
  rewrite consumeString_app.
  rewrite (consumeUser_line cu cz cl) by done.
  destruct lines as [|l lines].
  - simpl gpgsig_header. rewrite app_nil_l.
    change ([LF] ++ list_ascii_of_string msg) with (LF :: list_ascii_of_string msg).
    rewrite (consumeString_mismatch LF "g") by done.
    rewrite consumeString_LF. by rewrite list_ascii_of_string_inv.
  - inversion_clear Hlines as [|? ? Hl Hlines'].
    assert (gpgsig_header (l :: lines) ++ [LF] ++ list_ascii_of_string msg
            = B "gpgsig " ++ (l ++ [LF] ++ folded_lines lines
                                ++ (LF :: list_ascii_of_string msg))) as ->.
    { unfold gpgsig_header. rewrite folded_lines_cons. by list_norm. }
    rewrite consumeString_app.
    rewrite consumeSignature_folded by done.
    rewrite consumeString_LF. by rewrite list_ascii_of_string_inv.
Qed.

(** ** The claims about the commit codec *)

(** The emission preconditions of the specification. *)
Definition user_violation (c : Commit) : Prop :=
  contains_LF (Author c) \/ contains_LF (Committer c).

Definition signature_violation (c : Commit) : Prop :=
  GPGSignature c <> [] /\ ~ lf_terminated_lines (GPGSignature c).

(** The error kinds the specification names for emission, and the
    errors of the code that are of each kind. *)
Inductive marshal_error_kind : Type := InvalidUser | UnterminatedSignature.

Inductive error_has_kind : error -> marshal_error_kind -> Prop :=
  | kind_author (u : bytes) :
      error_has_kind
        (Errorf "marshal git commit: author %q contains newline" [ArgBytes u])
        InvalidUser
  | kind_committer (u : bytes) :
      error_has_kind
        (Errorf "marshal git commit: committer %q contains newline" [ArgBytes u])
        InvalidUser
  | kind_signature :
      error_has_kind
        (Wrapf "marshal git commit: %w" []
               (Errorf "write gpg signature: data has unterminated line" []))
        UnterminatedSignature.

(** [MarshalText] fails exactly on a violation of the preconditions. *)
Lemma Commit_MarshalText_fails_iff (c : Commit) :
  (exists e, Commit_MarshalText c = Err e) <-> user_violation c \/ signature_violation c.
Proof.
  unfold user_violation, signature_violation.
  destruct (Commit_MarshalText_cases c) as
    [(HA & ->)|[(HA & HC & ->)|[(HA & HC & Hne & Hbad & ->)|(HA & HC & lines & Hl & Hsig & ->)]]].
  - split; [auto | by eexists].
  - split; [auto | by eexists].
  - split; [auto | by eexists].
  - assert (lf_terminated_lines (GPGSignature c)) by (by exists lines).
    split; [by intros [e ?] | tauto].
Qed.

(** C8: [MarshalText] returns an error exactly when the author or the
    committer contains LF, or the signature is not empty and does not
    consist solely of LF-terminated lines.  A user violation gives an
    [InvalidUser] error; the users are checked first, so a signature
    violation gives [UnterminatedSignature] when both users are fine. *)
Theorem MarshalText_error_iff (c : Commit) :
  ((exists e, Commit_MarshalText c = Err e) <-> user_violation c \/ signature_violation c)
  /\ (user_violation c ->
      exists e, Commit_MarshalText c = Err e /\ error_has_kind e InvalidUser)
  /\ (~ user_violation c -> signature_violation c ->
      exists e, Commit_MarshalText c = Err e /\ error_has_kind e UnterminatedSignature).
Proof.
  split; [apply Commit_MarshalText_fails_iff|].
  unfold user_violation, signature_violation.
  destruct (Commit_MarshalText_cases c) as
    [(HA & ->)|[(HA & HC & ->)|[(HA & HC & Hne & Hbad & ->)|(HA & HC & lines & Hl & Hsig & ->)]]].
  - split; [|tauto]. intros _. eexists. split; [done | constructor].
  - split; [|tauto]. intros _. eexists. split; [done | constructor].
  - split; [tauto|]. intros _ _. eexists. split; [done | constructor].
  - assert (lf_terminated_lines (GPGSignature c)) by (by exists lines).
    split; tauto.
Qed.

(** The SHA-1 of a commit body framed with its object header: the bytes
    [commit], a space, the length in ASCII decimal, a NUL, the body. *)
Definition framed_SHA1 (data : bytes) : SHA1 :=
  sha1_Sum (B "commit " ++ format_int (Z.of_nat (length data)) ++ [NUL] ++ data).

Lemma Commit_SHA1_of_MarshalText (c : Commit) :
  Commit_SHA1 c
  = match Commit_MarshalText c with
    | Ok s => Returned (framed_SHA1 s)
    | Err e => Panicked e
    end.
Proof.
  unfold Commit_SHA1. destruct (Commit_MarshalText c) as [s|e]; [|done].
  unfold digest_Sum, digest_Write, sha1_New, AppendPrefix, framed_SHA1. simpl written.
  rewrite !app_nil_l. f_equal. f_equal. by rewrite <- !app_assoc.
Qed.

(** C10: [SHA1] panics, with the error of [MarshalText], on every
    commit that violates an emission precondition; on every other commit
    it returns the SHA-1 of the framed serialization. *)
Theorem SHA1_total_under_preconditions (c : Commit) :
  (user_violation c \/ signature_violation c ->
   exists e, Commit_MarshalText c = Err e /\ Commit_SHA1 c = Panicked e)
  /\ (~ (user_violation c \/ signature_violation c) ->
      exists s, Commit_MarshalText c = Ok s /\ Commit_SHA1 c = Returned (framed_SHA1 s)).
Proof.
  rewrite Commit_SHA1_of_MarshalText.
  destruct (Commit_MarshalText_fails_iff c) as [Hto Hfrom]. split.
  - intros Hbad. destruct (Hfrom Hbad) as [e ->]. by exists e.
  - intros Hok. destruct (Commit_MarshalText c) as [s|e] eqn:E.
    + by exists s.
    + destruct Hok. apply Hto. by exists e.
Qed.

Lemma length_sha1_Sum (msg : bytes) : length (sha1_Sum msg) = SHA1Size.
Proof.
  unfold sha1_Sum. destruct (fold_left _ _ _) as [[[[h0 h1] h2] h3] h4]. done.
Qed.

(** What Go's types guarantee of a commit: the object ids are 20-byte
    arrays, the seconds of a time are an [int64] and its nanoseconds are
    below a second. *)
Definition Time_typed (t : Time) : Prop :=
  ((- 2 ^ 63 <= unix_sec t) /\ (unix_sec t < 2 ^ 63))
  /\ ((0 <= nsec t) /\ (nsec t < 10 ^ 9)).

Definition Commit_typed (c : Commit) : Prop :=
  length (Tree c) = SHA1Size
  /\ Forall (fun p => length p = SHA1Size) (Parents c)
  /\ Time_typed (AuthorTime c) /\ Time_typed (CommitTime c).

(** A well-formed commit, as the round-trip law has it: no LF in the
    author and the committer, and a signature that, if not empty,
    consists only of LF-terminated lines. *)
Definition well_formed_Commit (c : Commit) : Prop :=
  ~ contains_LF (Author c) /\ ~ contains_LF (Committer c)
  /\ (GPGSignature c <> [] -> lf_terminated_lines (GPGSignature c)).

(** The round trip: the commit is emitted, its bytes parse back to it,
    and its hash is the SHA-1 of the framed bytes. *)
Definition Commit_roundtrips (c : Commit) : Prop :=
  exists data,
    Commit_MarshalText c = Ok data
    /\ ParseCommit data = (c, None)
    /\ Commit_SHA1 c = Returned (framed_SHA1 data).

(** A commit written one nanosecond after the epoch. *)
Definition commit_with_nanosecond : Commit :=
  mkCommit SHA1_zero [] "A" (mkTime 0 1 (FixedZone "+0000" 0))
           "A" (mkTime 0 0 (FixedZone "+0000" 0)) [] "".

(** C1, as stated, fails: the header keeps whole seconds only, so a
    well-formed commit whose author time has a nanosecond is parsed back
    as another commit. *)
Lemma roundtrip_fails_on_nanosecond :
  ~ (forall c, Commit_typed c -> well_formed_Commit c -> Commit_roundtrips c).
Proof.
  intros Hall.
  destruct (Hall commit_with_nanosecond) as (data & Hemit & Hparse & _).
  - split_and!; [done | done | |]; (split; split; vm_compute; congruence).
  - split_and!; [| |done]; apply bytes_IndexByte_None; reflexivity.
  - vm_compute in Hemit. injection Hemit as <-.
    vm_compute in Hparse. discriminate Hparse.
Qed.

(** The zone of a time is kept by its offset only, rendered in hours
    and minutes: a commit in the zone [UTC] comes back in the zone
    [+0000], the seconds of an offset are dropped, and an offset of a
    hundred hours is emitted in six bytes that the parser refuses. *)
Definition commit_in_zone (l : Location) : Commit :=
  mkCommit SHA1_zero [] "A" (mkTime 0 0 l) "A" (mkTime 0 0 (FixedZone "+0000" 0)) [] "".

Example named_zone_is_renamed :
  exists data c,
    Commit_MarshalText (commit_in_zone UTC) = Ok data
    /\ ParseCommit data = (c, None)
    /\ loc (AuthorTime c) = FixedZone "+0000" 0.
Proof. eexists _, _. split_and!; [vm_compute; reflexivity..| reflexivity]. Qed.

Example offset_seconds_are_dropped :
  exists data c,
    Commit_MarshalText (commit_in_zone (FixedZone "+0000" 30)) = Ok data
    /\ ParseCommit data = (c, None)
    /\ loc_offset (loc (AuthorTime c)) = 0.
Proof. eexists _, _. split_and!; [vm_compute; reflexivity..| reflexivity]. Qed.

Example wide_offset_is_refused :
  exists data,
    Commit_MarshalText (commit_in_zone (FixedZone "+10000" 360000)) = Ok data
    /\ (ParseCommit data).2
       = Some (Wrapf "parse git commit: author: %w" []
                 (Errorf "parse UTC offset %q: wrong length" [ArgBytes (B "+10000")])).
Proof. eexists. split; vm_compute; reflexivity. Qed.

(** C1, amended: a well-formed commit whose two times are whole seconds
    in a numeric zone makes the round trip, whatever the receiver of
    [UnmarshalText] held. *)
Theorem Commit_roundtrip (c : Commit) :
  Commit_typed c -> well_formed_Commit c ->
  wire_time (AuthorTime c) -> wire_time (CommitTime c) ->
  Commit_roundtrips c
  /\ forall data recv,
       Commit_MarshalText c = Ok data -> Commit_UnmarshalText recv data = (c, None).
Proof.
  intros (Htree & Hps & [Haz _] & [Hcz _]) (HA & HC & Hsig) [Han Hal] [Hcn Hcl].
  destruct (Commit_MarshalText_cases c) as
    [(HA' & _)|[(_ & HC' & _)|[(_ & _ & Hne & Hbad & _)|(_ & _ & lines & Hl & Hlines & Hemit)]]];
    [done | done | by destruct Hbad; apply Hsig |].
  assert (forall recv,
    Commit_UnmarshalText recv
      (commit_header c ++ gpgsig_header lines ++ [LF] ++ list_ascii_of_string (Message c))
    = (c, None)) as Hparse.
  { intros recv. destruct c as [tree ps au [az an al] cu [cz cn cl] sig msg].
    cbn [Tree Parents Author AuthorTime Committer CommitTime GPGSignature Message
         nsec loc unix_sec] in *.
    subst an cn sig. unfold commit_header.
    cbn [Tree Parents Author AuthorTime Committer CommitTime GPGSignature Message].
    rewrite <- !app_assoc. by apply UnmarshalText_emitted. }
  split.
  - eexists. split_and!; [exact Hemit | apply Hparse |].
    by rewrite Commit_SHA1_of_MarshalText, Hemit.
  - intros data recv Hdata. rewrite Hemit in Hdata. injection Hdata as <-. apply Hparse.
Qed.

(** The commit of scenario S6, with a two-line signature added. *)
Definition commit_S6 : Commit :=
  let t := mkTime 1578610200 0 (FixedZone "-0800" (-28800)) in
  mkCommit (replicate 20 (ascii_of_nat 170)) [replicate 20 (ascii_of_nat 187)]
           "Alice <a@e>" t "Alice <a@e>" t
           (B "line one" ++ [LF] ++ B "line two" ++ [LF])
           (String "h" (String "i" (String LF ""))).

Lemma Commit_roundtrip_witness :
  Commit_roundtrips commit_S6
  /\ forall data recv,
       Commit_MarshalText commit_S6 = Ok data ->
       Commit_UnmarshalText recv data = (commit_S6, None).
Proof.
  apply (Commit_roundtrip commit_S6).
  - split_and!; [reflexivity | repeat constructor | |];
      (split; split; vm_compute; congruence).
  - split_and!; [apply bytes_IndexByte_None; reflexivity
                | apply bytes_IndexByte_None; reflexivity |].
    intros _. exists [B "line one"; B "line two"].
    split; [|reflexivity].
    repeat constructor; apply bytes_IndexByte_None; reflexivity.
  - split; [reflexivity|]. split; [|reflexivity].
    split; [reflexivity | split; reflexivity].
  - split; [reflexivity|]. split; [|reflexivity].
    split; [reflexivity | split; reflexivity].
Defined.

(** Scenario S6: the emitted bytes of a commit without signature. *)
Example S6_emitted_bytes :
  Commit_MarshalText (set_GPGSignature commit_S6 [])
  = Ok (B "tree aaaaaaaaaaaaaaaaaaaaaaaaaaaaaaaaaaaaaaaa" ++ [LF]
          ++ B "parent bbbbbbbbbbbbbbbbbbbbbbbbbbbbbbbbbbbbbbbb" ++ [LF]
          ++ B "author Alice <a@e> 1578610200 -0800" ++ [LF]
          ++ B "committer Alice <a@e> 1578610200 -0800" ++ [LF]
          ++ [LF] ++ B "hi" ++ [LF]).
Proof. vm_compute. reflexivity. Qed.

(** ** Parse failures and the receiver *)

Lemma bytes_HasPrefix_spec (p : bytes) : forall s : bytes,
  bytes_HasPrefix s p = true <-> (length p <= length s)%nat /\ take (length p) s = p.
Proof.
  induction p as [|y p IH]; intros s; simpl.
  - split; [intros _; split; [lia | by rewrite take_0] | done].
  - destruct s as [|x s]; simpl.
    + split; [done | intros [? _]; lia].
    + rewrite andb_true_iff, Ascii.eqb_eq, IH. split.
      * intros (-> & Hlen & ->). split; [lia | done].
      * intros (Hlen & [= -> Heq]). split_and!; [done | lia | done].
Qed.

Lemma consumeString_HasPrefix (src : bytes) (s : string) :
  consumeString src s
  = if bytes_HasPrefix src (B s) then (drop (length (B s)) src, true) else (src, false).
Proof.
  unfold consumeString, B.
  destruct (bytes_HasPrefix src _) eqn:Hp.
  - apply bytes_HasPrefix_spec in Hp as [Hlen Htake].
    destruct (Nat.ltb_spec (length src) (length (list_ascii_of_string s))); [lia|].
    by rewrite Htake, bytes_Equal_refl.
  - destruct (Nat.ltb_spec (length src) (length (list_ascii_of_string s))); [done|].
    destruct (bytes_Equal _ _) eqn:Heq; [|done].
    apply bytes_Equal_spec in Heq.
    assert (bytes_HasPrefix src (list_ascii_of_string s) = true) as Hp'
      by (by apply bytes_HasPrefix_spec).
    congruence.
Qed.





(** ** Listing refs *)

Section listRefs_properties.

Variable Ref_IsValid : string -> bool.

(** Which refs a list of prefixes selects. *)
Definition selected (prefixes : list string) (r : Ref) : Prop :=
  exists prefix, prefix ∈ prefixes /\ strings_HasPrefix (Name r) prefix = true.

(** The filter loop of [listRefs] on one ref: one copy of the ref for
    each prefix that its name has. *)
Lemma listRefs_inner_loop (r : Ref) (prefixes : list string) : forall acc : list Ref,
  fold_left
    (fun refs' prefix => if strings_HasPrefix (Name r) prefix then refs' ++ [r] else refs')
    prefixes acc
  = acc ++ replicate (length (filter (fun p => strings_HasPrefix (Name r) p = true) prefixes)) r.
Proof.
  induction prefixes as [|p prefixes IH]; intros acc; simpl.
  - by rewrite app_nil_r.
  - rewrite IH. rewrite filter_cons. destruct (strings_HasPrefix (Name r) p) eqn:Hp.
    + rewrite decide_True by done. simpl. by rewrite <- app_assoc.
    + rewrite decide_False by congruence. done.
Qed.

(** The refs [listRefs] returns for a non-empty list of prefixes. *)
Definition filtered_refs (prefixes : list string) (rs : list Ref) : list Ref :=
  flat_map
    (fun r =>
       replicate (length (filter (fun p => strings_HasPrefix (Name r) p = true) prefixes)) r)
    rs.

Lemma listRefs_outer_loop (prefixes : list string) (rs : list Ref) : forall acc : list Ref,
  fold_left
    (fun refs' r =>
       fold_left
         (fun refs' prefix =>
            if strings_HasPrefix (Name r) prefix then refs' ++ [r] else refs')
         prefixes refs')
    rs acc
  = acc ++ filtered_refs prefixes rs.
Proof.
  induction rs as [|r rs IH]; intros acc; simpl.
  - by rewrite app_nil_r.
  - rewrite listRefs_inner_loop, IH. by rewrite <- app_assoc.
Qed.

(** When the advertisement has been read, [listRefs] returns all the
    refs for an empty list of prefixes and the filtered ones otherwise. *)
Lemma listRefs_drained (f : fetchV1) (prefixes : list string) :
  refsReader f = None ->
  listRefs Ref_IsValid f prefixes
  = (f, (match prefixes with [] => refs f | _ => filtered_refs prefixes (refs f) end,
         refsError f)).
Proof.
  intros Hdrained. unfold listRefs. rewrite Hdrained.
  destruct prefixes as [|p prefixes]; [done|].
  cbn [length Nat.eqb]. by rewrite listRefs_outer_loop.
Qed.

Lemma elem_of_filtered_refs (prefixes : list string) (rs : list Ref) (r : Ref) :
  r ∈ filtered_refs prefixes rs <-> r ∈ rs /\ selected prefixes r.
Proof.
  unfold filtered_refs. rewrite list_elem_of_In, in_flat_map. split.
  - intros (r' & Hin & Hrep). apply list_elem_of_In in Hin, Hrep.
    apply elem_of_replicate in Hrep as [Heq Hlen]. subst r'. split; [done|].
    destruct (filter _ prefixes) as [|p ps] eqn:Hf; [done|].
    assert (p ∈ filter (fun p => strings_HasPrefix (Name r) p = true) prefixes) as Hp
      by (rewrite Hf; left).
    apply list_elem_of_filter in Hp as [Hp Hin']. by exists p.
  - intros (Hin & p & Hp & Hpre). exists r. split; [by apply list_elem_of_In|].
    apply list_elem_of_In, elem_of_replicate. split; [done|].
    assert (p ∈ filter (fun p => strings_HasPrefix (Name r) p = true) prefixes) as Hp'
      by (by apply list_elem_of_filter).
    destruct (filter _ prefixes); [by apply elem_of_nil in Hp' | done].
Qed.

(** As sets, the refs selected by the prefixes of [P] and of [Q] are
    those selected by [P] and those selected by [Q]. *)
Lemma filtered_refs_union (P Q : list string) (rs : list Ref) (r : Ref) :
  r ∈ filtered_refs (P ++ Q) rs <-> r ∈ filtered_refs P rs \/ r ∈ filtered_refs Q rs.
Proof.
  rewrite !elem_of_filtered_refs. unfold selected. split.
  - intros (Hin & p & [Hp|Hp]%elem_of_app & Hpre); [left | right]; eauto.
  - intros [(Hin & p & Hp & Hpre)|(Hin & p & Hp & Hpre)];
      (split; [done|]; exists p; split; [apply elem_of_app; auto | done]).
Qed.

End listRefs_properties.

Definition ref_main : Ref :=
  mkRef (replicate 20 (ascii_of_nat 17)) "refs/heads/main" "".

(** C7, at a failing input: with the prefixes [refs/] and [refs/heads/]
    the ref [refs/heads/main] is returned twice, once for each prefix
    that its name has. *)
Lemma listRefs_repeats_ref :
  (listRefs (fun _ => true)
            (mkFetchV1 caps_empty (mkImpl (fun _ _ => Ok [])) None [ref_main] None)
            ["refs/"; "refs/heads/"]).2
  = ([ref_main; ref_main], None).
Proof. vm_compute. reflexivity. Qed.

(** ** Acknowledgements *)

Lemma ParseSHA1_length (s : bytes) (id : SHA1) :
  ParseSHA1 s = Ok id -> length s = 40%nat.
Proof.
  unfold ParseSHA1. destruct (Nat.eqb_spec (length s) (hex_EncodedLen SHA1Size)); [|done].
  done.
Qed.

Lemma bytes_HasPrefix_app (p rest : bytes) : bytes_HasPrefix (p ++ rest) p = true.
Proof.
  apply bytes_HasPrefix_spec. rewrite length_app. split; [lia | apply take_app_length].
Qed.

(** The line [ACK <hex-id>], without status. *)
Definition statusless_ack (line : bytes) : Prop :=
  exists hexid id, ParseSHA1 hexid = Ok id /\ line = B ackPrefix ++ hexid.

(** An acknowledgement line with the status that the loop accepts and
    goes on after. *)
Definition accepted_continue_ack (line : bytes) : Prop :=
  exists hexid id, ParseSHA1 hexid = Ok id /\ line = B ackPrefix ++ hexid ++ B "continue".

(** A data frame whose text satisfies [P]. *)
Definition frame_line (P : bytes -> Prop) (p : packet) : Prop :=
  exists payload, p = PktData payload /\ P (trimLF payload).

(** A terminal acknowledgement was seen in the acknowledgement section:
    a statusless ACK line comes after accepted ACK lines only. *)
Definition terminal_ack_seen (frames : list packet) : Prop :=
  exists pre p post,
    frames = pre ++ p :: post
    /\ Forall (frame_line accepted_continue_ack) pre
    /\ frame_line statusless_ack p.

(** What one acknowledgement line makes the loop do. *)
Inductive ack_step : Type :=
  | StepFound (id : SHA1)
  | StepContinue (id : SHA1)
  | StepNak
  | StepError (e : error).

Definition classify_ack (line : bytes) : ack_step :=
  if bytes_HasPrefix line (B ackPrefix) then
    let line := drop (String.length ackPrefix) line in
    let idEnd := hex_EncodedLen SHA1Size in
    if (length line <? idEnd)%nat then
      StepError (Errorf "parse response: acknowledgements: ack too short" [])
    else
      match ParseSHA1 (take idEnd line) with
      | Err err => StepError (Wrapf "parse response: acknowledgements: %w" [] err)
      | Ok id =>
          let status := drop idEnd line in
          if (length status =? 0)%nat then StepFound id
          else if bytes_Equal status (B "continue") then StepContinue id
          else StepError (Errorf "parse response: acknowledgements: unknown status %q"
                                 [ArgBytes status])
      end
  else if bytes_Equal line (B nak) then StepNak
  else StepError (Errorf "parse response: acknowledgements: unrecognized directive %q"
                         [ArgBytes line]).

(** One iteration of [ackLoop], by the kind of the line read. *)
Lemma negotiate_ackLoop_step (fuel : nat) (r : Reader) (acks : gmap SHA1 bool) :
  reader_err r = None ->
  negotiate_ackLoop (S fuel) r acks
  = match pending r with
    | [] => (mkReader [] None None (stream_err r), Ok (acks, false))
    | p :: ps =>
        let r' := mkReader ps (stream_err r) (Some p) None in
        match p with
        | PktData payload =>
            match classify_ack (trimLF payload) with
            | StepFound id => (r', Ok (<[id := true]> acks, true))
            | StepContinue id => negotiate_ackLoop fuel r' (<[id := true]> acks)
            | StepNak => (r', Ok (acks, false))
            | StepError e => (r', Err e)
            end
        | _ => (r', Err (Wrapf "parse response: %w" [] (Errorf "unexpected packet" [])))
        end
    end.
Proof.
  intros Herr. cbn [negotiate_ackLoop]. unfold Reader_Next. rewrite Herr.
  destruct (pending r) as [|p ps]; [done|]. cbn [negb].
  unfold Reader_Text. cbn [reader_err current].
  destruct p as [payload| | |]; try done.
  unfold classify_ack. repeat case_match; done.
Qed.

Lemma classify_ack_found (line : bytes) (id : SHA1) :
  classify_ack line = StepFound id -> statusless_ack line /\ ~ accepted_continue_ack line.
Proof.
  unfold classify_ack. destruct (bytes_HasPrefix line (B ackPrefix)) eqn:Hp;
    [|case_match; done].
  apply bytes_HasPrefix_spec in Hp as [Hlen Htake].
  cbv zeta. repeat case_match; try done. intros _.
  match goal with H : (length _ =? 0)%nat = true |- _ => apply Nat.eqb_eq in H; rename H into Hst end.
  match goal with H : ParseSHA1 _ = Ok _ |- _ => rename H into Hid end.
  rewrite length_drop in Hst.
  assert (line = B ackPrefix ++ drop (String.length ackPrefix) line) as Hline.
  { rewrite <- Htake at 1. change (String.length ackPrefix) with (length (B ackPrefix)).
    by rewrite take_drop. }
  rewrite take_ge in Hid by lia.
  set (body := drop (String.length ackPrefix) line) in *.
  split.
  - eexists _, _. split; [exact Hid | exact Hline].
  - intros (hexid & id' & Hid' & Hline').
    rewrite Hline' in Hline. apply app_inv_head in Hline.
    apply ParseSHA1_length in Hid, Hid'.
    rewrite <- Hline, length_app, Hid' in Hid. simpl in Hid. lia.
Qed.

Lemma classify_ack_continue (line : bytes) (id : SHA1) :
  classify_ack line = StepContinue id -> accepted_continue_ack line /\ ~ statusless_ack line.
Proof.
  unfold classify_ack. destruct (bytes_HasPrefix line (B ackPrefix)) eqn:Hp;
    [|case_match; done].
  apply bytes_HasPrefix_spec in Hp as [Hlen Htake].
  cbv zeta. repeat case_match; try done. intros _.
  match goal with H : bytes_Equal _ _ = true |- _ => apply bytes_Equal_spec in H; rename H into Hst end.
  match goal with H : ParseSHA1 _ = Ok _ |- _ => rename H into Hid end.
  assert (line = B ackPrefix ++ drop (String.length ackPrefix) line) as Hline.
  { rewrite <- Htake at 1. change (String.length ackPrefix) with (length (B ackPrefix)).
    by rewrite take_drop. }
  set (body := drop (String.length ackPrefix) line) in *.
  assert (body = take (hex_EncodedLen SHA1Size) body ++ B "continue") as Hbody
    by (rewrite <- Hst; by rewrite take_drop).
  split.
  - eexists _, _. split; [exact Hid|]. by rewrite <- Hbody.
  - intros (hexid & id' & Hid' & Hline').
    rewrite Hline' in Hline. apply app_inv_head in Hline.
    apply ParseSHA1_length in Hid, Hid'.
    pose proof (f_equal length Hbody) as Hl.
    rewrite length_app, Hid, <- Hline, Hid' in Hl. simpl in Hl. lia.
Qed.

Lemma classify_ack_other (line : bytes) :
  (classify_ack line = StepNak \/ exists e, classify_ack line = StepError e) ->
  ~ statusless_ack line /\ ~ accepted_continue_ack line.
Proof.
  intros Hother.
  assert (forall hexid id rest, ParseSHA1 hexid = Ok id ->
          line = B ackPrefix ++ hexid ++ rest -> (rest = [] \/ rest = B "continue") -> False)
    as Hno.
  { intros hexid id rest Hid -> Hrest. revert Hother. unfold classify_ack.
    rewrite bytes_HasPrefix_app. cbv zeta.
    change (String.length ackPrefix) with (length (B ackPrefix)).
    rewrite drop_app_length. pose proof (ParseSHA1_length _ _ Hid) as Hlen.
    rewrite length_app, Hlen.
    change (hex_EncodedLen SHA1Size) with 40%nat.
    destruct (Nat.ltb_spec (40 + length rest) 40); [lia|].
    rewrite take_app_length' by done. rewrite Hid.
    rewrite drop_app_length' by done.
    destruct Hrest as [-> | ->]; simpl; intros [?|[? ?]]; done. }
  split.
  - intros (hexid & id & Hid & Hline). apply (Hno hexid id []); [done | | by left].
    by rewrite app_nil_r.
  - intros (hexid & id & Hid & Hline). apply (Hno hexid id (B "continue")); [done..| by right].
Qed.

Lemma terminal_ack_seen_nil : ~ terminal_ack_seen [].
Proof. intros (pre & p & post & Heq & _). by destruct pre. Qed.

Lemma terminal_ack_seen_cons (p : packet) (ps : list packet) :
  terminal_ack_seen (p :: ps)
  <-> frame_line statusless_ack p
      \/ (frame_line accepted_continue_ack p /\ terminal_ack_seen ps).
Proof.
  split.
  - intros ([|q pre] & p0 & post & Heq & Hpre & Hp0); simpl in Heq.
    + injection Heq as -> ->. by left.
    + injection Heq as -> ->. inversion_clear Hpre as [|? ? Hq Hpre'].
      right. split; [done|]. by exists pre, p0, post.
  - intros [Hp|(Hp & pre & p0 & post & -> & Hpre & Hp0)].
    + by exists [], p, ps.
    + exists (p :: pre), p0, post. split_and!; [done | by constructor | done].
Qed.

(** On a normal exit of [ackLoop], [foundCommonBase] tells whether a
    terminal acknowledgement was seen. *)
Lemma negotiate_ackLoop_found (fuel : nat) :
  forall (r r' : Reader) (acks acks' : gmap SHA1 bool) (found : bool),
  reader_err r = None -> (length (pending r) < fuel)%nat ->
  negotiate_ackLoop fuel r acks = (r', Ok (acks', found)) ->
  (found = true <-> terminal_ack_seen (pending r)).
Proof.
  induction fuel as [|fuel IH]; intros r r' acks acks' found Herr Hfuel; [lia|].
  rewrite negotiate_ackLoop_step by done.
  destruct (pending r) as [|p ps] eqn:Hpending.
  - intros [= _ _ <-]. split; [done | by intros ?%terminal_ack_seen_nil].
  - cbv zeta. rewrite terminal_ack_seen_cons.
    destruct p as [payload| | |]; try done.
    destruct (classify_ack (trimLF payload)) as [id|id| |e] eqn:Hstep; [| | |done].
    + intros [= _ _ <-]. apply classify_ack_found in Hstep as [Hst _].
      split; [|done]. intros _. left. by exists payload.
    + intros Hloop. apply IH in Hloop; [|done|simpl in *; lia]. simpl in Hloop.
      apply classify_ack_continue in Hstep as [Hcont Hnot]. rewrite Hloop. split.
      * intros Hseen. right. split; [by exists payload | done].
      * intros [(payload' & [= <-] & Hst)|[_ Hseen]]; [done | done].
    + intros [= _ _ <-].
      destruct (classify_ack_other (trimLF payload)) as [Hnot1 Hnot2]; [by left|].
      split; [done|].
      intros [(payload' & [= <-] & Hst)|[(payload' & [= <-] & Hc) _]]; done.
Qed.

Lemma NewReader_err (body : bytes) : reader_err (NewReader body) = None.
Proof. unfold NewReader. by destruct (pktline_decode _ _). Qed.

(** The frames of a response body. *)
Definition response_frames (body : bytes) : list packet := pending (NewReader body).

(** C3: when [negotiate] succeeds, one request was posted, and the
    response has a packfile exactly when a terminal acknowledgement was
    seen in the body that came back or the request had [HaveMore]
    false; otherwise it carries the acknowledgements only. *)
Theorem packfile_iff_terminal_ack_or_done (f : fetchV1) (errPrefix : string)
    (req : FetchRequest) (resp : FetchResponse) :
  (negotiate f errPrefix req).2 = Returned (Ok resp) ->
  exists commandBuf body,
    (negotiate f errPrefix req).1 = [(v1ExtraParams, commandBuf)]
    /\ uploadPack (fetch_impl f) v1ExtraParams commandBuf = Ok body
    /\ (is_Some (Packfile resp)
        <-> terminal_ack_seen (response_frames body) \/ HaveMore req = false).
Proof.
  unfold negotiate.
  destruct (negotiate_useCaps f req) as [useCaps|e]; [|done].
  destruct (negotiate_commandBuf req useCaps) as [commandBuf|e]; [|done].
  destruct (uploadPack (fetch_impl f) v1ExtraParams commandBuf) as [body|e] eqn:Hpost;
    [|done].
  destruct (negotiate_ackLoop _ _ _) as [r' [[acks found]|e]] eqn:Hloop; [|done].
  destruct (Reader_Err r'); [done|].
  apply negotiate_ackLoop_found in Hloop; [|apply NewReader_err|lia].
  cbn [snd fst]. intros [= <-]. exists commandBuf, body. split_and!; [done..|].
  fold (response_frames body) in Hloop. rewrite <- Hloop.
  destruct found, (HaveMore req); simpl; split; intros H;
    try (by eexists); try (by left); try (by right).
  by destruct H as [?|?].
Qed.

(** *** Scenarios *)

Definition X_id : SHA1 := replicate 20 (ascii_of_nat 17).
Definition Y_id : SHA1 := replicate 20 (ascii_of_nat 34).

(** A data frame: the total length in four hexadecimal digits, then the
    payload. *)
Definition data_frame (payload : bytes) : bytes :=
  hex4 (Z.of_nat (length payload) + 4) ++ payload.

Definition flush_frame : bytes := B "0000".

Definition server_caps : capabilityList :=
  caps_set (caps_set (caps_set caps_empty "multi_ack" "") "side-band-64k" "") "ofs-delta" "".

(** A fetch stream on a server that answers every request with [body]. *)
Definition stub_fetch (server : capabilityList) (body : bytes) : fetchV1 :=
  mkFetchV1 server (mkImpl (fun _ _ => Ok body)) None [] None.

(** A terminal acknowledgement of [X_id], then the first frame of the
    pack on side-band channel 1. *)
Definition body_terminal_ack : bytes :=
  data_frame (B "ACK " ++ SHA1_String X_id ++ [LF])
    ++ data_frame (ascii_of_nat 1 :: B "PACK").

Definition request_more : FetchRequest := mkFetchRequest [X_id] [Y_id] true None.

Definition response_terminal_ack : FetchResponse :=
  Eval vm_compute in
    match (negotiate (stub_fetch server_caps body_terminal_ack) "fetch" request_more).2 with
    | Returned (Ok resp) => resp
    | _ => mkFetchResponse ∅ None
    end.

Lemma packfile_iff_terminal_ack_or_done_witness :
  exists commandBuf body,
    (negotiate (stub_fetch server_caps body_terminal_ack) "fetch" request_more).1
    = [(v1ExtraParams, commandBuf)]
    /\ uploadPack (fetch_impl (stub_fetch server_caps body_terminal_ack))
                  v1ExtraParams commandBuf = Ok body
    /\ (is_Some (Packfile response_terminal_ack)
        <-> terminal_ack_seen (response_frames body) \/ HaveMore request_more = false).
Proof.
  apply (packfile_iff_terminal_ack_or_done
           (stub_fetch server_caps body_terminal_ack) "fetch" request_more
           response_terminal_ack).
  vm_compute. reflexivity.
Defined.

Example response_terminal_ack_has_packfile :
  is_Some (Packfile response_terminal_ack)
  /\ Acks response_terminal_ack = <[X_id := true]> ∅.
Proof. split; [by eexists | vm_compute; reflexivity]. Qed.

(** The body of scenario S3: [ACK Y continue], then [NAK]. *)
Definition body_S3 : bytes :=
  data_frame (B "ACK " ++ SHA1_String Y_id ++ B " continue" ++ [LF])
    ++ data_frame (B "NAK" ++ [LF]).

(** C2, at the failing input of scenario S3: the status of the line
    [ACK Y continue] is read from the end of the id on, space included,
    and is compared with [continue]; the line is refused. *)
Lemma negotiate_S3_refused :
  (negotiate (stub_fetch server_caps body_S3) "fetch" request_more).2
  = Returned (Err (Errorf "parse response: acknowledgements: unknown status %q"
                          [ArgBytes (B " continue")])).
Proof. vm_compute. reflexivity. Qed.

(** Every acknowledgement line [ACK <hex-id> continue] is refused so,
    whatever follows it. *)
Lemma negotiate_ackLoop_spaced_continue (fuel : nat) (r : Reader) (acks : gmap SHA1 bool)
    (payload : bytes) (ps : list packet) (id : SHA1) :
  reader_err r = None -> pending r = PktData payload :: ps ->
  length id = SHA1Size ->
  trimLF payload = B ackPrefix ++ SHA1_String id ++ B " continue" ->
  (negotiate_ackLoop (S fuel) r acks).2
  = Err (Errorf "parse response: acknowledgements: unknown status %q"
                [ArgBytes (B " continue")]).
Proof.
  intros Herr Hpending Hid Hline.
  rewrite negotiate_ackLoop_step, Hpending by done. cbv zeta.
  assert (classify_ack (trimLF payload)
          = StepError (Errorf "parse response: acknowledgements: unknown status %q"
                              [ArgBytes (B " continue")])) as ->; [|done].
  rewrite Hline. unfold classify_ack. rewrite bytes_HasPrefix_app. cbv zeta.
  change (String.length ackPrefix) with (length (B ackPrefix)).
  rewrite drop_app_length.
  assert (length (SHA1_String id) = 40%nat) as Hlen
    by (unfold SHA1_String; rewrite length_hex_Encode, Hid; done).
  rewrite length_app, Hlen. change (hex_EncodedLen SHA1Size) with 40%nat.
  destruct (Nat.ltb_spec (40 + length (B " continue")) 40); [lia|].
  rewrite take_app_length', ParseSHA1_String by done.
  by rewrite drop_app_length'.
Qed.

(** The status that the loop accepts is [continue] right after the id. *)
Example negotiate_accepts_unspaced_continue :
  exists resp,
    (negotiate
       (stub_fetch server_caps
          (data_frame (B "ACK " ++ SHA1_String Y_id ++ B "continue" ++ [LF])
             ++ data_frame (B "NAK" ++ [LF])))
       "fetch" request_more).2
    = Returned (Ok resp)
    /\ Acks resp = <[Y_id := true]> ∅ /\ Packfile resp = None.
Proof.
  eexists. split; [vm_compute; reflexivity|].
  split; [vm_compute; reflexivity | reflexivity].
Qed.

(** ** Capability selection *)

(** The server offers a capability. *)
Definition offers (server : capabilityList) (k : string) : Prop :=
  k ∈ dom (caps_map server).

Lemma caps_supports_offers (server : capabilityList) (k : string) :
  caps_supports server k = true <-> offers server k.
Proof.
  unfold caps_supports, offers. rewrite bool_decide_eq_true. by rewrite elem_of_dom.
Qed.

Lemma caps_supports_not_offers (server : capabilityList) (k : string) :
  caps_supports server k = false <-> ~ offers server k.
Proof. rewrite <- caps_supports_offers. by destruct (caps_supports server k). Qed.

Lemma dom_caps_intersect (c other : capabilityList) :
  dom (caps_map (caps_intersect c other)) = dom (caps_map c) ∩ dom (caps_map other).
Proof.
  unfold caps_intersect. simpl. apply set_eq. intros k.
  rewrite elem_of_intersection, !elem_of_dom. unfold is_Some.
  setoid_rewrite map_lookup_filter_Some. simpl. naive_solver.
Qed.

Lemma dom_caps_set (c : capabilityList) (k v : string) :
  dom (caps_map (caps_set c k v)) = {[k]} ∪ dom (caps_map c).
Proof. unfold caps_set. simpl. apply dom_insert_L. Qed.

(** The capabilities the client asks for before looking at the server:
    [multi_ack] and [ofs-delta], and [no-progress] when no progress sink
    is attached. *)
Definition wished_caps (req : FetchRequest) : gset string :=
  {[multiAckCap; ofsDeltaCap]}
    ∪ match Progress req with None => {[noProgressCap]} | Some _ => ∅ end.

(** The side-band capability to select: [side-band-64k] when offered. *)
Definition side_band_choice (server : capabilityList) : string :=
  if caps_supports server sideBand64KCap then sideBand64KCap else sideBandCap.

(** C4: a server that offers neither side-band capability makes
    [negotiate] fail without any request to the transport; otherwise
    the selected capabilities are the wished ones that the server
    offers, with one side-band capability: [side-band-64k] when the
    server offers it, [side-band] when it does not. *)
Theorem capability_selection (f : fetchV1) (errPrefix : string) (req : FetchRequest) :
  (~ offers (caps f) sideBand64KCap /\ ~ offers (caps f) sideBandCap ->
   negotiate f errPrefix req
   = ([], Returned (Err (Errorf "remote does not support side-band" []))))
  /\ (offers (caps f) sideBand64KCap \/ offers (caps f) sideBandCap ->
      exists useCaps,
        negotiate_useCaps f req = Ok useCaps
        /\ dom (caps_map useCaps)
           = (wished_caps req ∩ dom (caps_map (caps f))) ∪ {[side_band_choice (caps f)]}
        /\ (sideBand64KCap ∈ dom (caps_map useCaps) <-> offers (caps f) sideBand64KCap)
        /\ (sideBandCap ∈ dom (caps_map useCaps)
            <-> ~ offers (caps f) sideBand64KCap /\ offers (caps f) sideBandCap)).
Proof.
  split.
  - intros [H64%caps_supports_not_offers Hsb%caps_supports_not_offers].
    unfold negotiate, negotiate_useCaps. by rewrite H64, Hsb.
  - intros Hsome.
    assert (forall base, dom (caps_map base) = wished_caps req ->
      exists useCaps,
        (if caps_supports (caps f) sideBand64KCap
         then Ok (caps_set (caps_intersect base (caps f)) sideBand64KCap "")
         else if caps_supports (caps f) sideBandCap
              then Ok (caps_set (caps_intersect base (caps f)) sideBandCap "")
              else Err (Errorf "remote does not support side-band" [])) = Ok useCaps
        /\ dom (caps_map useCaps)
           = (wished_caps req ∩ dom (caps_map (caps f))) ∪ {[side_band_choice (caps f)]}
        /\ (sideBand64KCap ∈ dom (caps_map useCaps) <-> offers (caps f) sideBand64KCap)
        /\ (sideBandCap ∈ dom (caps_map useCaps)
            <-> ~ offers (caps f) sideBand64KCap /\ offers (caps f) sideBandCap)) as Hgen.
    { intros base Hbase. unfold side_band_choice.
      assert ((sideBand64KCap ∉ wished_caps req) /\ (sideBandCap ∉ wished_caps req))
        as [Hw64 Hwsb].
      { unfold wished_caps. destruct (Progress req); set_solver. }
      destruct (caps_supports (caps f) sideBand64KCap) eqn:H64.
      - apply caps_supports_offers in H64. eexists. split; [done|].
        rewrite dom_caps_set, dom_caps_intersect, Hbase. split_and!.
        + set_solver.
        + set_solver.
        + assert (sideBandCap <> sideBand64KCap) by done. set_solver.
      - apply caps_supports_not_offers in H64.
        destruct Hsome as [?|Hsb]; [done|].
        pose proof Hsb as Hsb'. apply caps_supports_offers in Hsb' as ->.
        eexists. split; [done|].
        rewrite dom_caps_set, dom_caps_intersect, Hbase. split_and!.
        + set_solver.
        + assert (sideBand64KCap <> sideBandCap) by done. set_solver.
        + set_solver. }
    unfold negotiate_useCaps. apply Hgen. unfold wished_caps.
    destruct (Progress req); rewrite !dom_caps_set; simpl; rewrite dom_empty_L; set_solver.
Qed.

(** ** The request buffer *)

Lemma AppendString_data_frame (dst line : bytes) :
  Z.of_nat (length line) <= MaxSize ->
  AppendString dst line = Returned (dst ++ data_frame line).
Proof.
  intros Hlen. unfold AppendString, data_frame.
  destruct (Z.ltb_spec MaxSize (Z.of_nat (length line))); [lia | done].
Qed.

Lemma outcome_foldl_AppendString {X : Type} (line : X -> bytes) (l : list X) :
  forall buf : bytes,
  Forall (fun x => Z.of_nat (length (line x)) <= MaxSize) l ->
  outcome_foldl (fun buf x => AppendString buf (line x)) buf l
  = Returned (buf ++ flat_map (fun x => data_frame (line x)) l).
Proof.
  induction l as [|x l IH]; intros buf Hl; simpl.
  - by rewrite app_nil_r.
  - inversion_clear Hl as [|? ? Hx Hl']. rewrite AppendString_data_frame by done.
    simpl. rewrite IH by done. by rewrite <- app_assoc.
Qed.

Lemma length_join_SP (tokens : list bytes) :
  (length (join_SP tokens) <= sum_list_with (fun t => S (length t)) tokens)%nat.
Proof.
  induction tokens as [|t [|t' tokens] IH]; simpl in *; [lia | lia |].
  rewrite length_app. simpl. lia.
Qed.

Lemma sum_list_with_submseteq {A} (g : A -> nat) (l1 l2 : list A) :
  l1 ⊆+ l2 -> (sum_list_with g l1 <= sum_list_with g l2)%nat.
Proof. induction 1; simpl; lia. Qed.

(** All the capabilities that [negotiate] may select. *)
Definition selectable_caps : gmap string string :=
  <[sideBandCap := ""%string]>
    (<[sideBand64KCap := ""%string]>
       (<[noProgressCap := ""%string]>
          (<[ofsDeltaCap := ""%string]> (<[multiAckCap := ""%string]> ∅)))).

Lemma negotiate_useCaps_selectable (f : fetchV1) (req : FetchRequest)
    (useCaps : capabilityList) :
  negotiate_useCaps f req = Ok useCaps -> caps_map useCaps ⊆ selectable_caps.
Proof.
  unfold negotiate_useCaps.
  set (base := match Progress req with
               | None => caps_set _ _ _
               | Some _ => _
               end).
  assert (caps_map base ⊆ selectable_caps) as Hbase.
  { unfold base, selectable_caps. destruct (Progress req); simpl.
    - do 3 (etrans; [|apply insert_subseteq; by vm_compute]). done.
    - do 2 (etrans; [|apply insert_subseteq; by vm_compute]). done. }
  assert (caps_map (caps_intersect base (caps f)) ⊆ selectable_caps) as Hint.
  { etrans; [|exact Hbase]. apply map_filter_subseteq. }
  destruct (caps_supports (caps f) sideBand64KCap).
  - intros [= <-]. simpl. by apply insert_subseteq_l.
  - destruct (caps_supports (caps f) sideBandCap); [|done].
    intros [= <-]. simpl. by apply insert_subseteq_l.
Qed.

Lemma length_caps_String (f : fetchV1) (req : FetchRequest) (useCaps : capabilityList) :
  negotiate_useCaps f req = Ok useCaps -> (length (caps_String useCaps) <= 56)%nat.
Proof.
  intros Hsel%negotiate_useCaps_selectable. unfold caps_String.
  etrans; [apply length_join_SP|].
  assert (forall l : list (string * string),
            sum_list_with (fun t => S (length t)) (cap_token <$> l)
            = sum_list_with (fun kv => S (length (cap_token kv))) l) as ->
    by (induction l as [|kv l IHl]; simpl; [done | do 2 f_equal; apply IHl]).
  etrans; [apply sum_list_with_submseteq, map_to_list_submseteq, Hsel|].
  by vm_compute.
Qed.

Lemma length_SHA1_String (id : SHA1) :
  length id = SHA1Size -> length (SHA1_String id) = 40%nat.
Proof. intros Hid. unfold SHA1_String. by rewrite length_hex_Encode, Hid. Qed.

(** The pkt-lines of a request, in order. *)
Definition request_frames (req : FetchRequest) (want0 : SHA1) (wants : list SHA1)
    (useCaps : capabilityList) : bytes :=
  data_frame (B "want " ++ SHA1_String want0 ++ [SP] ++ caps_String useCaps ++ [LF])
    ++ flat_map (fun want => data_frame (B "want " ++ SHA1_String want ++ [LF])) wants
    ++ flush_frame
    ++ flat_map (fun have => data_frame (B "have " ++ SHA1_String have ++ [LF])) (Have req)
    ++ (if HaveMore req then flush_frame else data_frame (B "done")).

(** C5: for a request with a first wanted id, on a server with a
    side-band capability, [negotiate] posts one buffer, with the
    parameter [version=1]: the first want with the selected
    capabilities, the other wants, a flush, the haves, and [done] when
    [HaveMore] is false or a flush when it is true. *)
Theorem request_buffer (f : fetchV1) (errPrefix : string) (req : FetchRequest)
    (want0 : SHA1) (wants : list SHA1) (useCaps : capabilityList) :
  Want req = want0 :: wants ->
  Forall (fun id => length id = SHA1Size) (Want req) ->
  Forall (fun id => length id = SHA1Size) (Have req) ->
  negotiate_useCaps f req = Ok useCaps ->
  (negotiate f errPrefix req).1
  = [("version=1"%string, request_frames req want0 wants useCaps)].
Proof.
  intros Hwant Hwants Hhaves Hcaps.
  assert (negotiate_commandBuf req useCaps
          = Returned (request_frames req want0 wants useCaps)) as Hbuf.
  { unfold negotiate_commandBuf. rewrite Hwant in Hwants |- *.
    inversion_clear Hwants as [|? ? Hw0 Hws].
    pose proof (length_caps_String f req useCaps Hcaps) as Hlen.
    rewrite AppendString_data_frame.
    2:{ rewrite !length_app, length_SHA1_String by done. unfold MaxSize. simpl. lia. }
    cbn [mbind outcome_bind].
    rewrite (outcome_foldl_AppendString (fun want => B "want " ++ SHA1_String want ++ [LF])).
    2:{ eapply Forall_impl; [exact Hws|]. intros id Hid. cbv beta.
        rewrite !length_app, length_SHA1_String by done. unfold MaxSize. simpl. lia. }
    cbn [mbind outcome_bind]. unfold AppendFlush.
    rewrite (outcome_foldl_AppendString (fun have => B "have " ++ SHA1_String have ++ [LF])).
    2:{ eapply Forall_impl; [exact Hhaves|]. intros id Hid. cbv beta.
        rewrite !length_app, length_SHA1_String by done. unfold MaxSize. simpl. lia. }
    cbn [mbind outcome_bind]. unfold request_frames, flush_frame.
    destruct (HaveMore req); cbn [negb].
    - by rewrite <- !app_assoc.
    - rewrite AppendString_data_frame by done. by rewrite <- !app_assoc. }
  unfold negotiate. rewrite Hcaps, Hbuf.
  destruct (uploadPack _ _ _) as [body|e]; [|done].
  destruct (negotiate_ackLoop _ _ _) as [r' [[acks found]|e]]; [|done].
  by destruct (Reader_Err r').
Qed.

Definition request_two : FetchRequest := mkFetchRequest [X_id; Y_id] [Y_id] false None.

Definition selected_caps_two : capabilityList :=
  caps_set (caps_set (caps_set caps_empty "multi_ack" "") "side-band-64k" "") "ofs-delta" "".

Lemma request_buffer_witness :
  (negotiate (stub_fetch server_caps body_terminal_ack) "fetch" request_two).1
  = [("version=1"%string, request_frames request_two X_id [Y_id] selected_caps_two)].
Proof.
  apply (request_buffer (stub_fetch server_caps body_terminal_ack) "fetch" request_two
                        X_id [Y_id] selected_caps_two).
  - reflexivity.
  - repeat constructor.
  - repeat constructor.
  - vm_compute. reflexivity.
Defined.

(** The bytes of that buffer. *)
Example request_buffer_bytes :
  request_frames request_two X_id [Y_id] selected_caps_two
  = B "0054want 1111111111111111111111111111111111111111 ofs-delta side-band-64k multi_ack"
      ++ [LF] ++ B "0032want 2222222222222222222222222222222222222222" ++ [LF]
      ++ B "0000"
      ++ B "0032have 2222222222222222222222222222222222222222" ++ [LF]
      ++ B "0008done".
Proof. vm_compute. reflexivity. Qed.

(** ** The advertisement of no refs *)

(** *** The fields of the capability text *)

Lemma utf8_DecodeRune_size (p : bytes) :
  p <> [] -> (1 <= (utf8_DecodeRune p).2 <= 4)%nat.
Proof.
  intros Hp. unfold utf8_DecodeRune.
  destruct p as [|c p]; [done|]. cbn [length Nat.ltb Nat.leb].
  repeat case_match; cbn [snd]; lia.
Qed.

(** The loop of [bytes.FieldsFunc] ends before its fuel does. *)
Lemma bytes_FieldsFunc_loop_fuel (f : Z -> bool) (s : bytes) :
  forall (fuel fuel' i : nat) (start : option nat),
    (length s - i < fuel)%nat -> (length s - i < fuel')%nat ->
    bytes_FieldsFunc_loop fuel f s i start = bytes_FieldsFunc_loop fuel' f s i start.
Proof.
  induction fuel as [|fuel IH]; intros fuel' i start Hfuel Hfuel'; [lia|].
  destruct fuel' as [|fuel']; [lia|]. cbn [bytes_FieldsFunc_loop].
  destruct (Nat.ltb_spec i (length s)) as [Hi|Hi]; [|done].
  assert (forall size start', (1 <= size)%nat ->
            bytes_FieldsFunc_loop fuel f s (i + size) start'
            = bytes_FieldsFunc_loop fuel' f s (i + size) start') as Hnext
    by (intros; apply IH; lia).
  destruct (utf8_RuneSelf <=? byte_at s i).
  - pose proof (utf8_DecodeRune_size (drop i s)) as Hsize.
    destruct (utf8_DecodeRune (drop i s)) as [r size]. cbn [snd] in Hsize.
    assert (1 <= size)%nat as Hone.
    { apply Hsize. intros Hnil. apply (f_equal length) in Hnil.
      rewrite length_drop in Hnil. simpl in Hnil. lia. }
    destruct (f r); [destruct start|]; by rewrite Hnext.
  - destruct (f (byte_at s i)); [destruct start|]; by rewrite Hnext.
Qed.

(** A no-break space (U+00A0, the bytes [C2 A0]) separates two fields,
    as every white space of Unicode does once a byte of the text is not
    ASCII. *)
Example bytes_Fields_no_break_space :
  bytes_Fields (B "a=" ++ [byte_of 194; byte_of 160] ++ B "=") = [B "a="; B "="].
Proof. vm_compute. reflexivity. Qed.

(** A first line that names the literal [capabilities^{}]: the id, a
    space, the name, a NUL and the capability tokens. *)
Definition no_refs_line (hexid capstext : bytes) : bytes :=
  hexid ++ B " capabilities^{}" ++ NUL :: capstext.

Section no_refs.

Variable Ref_IsValid : string -> bool.

Lemma parseFirstRefV1_no_refs (hexid capstext : bytes) :
  SP ∉ hexid -> NUL ∉ hexid ->
  parseFirstRefV1 Ref_IsValid (no_refs_line hexid capstext)
  = match ParseSHA1 hexid with
    | Err err => (None, caps_empty, Some (Wrapf "first ref: %w" [] err))
    | Ok id =>
        match parseFirstRefV1_caps caps_empty (bytes_Fields capstext) with
        | Err err => (None, caps_empty, Some err)
        | Ok caps =>
            if bool_decide (id = SHA1_zero) then (None, caps, None)
            else (None, caps_empty,
                  Some (Errorf "first ref: non-zero ID passed with no-refs response" []))
        end
    end.
Proof.
  intros HSP HNUL. unfold parseFirstRefV1, no_refs_line.
  set (name := B "capabilities^{}").
  assert (hexid ++ B " capabilities^{}" ++ NUL :: capstext
          = (hexid ++ SP :: name) ++ NUL :: capstext) as -> by (by rewrite <- app_assoc).
  assert (NUL ∉ hexid ++ SP :: name) as Hnul.
  { rewrite not_elem_of_app. split; [done|].
    apply bytes_IndexByte_None. reflexivity. }
  rewrite bytes_IndexByte_app by done.
  rewrite take_app_length, drop_S_app_cons.
  rewrite bytes_IndexByte_app by done.
  rewrite drop_S_app_cons, <- (app_assoc hexid), take_app_length.
  destruct (ParseSHA1 hexid) as [id|err]; [|done].
  destruct (parseFirstRefV1_caps _ _) as [caps|err]; [|done].
  change (string_of_list_ascii name) with "capabilities^{}"%string.
  rewrite bool_decide_eq_true_2 by done.
  by destruct (bool_decide (id = SHA1_zero)).
Qed.

Lemma no_refs_line_not_version (hexid capstext : bytes) :
  bytes_Equal (no_refs_line hexid capstext) (B "version 1") = false.
Proof.
  destruct (bytes_Equal _ _) eqn:Heq; [|done].
  apply bytes_Equal_spec in Heq.
  assert (NUL ∈ B "version 1") as Hin.
  { rewrite <- Heq. unfold no_refs_line. rewrite !elem_of_app, elem_of_cons. auto. }
  apply bytes_IndexByte_None in Hin; [done | reflexivity].
Qed.

(** The data frame that carries the first ref line of an advertisement
    and the frames after it, for a reader advanced to the first frame:
    an initial [version 1] packet is optional and is passed over. *)
Definition first_ref_frame (r : Reader) : option (bytes * list packet) :=
  match reader_err r, current r with
  | None, Some (PktData v) =>
      if bytes_Equal (trimLF v) (B "version 1") then
        match pending r with
        | PktData payload :: after => Some (payload, after)
        | _ => None
        end
      else Some (v, pending r)
  | _, _ => None
  end.

(** What [readFirstRefV1] does on such a line. *)
Lemma readFirstRefV1_no_refs (r : Reader) (payload : bytes) (after : list packet)
    (hexid capstext : bytes) :
  SP ∉ hexid -> NUL ∉ hexid ->
  first_ref_frame r = Some (payload, after) ->
  trimLF payload = no_refs_line hexid capstext ->
  (readFirstRefV1 Ref_IsValid r).2
  = match ParseSHA1 hexid with
    | Err err =>
        (None, caps_empty, Some (Wrapf "read refs: %w" [] (Wrapf "first ref: %w" [] err)))
    | Ok id =>
        match parseFirstRefV1_caps caps_empty (bytes_Fields capstext) with
        | Err err => (None, caps_empty, Some (Wrapf "read refs: %w" [] err))
        | Ok caps =>
            if bool_decide (id = SHA1_zero) then
              match after with
              | [] =>
                  (None, caps_empty,
                   Some match stream_err r with
                        | Some err => Wrapf "read refs: %w" [] err
                        | None => Errorf "read refs: %w" []
                        end)
              | PktFlush :: _ => (None, caps, None)
              | _ :: _ =>
                  (None, caps_empty,
                   Some (Errorf "read refs: expected flush after no-refs" []))
              end
            else
              (None, caps_empty,
               Some (Wrapf "read refs: %w" []
                       (Errorf "first ref: non-zero ID passed with no-refs response" [])))
        end
    end.
Proof.
  intros HSP HNUL Hframe Hline. unfold first_ref_frame in Hframe.
  destruct (reader_err r) as [|] eqn:Herr; [done|].
  destruct (current r) as [[v| | |]|] eqn:Hcur; try done.
  unfold readFirstRefV1, Reader_Text at 1. rewrite Herr, Hcur.
  destruct (bytes_Equal (trimLF v) (B "version 1")) eqn:Hversion.
  - destruct (pending r) as [|[p| | |] ps] eqn:Hpending; try done.
    injection Hframe as -> ->.
    assert (Reader_Next r
            = (true, mkReader after (stream_err r) (Some (PktData payload)) None)) as ->
      by (unfold Reader_Next; by rewrite Herr, Hpending).
    cbn [snd]. unfold Reader_Text. cbn [reader_err current]. rewrite Hline.
    rewrite parseFirstRefV1_no_refs by done.
    destruct (ParseSHA1 hexid) as [id|err]; [|done].
    destruct (parseFirstRefV1_caps _ _) as [caps|err]; [|done].
    destruct (bool_decide (id = SHA1_zero)); [|done].
    unfold Reader_Next. cbn [reader_err pending stream_err].
    destruct after as [|q qs]; [done|]. by destruct q.
  - injection Hframe as -> <-. rewrite Hline.
    rewrite parseFirstRefV1_no_refs by done.
    destruct (ParseSHA1 hexid) as [id|err]; [|done].
    destruct (parseFirstRefV1_caps _ _) as [caps|err]; [|done].
    destruct (bool_decide (id = SHA1_zero)); [|done].
    unfold Reader_Next. rewrite Herr.
    destruct (pending r) as [|q qs]; [done|]. by destruct q.
Qed.

End no_refs.

(** The reader of an advertisement, advanced to its first frame. *)
Definition advertisement_reader (body : bytes) : Reader := (Reader_Next (NewReader body)).2.

(** The advertisement of scenario S4: [capabilities^{}] with the zero
    id and the capability tokens [capstext], then a flush. *)
Definition body_no_refs (capstext : bytes) : bytes :=
  data_frame (no_refs_line (SHA1_String SHA1_zero) capstext ++ [LF]) ++ flush_frame.

(** The same advertisement after the optional [version 1] packet. *)
Definition body_version_no_refs (capstext : bytes) : bytes :=
  data_frame (B "version 1" ++ [LF]) ++ body_no_refs capstext.

Definition no_impl : impl := mkImpl (fun _ _ => Err (Errorf "no transport" [])).

(** C6, as stated, fails: with the zero id and a flush as next frame,
    a malformed capability token (here [=], a token with no key) makes
    the parse fail, and [listRefs] returns the error. *)
Lemma no_refs_fails_on_malformed_capability :
  ~ (forall (Ref_IsValid : string -> bool) (i : impl) (r : Reader)
            (payload : bytes) (after : list packet) (hexid capstext : bytes),
       SP ∉ hexid -> NUL ∉ hexid ->
       first_ref_frame r = Some (payload, after) ->
       trimLF payload = no_refs_line hexid capstext ->
       ParseSHA1 hexid = Ok SHA1_zero ->
       head after = Some PktFlush ->
       (listRefs Ref_IsValid (newFetchV1 Ref_IsValid i r) []).2 = ([], None)).
Proof.
  intros Hall.
  specialize (Hall (fun _ => true) no_impl (advertisement_reader (body_no_refs (B "=")))
                   (no_refs_line (SHA1_String SHA1_zero) (B "=") ++ [LF]) [PktFlush]
                   (SHA1_String SHA1_zero) (B "=")).
  assert (SP ∉ SHA1_String SHA1_zero) as HSP by (apply bytes_IndexByte_None; reflexivity).
  assert (NUL ∉ SHA1_String SHA1_zero) as HNUL by (apply bytes_IndexByte_None; reflexivity).
  specialize (Hall HSP HNUL).
  vm_compute in Hall. specialize (Hall eq_refl eq_refl eq_refl eq_refl). discriminate Hall.
Qed.

(** C6, amended: on an advertisement whose first ref line, after the
    optional [version 1] packet, names [capabilities^{}], the read
    fails when the id is not the zero id, and fails when the next frame
    is not a flush; with the zero id, capability tokens that are all
    well formed and a flush as next frame, the read succeeds with no
    ref and [listRefs] of no prefix returns the empty list and no
    error. *)
Theorem no_refs_advertisement (Ref_IsValid : string -> bool) (i : impl) (r : Reader)
    (payload : bytes) (after : list packet) (hexid capstext : bytes) :
  SP ∉ hexid -> NUL ∉ hexid ->
  first_ref_frame r = Some (payload, after) ->
  trimLF payload = no_refs_line hexid capstext ->
  (ParseSHA1 hexid <> Ok SHA1_zero ->
   exists e, (readFirstRefV1 Ref_IsValid r).2 = (None, caps_empty, Some e))
  /\ (head after <> Some PktFlush ->
      exists e, (readFirstRefV1 Ref_IsValid r).2 = (None, caps_empty, Some e))
  /\ (ParseSHA1 hexid = Ok SHA1_zero -> head after = Some PktFlush ->
      forall caps, parseFirstRefV1_caps caps_empty (bytes_Fields capstext) = Ok caps ->
      (readFirstRefV1 Ref_IsValid r).2 = (None, caps, None)
      /\ (listRefs Ref_IsValid (newFetchV1 Ref_IsValid i r) []).2 = ([], None)).
Proof.
  intros HSP HNUL Hframe Hline.
  pose proof (readFirstRefV1_no_refs Ref_IsValid r payload after hexid capstext
                HSP HNUL Hframe Hline) as Hread.
  split_and!.
  - intros Hid. rewrite Hread. destruct (ParseSHA1 hexid) as [id|err]; [|by eexists].
    destruct (parseFirstRefV1_caps _ _); [|by eexists].
    case_bool_decide; [congruence | by eexists].
  - intros Hnext. rewrite Hread. destruct (ParseSHA1 hexid) as [id|err]; [|by eexists].
    destruct (parseFirstRefV1_caps _ _); [|by eexists].
    case_bool_decide; [|by eexists].
    destruct after as [|[] ?]; simpl in Hnext; try done; by eexists.
  - intros Hid Hnext caps Hcaps.
    rewrite Hid, Hcaps in Hread. rewrite bool_decide_eq_true_2 in Hread by done.
    destruct after as [|[] ?]; try done.
    split; [done|]. unfold newFetchV1.
    destruct (readFirstRefV1 Ref_IsValid r) as [r' res]. simpl in Hread. subst res.
    done.
Qed.

Lemma no_refs_advertisement_witness :
  (ParseSHA1 (SHA1_String SHA1_zero) <> Ok SHA1_zero ->
   exists e,
     (readFirstRefV1 (fun _ => true)
        (advertisement_reader (body_version_no_refs (B "multi_ack side-band-64k")))).2
     = (None, caps_empty, Some e))
  /\ (head [PktFlush] <> Some PktFlush ->
      exists e,
        (readFirstRefV1 (fun _ => true)
           (advertisement_reader (body_version_no_refs (B "multi_ack side-band-64k")))).2
        = (None, caps_empty, Some e))
  /\ (ParseSHA1 (SHA1_String SHA1_zero) = Ok SHA1_zero ->
      head [PktFlush] = Some PktFlush ->
      forall caps,
        parseFirstRefV1_caps caps_empty (bytes_Fields (B "multi_ack side-band-64k"))
        = Ok caps ->
        (readFirstRefV1 (fun _ => true)
           (advertisement_reader (body_version_no_refs (B "multi_ack side-band-64k")))).2
        = (None, caps, None)
        /\ (listRefs (fun _ => true)
              (newFetchV1 (fun _ => true) no_impl
                 (advertisement_reader (body_version_no_refs (B "multi_ack side-band-64k"))))
              []).2
           = ([], None)).
Proof.
  apply (no_refs_advertisement (fun _ => true) no_impl
           (advertisement_reader (body_version_no_refs (B "multi_ack side-band-64k")))
           (no_refs_line (SHA1_String SHA1_zero) (B "multi_ack side-band-64k") ++ [LF])
           [PktFlush]
           (SHA1_String SHA1_zero) (B "multi_ack side-band-64k")).
  - apply bytes_IndexByte_None. reflexivity.
  - apply bytes_IndexByte_None. reflexivity.
  - vm_compute. reflexivity.
  - vm_compute. reflexivity.
Defined.

(** Scenario S4, evaluated, without and with the [version 1] packet. *)
Example S4_no_refs :
  (listRefs (fun _ => true)
     (newFetchV1 (fun _ => true) no_impl
        (advertisement_reader (body_no_refs (B "multi_ack side-band-64k"))))
     []).2
  = ([], None).
Proof. vm_compute. reflexivity. Qed.

Example S4_version_no_refs :
  (listRefs (fun _ => true)
     (newFetchV1 (fun _ => true) no_impl
        (advertisement_reader (body_version_no_refs (B "multi_ack side-band-64k"))))
     []).2
  = ([], None).
Proof. vm_compute. reflexivity. Qed.

(** ** The loops terminate within their fuel

    Each loop of the code is modelled with a number of iterations that
    bounds it.  The lemmas below show that the bound is never reached:
    with any larger number the loop gives the same result. *)

Lemma writeGPGSignature_loop_nil (fuel : nat) (w : bytes) :
  writeGPGSignature_loop fuel w [] = (w, None).
Proof. by destruct fuel. Qed.

Lemma writeGPGSignature_loop_S (fuel : nat) (w sig : bytes) :
  sig <> [] ->
  writeGPGSignature_loop (S fuel) w sig
  = match bytes_IndexByte sig LF with
    | None => (w, Some (Errorf "write gpg signature: data has unterminated line" []))
    | Some lineEnd =>
        writeGPGSignature_loop fuel (w ++ B " " ++ take (S lineEnd) sig)
                               (drop (S lineEnd) sig)
    end.
Proof. by destruct sig. Qed.

Lemma writeGPGSignature_loop_fuel (fuel1 : nat) : forall (fuel2 : nat) (w sig : bytes),
  (length sig <= fuel1)%nat -> (length sig <= fuel2)%nat ->
  writeGPGSignature_loop fuel1 w sig = writeGPGSignature_loop fuel2 w sig.
Proof.
  induction fuel1 as [|fuel1 IH]; intros fuel2 w sig H1 H2.
  - destruct sig; [|simpl in H1; lia]. by rewrite !writeGPGSignature_loop_nil.
  - destruct (decide (sig = [])) as [->|Hne]; [by rewrite !writeGPGSignature_loop_nil|].
    destruct fuel2 as [|fuel2]; [destruct sig; [done | simpl in H2; lia]|].
    rewrite !writeGPGSignature_loop_S by done.
    destruct (bytes_IndexByte sig LF) as [i|] eqn:Hidx; [|done].
    apply bytes_IndexByte_split in Hidx as (l & rest & Hsplit & _ & ->).
    apply IH; rewrite Hsplit at 1; rewrite drop_S_app_cons;
      rewrite Hsplit, length_app in H1, H2; simpl in H1, H2; lia.
Qed.

Lemma consumeSignature_loop_nil (fuel : nat) (sig : bytes) :
  consumeSignature_loop fuel sig [] = (sig, [], None).
Proof. by destruct fuel. Qed.

Lemma consumeSignature_loop_S (fuel : nat) (sig tail : bytes) :
  tail <> [] ->
  consumeSignature_loop (S fuel) sig tail
  = if bytes_HasPrefix tail [SP] then
      match bytes_IndexByte tail LF with
      | None => (sig, tail, Some (Wrapf "parse signature: %w" [] io_ErrUnexpectedEOF))
      | Some i =>
          consumeSignature_loop fuel (sig ++ drop 1 (take (S i) tail)) (drop (S i) tail)
      end
    else (sig, tail, None).
Proof. destruct tail as [|c tail]; [done|]. intros _. simpl. by rewrite andb_true_r. Qed.

Lemma consumeSignature_loop_fuel (fuel1 : nat) : forall (fuel2 : nat) (sig tail : bytes),
  (length tail <= fuel1)%nat -> (length tail <= fuel2)%nat ->
  consumeSignature_loop fuel1 sig tail = consumeSignature_loop fuel2 sig tail.
Proof.
  induction fuel1 as [|fuel1 IH]; intros fuel2 sig tail H1 H2.
  - destruct tail; [|simpl in H1; lia]. by rewrite !consumeSignature_loop_nil.
  - destruct (decide (tail = [])) as [->|Hne]; [by rewrite !consumeSignature_loop_nil|].
    destruct fuel2 as [|fuel2]; [destruct tail; [done | simpl in H2; lia]|].
    rewrite !consumeSignature_loop_S by done.
    destruct (bytes_HasPrefix tail [SP]); [|done].
    destruct (bytes_IndexByte tail LF) as [i|] eqn:Hidx; [|done].
    apply bytes_IndexByte_split in Hidx as (l & rest & Hsplit & _ & ->).
    apply IH; rewrite Hsplit at 1; rewrite drop_S_app_cons;
      rewrite Hsplit, length_app in H1, H2; simpl in H1, H2; lia.
Qed.

Lemma consumeString_length (src : bytes) (s : string) (rest : bytes) :
  consumeString src s = (rest, true) ->
  length src = (length (B s) + length rest)%nat.
Proof.
  rewrite consumeString_HasPrefix. destruct (bytes_HasPrefix src (B s)) eqn:Hp; [|done].
  apply bytes_HasPrefix_spec in Hp as [Hlen _]. intros [= <-]. rewrite length_drop. lia.
Qed.

Lemma consumeHex_length (dst src dst' rest : bytes) :
  consumeHex dst src = (dst', rest, None) -> (length rest <= length src)%nat.
Proof.
  unfold consumeHex. destruct (_ <? _)%nat; [done|].
  destruct (hex_Decode _ _) as [[? ?] [?|]]; [done|].
  intros [= _ <-]. rewrite length_drop. lia.
Qed.

Lemma UnmarshalText_parents_fuel (fuel1 : nat) :
  forall (fuel2 : nat) (i : Z) (c : Commit) (data : bytes),
  (length data <= fuel1)%nat -> (length data <= fuel2)%nat ->
  UnmarshalText_parents fuel1 i c data = UnmarshalText_parents fuel2 i c data.
Proof.
  induction fuel1 as [|fuel1 IH]; intros fuel2 i c data H1 H2.
  - destruct data; [|simpl in H1; lia]. by destruct fuel2.
  - destruct fuel2 as [|fuel2].
    { destruct data; [|simpl in H2; lia]. done. }
    cbn [UnmarshalText_parents].
    destruct (consumeString data "parent ") as [data1 []] eqn:Hs1; [|done].
    apply consumeString_length in Hs1. simpl in Hs1.
    destruct (consumeHex SHA1_zero data1) as [[p data2] [err|]] eqn:Hh; [done|].
    apply consumeHex_length in Hh.
    destruct (consumeString data2 _) as [data3 []] eqn:Hs2; [|done].
    apply consumeString_length in Hs2. simpl in Hs2.
    apply IH; lia.
Qed.

Lemma pktline_decode_nil (fuel : nat) : pktline_decode fuel [] = ([], None).
Proof. by destruct fuel. Qed.

(** One frame is read from a stream that is not at its end. *)
Lemma pktline_decode_S (fuel : nat) (s : bytes) :
  s <> [] ->
  pktline_decode (S fuel) s
  = if (length s <? 4)%nat then ([], Some (Errorf "ShortRead" []))
    else
      match parse_hex4 (take 4 s) with
      | None => ([], Some (Errorf "BadLength" []))
      | Some n =>
          let rest := drop 4 s in
          let continue (p : packet) (rest : bytes) :=
            let '(ps, e) := pktline_decode fuel rest in (p :: ps, e) in
          if n =? 0 then continue PktFlush rest
          else if n =? 1 then continue PktDelim rest
          else if n =? 2 then continue PktResponseEnd rest
          else if n <? 4 then ([], Some (Errorf "BadLength" []))
          else
            let k := Z.to_nat (n - 4) in
            if (length rest <? k)%nat then ([], Some (Errorf "Truncated" []))
            else continue (PktData (take k rest)) (drop k rest)
      end.
Proof. by destruct s. Qed.

Lemma pktline_decode_fuel (fuel1 : nat) : forall (fuel2 : nat) (s : bytes),
  (length s <= fuel1)%nat -> (length s <= fuel2)%nat ->
  pktline_decode fuel1 s = pktline_decode fuel2 s.
Proof.
  induction fuel1 as [|fuel1 IH]; intros fuel2 s H1 H2.
  - destruct s; [|simpl in H1; lia]. by rewrite !pktline_decode_nil.
  - destruct (decide (s = [])) as [->|Hne]; [by rewrite !pktline_decode_nil|].
    destruct fuel2 as [|fuel2]; [destruct s; [done | simpl in H2; lia]|].
    rewrite !pktline_decode_S by done.
    destruct (Nat.ltb_spec (length s) 4) as [?|Hlen]; [done|].
    destruct (parse_hex4 (take 4 s)) as [n|]; [|done].
    assert (forall rest : bytes, (length rest <= length s - 4)%nat ->
              pktline_decode fuel1 rest = pktline_decode fuel2 rest) as Hrec
      by (intros rest Hrest; apply IH; lia).
    cbv zeta.
    repeat (case_match; try done);
      rewrite Hrec in *; try congruence; rewrite ?length_drop; lia.
Qed.

Lemma negotiate_ackLoop_fuel (fuel1 : nat) :
  forall (fuel2 : nat) (r : Reader) (acks : gmap SHA1 bool),
  reader_err r = None ->
  (length (pending r) < fuel1)%nat -> (length (pending r) < fuel2)%nat ->
  negotiate_ackLoop fuel1 r acks = negotiate_ackLoop fuel2 r acks.
Proof.
  induction fuel1 as [|fuel1 IH]; intros fuel2 r acks Herr H1 H2; [lia|].
  destruct fuel2 as [|fuel2]; [lia|].
  rewrite !negotiate_ackLoop_step by done.
  destruct (pending r) as [|p ps]; [done|]. cbv zeta.
  destruct p as [payload| | |]; try done.
  destruct (classify_ack _); try done.
  apply IH; simpl in *; [done | lia | lia].
Qed.

Section readOtherRefsV1_fuel.

Variable Ref_IsValid : string -> bool.

Lemma readOtherRefsV1_loop_fuel (fuel1 : nat) :
  forall (fuel2 : nat) (refs : list Ref) (symrefs : gmap string string) (r : Reader),
  (length (pending r) < fuel1)%nat -> (length (pending r) < fuel2)%nat ->
  readOtherRefsV1_loop Ref_IsValid fuel1 refs symrefs r
  = readOtherRefsV1_loop Ref_IsValid fuel2 refs symrefs r.
Proof.
  induction fuel1 as [|fuel1 IH]; intros fuel2 refs symrefs r H1 H2; [lia|].
  destruct fuel2 as [|fuel2]; [lia|].
  cbn [readOtherRefsV1_loop]. unfold Reader_Next.
  destruct (reader_err r); [done|].
  destruct (pending r) as [|p ps] eqn:Hpending; [done|].
  destruct (true && _); [|done].
  destruct (Reader_Text _); [|done].
  destruct (parseOtherRefV1 _ _); [|done].
  apply IH; simpl in *; lia.
Qed.

End readOtherRefsV1_fuel.

(** ** Framing the request *)

Lemma parse_hex4_hex4 (n : Z) : 0 <= n < 65536 -> parse_hex4 (hex4 n) = Some n.
Proof.
  intros Hn. unfold parse_hex4, hex4.
  destruct (fromHexChar_hex_digit (n / 4096 mod 16)) as [-> _];
    [apply Z.mod_pos_bound; lia|].
  destruct (fromHexChar_hex_digit (n / 256 mod 16)) as [-> _];
    [apply Z.mod_pos_bound; lia|].
  destruct (fromHexChar_hex_digit (n / 16 mod 16)) as [-> _];
    [apply Z.mod_pos_bound; lia|].
  destruct (fromHexChar_hex_digit (n mod 16)) as [-> _];
    [apply Z.mod_pos_bound; lia|].
  f_equal. Z.div_mod_to_equations. lia.
Qed.

(** The bytes of a frame. *)
Definition encode_packet (p : packet) : bytes :=
  match p with
  | PktData payload => data_frame payload
  | PktFlush => flush_frame
  | PktDelim => B "0001"
  | PktResponseEnd => B "0002"
  end.

Definition encode_packets (ps : list packet) : bytes := flat_map encode_packet ps.

(** A frame whose payload, if it has one, fits a data frame. *)
Definition packet_fits (p : packet) : Prop :=
  match p with
  | PktData payload => Z.of_nat (length payload) <= MaxSize
  | _ => True
  end.

(** Reading back a stream of frames gives the frames. *)
Lemma pktline_decode_encode (ps : list packet) : forall fuel : nat,
  Forall packet_fits ps -> (length (encode_packets ps) <= fuel)%nat ->
  pktline_decode fuel (encode_packets ps) = (ps, None).
Proof.
  induction ps as [|p ps IH]; intros fuel Hfits Hfuel.
  - apply pktline_decode_nil.
  - inversion_clear Hfits as [|? ? Hp Hps].
    assert (exists hdr body n,
              encode_packet p = hdr ++ body /\ length hdr = 4%nat
              /\ parse_hex4 hdr = Some n
              /\ match p with
                 | PktData payload => 4 <= n /\ Z.to_nat (n - 4) = length body /\ body = payload
                 | PktFlush => n = 0 /\ body = []
                 | PktDelim => n = 1 /\ body = []
                 | PktResponseEnd => n = 2 /\ body = []
                 end) as (hdr & body & n & Henc & Hhdr & Hparse & Hkind).
    { destruct p as [payload| | |].
      - exists (hex4 (Z.of_nat (length payload) + 4)), payload, (Z.of_nat (length payload) + 4).
        unfold packet_fits, MaxSize in Hp.
        split_and!; [done | done | apply parse_hex4_hex4; lia | lia | lia | done].
      - by exists (B "0000"), [], 0.
      - by exists (B "0001"), [], 1.
      - by exists (B "0002"), [], 2. }
    unfold encode_packets in *. cbn [flat_map] in *. rewrite Henc in *.
    rewrite !length_app in Hfuel.
    destruct fuel as [|fuel]; [lia|].
    rewrite pktline_decode_S by (destruct hdr; [done | done]).
    rewrite !length_app, Hhdr.
    destruct (Nat.ltb_spec (4 + length body + length (flat_map encode_packet ps)) 4); [lia|].
    rewrite <- app_assoc, take_app_length', Hparse by done. cbv zeta.
    rewrite drop_app_length' by done.
    destruct p as [payload| | |].
    + destruct Hkind as (Hn & Hlen & ->).
      destruct (Z.eqb_spec n 0); [lia|]. destruct (Z.eqb_spec n 1); [lia|].
      destruct (Z.eqb_spec n 2); [lia|]. destruct (Z.ltb_spec n 4); [lia|].
      rewrite length_app, Hlen.
      destruct (Nat.ltb_spec (length payload + length (flat_map encode_packet ps))
                             (length payload)); [lia|].
      rewrite take_app_length, drop_app_length, IH by (done || lia). done.
    + destruct Hkind as [-> ->]. simpl. rewrite IH by (done || simpl in *; lia). done.
    + destruct Hkind as [-> ->]. simpl. rewrite IH by (done || simpl in *; lia). done.
    + destruct Hkind as [-> ->]. simpl. rewrite IH by (done || simpl in *; lia). done.
Qed.

(** The frames of a request, in order. *)
Definition request_packets (req : FetchRequest) (want0 : SHA1) (wants : list SHA1)
    (useCaps : capabilityList) : list packet :=
  PktData (B "want " ++ SHA1_String want0 ++ [SP] ++ caps_String useCaps ++ [LF])
    :: ((fun want => PktData (B "want " ++ SHA1_String want ++ [LF])) <$> wants)
    ++ PktFlush
    :: ((fun have => PktData (B "have " ++ SHA1_String have ++ [LF])) <$> Have req)
    ++ [if HaveMore req then PktFlush else PktData (B "done")].

Lemma request_frames_packets (req : FetchRequest) (want0 : SHA1) (wants : list SHA1)
    (useCaps : capabilityList) :
  request_frames req want0 wants useCaps
  = encode_packets (request_packets req want0 wants useCaps).
Proof.
  unfold request_frames, request_packets, encode_packets.
  assert (forall (line : SHA1 -> bytes) (l : list SHA1),
            flat_map encode_packet ((fun x => PktData (line x)) <$> l)
            = flat_map (fun x => data_frame (line x)) l) as Hmap.
  { intros line l. induction l as [|x l IHl]; [done|].
    rewrite fmap_cons. cbn [flat_map encode_packet]. by rewrite IHl. }
  cbn [flat_map encode_packet]. rewrite flat_map_app. cbn [flat_map encode_packet].
  rewrite flat_map_app, !Hmap. cbn [flat_map]. rewrite app_nil_r.
  by destruct (HaveMore req).
Qed.

(** The buffer of a request reads back, frame by frame, as the first
    want with the capabilities, the other wants, a flush, the haves and
    the closing [done] or flush. *)
Lemma request_buffer_decodes (f : fetchV1) (req : FetchRequest)
    (want0 : SHA1) (wants : list SHA1) (useCaps : capabilityList) :
  Want req = want0 :: wants ->
  Forall (fun id => length id = SHA1Size) (Want req) ->
  Forall (fun id => length id = SHA1Size) (Have req) ->
  negotiate_useCaps f req = Ok useCaps ->
  response_frames (request_frames req want0 wants useCaps)
  = request_packets req want0 wants useCaps.
Proof.
  intros Hwant Hwants Hhaves Hcaps. rewrite Hwant in Hwants.
  inversion_clear Hwants as [|? ? Hw0 Hws].
  pose proof (length_caps_String f req useCaps Hcaps) as Hlen.
  unfold response_frames, NewReader. rewrite request_frames_packets.
  rewrite pktline_decode_encode; [done| |done].
  unfold request_packets. constructor.
  { cbn [packet_fits]. unfold MaxSize. rewrite !length_app, length_SHA1_String by done.
    simpl. lia. }
  apply Forall_app. split.
  { apply Forall_fmap. eapply Forall_impl; [exact Hws|]. intros id Hid.
    unfold compose. cbn [packet_fits]. unfold MaxSize.
    rewrite !length_app, length_SHA1_String by done. simpl. lia. }
  constructor; [done|]. apply Forall_app. split.
  { apply Forall_fmap. eapply Forall_impl; [exact Hhaves|]. intros id Hid.
    unfold compose. cbn [packet_fits]. unfold MaxSize.
    rewrite !length_app, length_SHA1_String by done. simpl. lia. }
  constructor; [|done]. by destruct (HaveMore req).
Qed.

(** * Further properties of the commit codec *)

(** ** What the consumers accept *)

Lemma list_ascii_of_string_of_list (l : bytes) :
  list_ascii_of_string (string_of_list_ascii l) = l.
Proof. apply String.list_ascii_of_string_of_list_ascii. Qed.

Lemma bytes_LastIndexByte_split (s : bytes) (c : ascii) (i : nat) :
  bytes_LastIndexByte s c = Some i ->
  exists l r, s = l ++ c :: r /\ (c ∉ r) /\ i = length l.
Proof.
  revert i; induction s as [|x s IH]; simpl; intros i; [done|].
  destruct (bytes_LastIndexByte s c) as [j|] eqn:Hlast.
  - intros [= <-]. destruct (IH j eq_refl) as (l & r & -> & Hr & ->).
    by exists (x :: l), r.
  - destruct (Ascii.eqb_spec x c) as [->|Hne]; [|done].
    intros [= <-]. exists [], s. split_and!; [done| |done].
    clear IH. induction s as [|y s IH]; [apply not_elem_of_nil|].
    simpl in Hlast. destruct (bytes_LastIndexByte s c); [done|].
    destruct (Ascii.eqb_spec y c) as [->|Hne]; [done|].
    apply not_elem_of_cons. split; [congruence | by apply IH].
Qed.

Lemma bytes_LastIndexByte_notin (s : bytes) (c : ascii) :
  bytes_LastIndexByte s c = None -> c ∉ s.
Proof.
  induction s as [|y s IH]; simpl; [intros _; apply not_elem_of_nil|].
  destruct (bytes_LastIndexByte s c); [done|].
  destruct (Ascii.eqb_spec y c) as [->|Hne]; [done|].
  intros _. apply not_elem_of_cons. split; [congruence | by apply IH].
Qed.

Lemma consumeString_true (src : bytes) (s : string) (rest : bytes) :
  consumeString src s = (rest, true) -> src = B s ++ rest.
Proof.
  rewrite consumeString_HasPrefix.
  destruct (bytes_HasPrefix src (B s)) eqn:Hp; [|done].
  apply bytes_HasPrefix_spec in Hp as [_ Htake]. intros [= <-].
  by rewrite <- Htake at 1; rewrite take_drop.
Qed.

Lemma consumeString_false (src : bytes) (s : string) (rest : bytes) :
  consumeString src s = (rest, false) ->
  rest = src /\ ~ exists r, src = B s ++ r.
Proof.
  rewrite consumeString_HasPrefix.
  destruct (bytes_HasPrefix src (B s)) eqn:Hp; [done|].
  intros [= <-]. split; [done|]. intros [r ->].
  by rewrite bytes_HasPrefix_app in Hp.
Qed.

(** X1: [consumeString src s] succeeds exactly when [src] starts with
    the bytes of [s], and then returns what follows them; when it fails
    it returns [src] itself. *)
Theorem consumeString_iff (src : bytes) (s : string) (rest : bytes) :
  (consumeString src s = (rest, true) <-> src = B s ++ rest)
  /\ (consumeString src s = (rest, false)
      <-> rest = src /\ ~ exists r, src = B s ++ r).
Proof.
  split; split.
  - apply consumeString_true.
  - intros ->. apply consumeString_app.
  - apply consumeString_false.
  - intros [-> Hno]. destruct (consumeString src s) as [r [|]] eqn:Hrun.
    + destruct Hno. exists r. by apply consumeString_true.
    + by apply consumeString_false in Hrun as [-> _].
Qed.

(** *** Hexadecimal ids *)

(** The lowercase form of a hexadecimal digit. *)
Definition hex_lower (c : ascii) : ascii :=
  if (65 <=? byte_val c) && (byte_val c <=? 70) then byte_of (byte_val c + 32) else c.

Definition fromHexChar_ok (c : ascii) : bool :=
  match fromHexChar c with
  | Some a => (0 <=? a) && (a <? 16) && Ascii.eqb (hex_digit a) (hex_lower c)
  | None => true
  end.

Lemma fromHexChar_ok_all : forallb (fun n => fromHexChar_ok (ascii_of_nat n)) (seq 0 256) = true.
Proof. vm_compute. reflexivity. Qed.

Lemma fromHexChar_Some (c : ascii) (a : Z) :
  fromHexChar c = Some a -> 0 <= a < 16 /\ hex_digit a = hex_lower c.
Proof.
  intros Hc. pose proof fromHexChar_ok_all as Hall.
  rewrite forallb_forall in Hall. specialize (Hall (nat_of_ascii c)).
  rewrite ascii_nat_embedding in Hall. unfold fromHexChar_ok in Hall. rewrite Hc in Hall.
  assert (In (nat_of_ascii c) (seq 0 256)) as Hin
    by (apply in_seq; pose proof (nat_ascii_bounded c); lia).
  apply Hall in Hin. rewrite !andb_true_iff, Z.leb_le, Z.ltb_lt, Ascii.eqb_eq in Hin.
  destruct Hin as [[? ?] ?]. done.
Qed.

Lemma list_pair_ind {A} (P : list A -> Prop) :
  P [] -> (forall x, P [x]) -> (forall x y l, P l -> P (x :: y :: l)) -> forall l, P l.
Proof.
  intros Hnil Hone Hstep l.
  assert (P l /\ forall x, P (x :: l)) as [? _]; [|done].
  induction l as [|y l [IH1 IH2]]; [by split|].
  split; [apply IH2|]. intros x. by apply Hstep.
Qed.

(** What [hex.Decode] has written when it succeeds: the bytes that the
    digits denote, in either case of the letters. *)
Lemma hex_Decode_from_inv (src : bytes) : forall (i : nat) (dst dst' : bytes) (n : nat),
  hex_Decode_from i dst src = (dst', n, None) ->
  (i + Nat.div (length src) 2 <= length dst)%nat ->
  exists dec,
    length src = (2 * length dec)%nat
    /\ hex_Encode dec = hex_lower <$> src
    /\ dst' = take i dst ++ dec ++ drop (i + length dec) dst.
Proof.
  induction src as [|x|x y src IH] using list_pair_ind; intros i dst dst' n.
  - intros [= <- _] _. exists []. simpl. by rewrite Nat.add_0_r, take_drop.
  - simpl. by destruct (fromHexChar x).
  - cbn [hex_Decode_from].
    destruct (fromHexChar x) as [a|] eqn:Hx; [|done].
    destruct (fromHexChar y) as [b|] eqn:Hy; [|done].
    apply fromHexChar_Some in Hx as [Ha Hxl], Hy as [Hb Hyl].
    intros Hrun Hlen.
    assert (Nat.div (length (x :: y :: src)) 2 = S (Nat.div (length src) 2)) as Hdiv.
    { cbn [length]. replace (S (S (length src))) with (1 * 2 + length src)%nat by lia.
      by rewrite Nat.div_add_l by done. }
    rewrite Hdiv in Hlen.
    apply IH in Hrun as (dec & Hsrc & Henc & ->); [|rewrite length_insert; lia].
    exists (byte_of (a * 16 + b) :: dec). split_and!.
    + cbn [length]. lia.
    + cbn [hex_Encode flat_map fmap list_fmap]. simpl app.
      rewrite byte_val_of by lia.
      replace ((a * 16 + b) / 16) with a by (apply Z.div_unique with b; lia).
      replace ((a * 16 + b) mod 16) with b by (apply Z.mod_unique with a; lia).
      rewrite Hxl, Hyl. f_equal. f_equal. exact Henc.
    + rewrite take_insert_lt by lia. rewrite drop_insert_lt by lia.
      rewrite insert_take_drop by (rewrite length_take; lia).
      rewrite take_take, Nat.min_l by lia.
      rewrite (drop_ge (take (S i) dst)) by (rewrite length_take; lia).
      rewrite <- app_assoc. cbn [length]. simpl.
      by replace (i + S (length dec))%nat with (S (i + length dec)) by lia.
Qed.

Lemma consumeHex_Some (dst src dst' tail : bytes) (e : error) :
  consumeHex dst src = (dst', tail, Some e) -> tail = src.
Proof.
  unfold consumeHex. destruct (_ <? _)%nat; [by intros [= _ <- _]|].
  destruct (hex_Decode _ _) as [[? ?] [?|]]; [by intros [= _ <- _] | done].
Qed.

(** The digits [h] denote the bytes [id]. *)
Definition hex_denotes (h : bytes) (id : bytes) : Prop :=
  length h = (2 * length id)%nat /\ hex_Encode id = hex_lower <$> h.

Lemma consumeHex_None (dst src dst' tail : bytes) :
  consumeHex dst src = (dst', tail, None) ->
  exists h, src = h ++ tail /\ length dst' = length dst /\ hex_denotes h dst'.
Proof.
  unfold consumeHex, hex_EncodedLen.
  destruct (Nat.ltb_spec (length src) (2 * length dst)) as [|Hlen]; [done|].
  destruct (hex_Decode _ _) as [[d n] [?|]] eqn:Hdec; [done|].
  intros [= -> <-]. unfold hex_Decode in Hdec.
  assert (length (take (2 * length dst) src) = (2 * length dst)%nat) as Htake
    by (rewrite length_take; lia).
  apply hex_Decode_from_inv in Hdec as (dec & Hsrc & Henc & ->).
  2:{ rewrite Htake. replace (2 * length dst)%nat with (length dst * 2)%nat by lia.
      rewrite Nat.div_mul by done. lia. }
  rewrite Htake in Hsrc. assert (length dec = length dst) as Hdl by lia.
  rewrite take_0, Nat.add_0_l, app_nil_l, (drop_ge dst) by lia. rewrite app_nil_r.
  exists (take (2 * length dst) src). split_and!.
  - by rewrite take_drop.
  - done.
  - split; [by rewrite Htake, Hdl | done].
Qed.

(** X2: [consumeHex dst src] decodes the first [2 * len(dst)] bytes of
    [src] into [dst].  When it succeeds it has consumed exactly those
    bytes, the array keeps its size and holds the bytes that the digits
    denote, letters in either case; input shorter than that is refused
    with [io.ErrUnexpectedEOF], the array untouched; on every error the
    source is returned whole. *)
Theorem consumeHex_spec (dst src : bytes) :
  (forall dst' tail,
     consumeHex dst src = (dst', tail, None) ->
     exists h, src = h ++ tail /\ length dst' = length dst /\ hex_denotes h dst')
  /\ ((length src < 2 * length dst)%nat ->
      consumeHex dst src = (dst, src, Some io_ErrUnexpectedEOF))
  /\ (forall dst' tail e, consumeHex dst src = (dst', tail, Some e) -> tail = src).
Proof.
  split_and!.
  - intros dst' tail. apply consumeHex_None.
  - intros Hlen. unfold consumeHex, hex_EncodedLen.
    by destruct (Nat.ltb_spec (length src) (2 * length dst)) as [|?]; [|lia].
  - intros dst' tail e. apply consumeHex_Some.
Qed.

(** *** Zone offsets *)

Definition digit_val (c : ascii) : Z := byte_val c - 48.

(** The offset in seconds that the text [s h1 h2 m1 m2] denotes. *)
Definition zone_seconds (s h1 h2 m1 m2 : ascii) : Z :=
  ((digit_val h1 * 10 + digit_val h2) * 60 * 60 + (digit_val m1 * 10 + digit_val m2) * 60)
  * (if Ascii.eqb s "-" then -1 else 1).

Lemma parseTZOffset_Ok (src : bytes) (l : Location) :
  parseTZOffset src = Ok l ->
  exists s h1 h2 m1 m2,
    src = [s; h1; h2; m1; m2]
    /\ (s = "+"%char \/ s = "-"%char)
    /\ Forall (fun c => is_digit c = true) [h1; h2; m1; m2]
    /\ l = FixedZone (string_of_list_ascii src) (zone_seconds s h1 h2 m1 m2).
Proof.
  unfold parseTZOffset.
  destruct src as [|s [|h1 [|h2 [|m1 [|m2 [|? ?]]]]]]; try done.
  destruct (Ascii.eqb_spec s "-") as [->|Hminus].
  - destruct (forallb is_digit [h1; h2; m1; m2]) eqn:Hd; [|done].
    cbn [negb]. intros [= <-]. exists "-"%char, h1, h2, m1, m2.
    split_and!; [done | by right | | done].
    apply Forall_forall. intros c Hc. rewrite forallb_forall in Hd.
    by apply Hd, list_elem_of_In.
  - destruct (Ascii.eqb_spec s "+") as [->|Hplus]; [|done].
    destruct (forallb is_digit [h1; h2; m1; m2]) eqn:Hd; [|done].
    cbn [negb]. intros [= <-]. exists "+"%char, h1, h2, m1, m2.
    split_and!; [done | by left | | ].
    + apply Forall_forall. intros c Hc. rewrite forallb_forall in Hd.
      by apply Hd, list_elem_of_In.
    + unfold zone_seconds, digit_val. simpl Ascii.eqb. cbv iota. done.
Qed.

Lemma zone_seconds_bounds (s h1 h2 m1 m2 : ascii) :
  Forall (fun c => is_digit c = true) [h1; h2; m1; m2] ->
  zone_seconds s h1 h2 m1 m2 mod 60 = 0
  /\ -362340 <= zone_seconds s h1 h2 m1 m2 <= 362340.
Proof.
  intros Hd. rewrite !Forall_cons in Hd. destruct Hd as (H1 & H2 & H3 & H4 & _).
  apply is_digit_range in H1, H2, H3, H4. unfold zone_seconds, digit_val.
  set (hh := (byte_val h1 - 48) * 10 + (byte_val h2 - 48)).
  set (mm := (byte_val m1 - 48) * 10 + (byte_val m2 - 48)).
  assert (0 <= hh <= 99) by (unfold hh; lia).
  assert (0 <= mm <= 99) by (unfold mm; lia).
  split.
  - replace ((hh * 60 * 60 + mm * 60) * (if Ascii.eqb s "-" then -1 else 1))
      with (((hh * 60 + mm) * (if Ascii.eqb s "-" then -1 else 1)) * 60)
      by (destruct (Ascii.eqb s "-"); lia).
    apply Z.mod_mul. lia.
  - destruct (Ascii.eqb s "-"); lia.
Qed.

(** X3: [parseTZOffset] accepts exactly the five-byte texts made of a
    sign and four decimal digits.  The zone it makes has the text as
    its name and the offset of that many hours and minutes, so a whole
    number of minutes at most 99 hours and 99 minutes from UTC: minutes
    above 59 are not refused. *)
Theorem parseTZOffset_iff (src : bytes) (l : Location) :
  (parseTZOffset src = Ok l <->
   exists s h1 h2 m1 m2,
     src = [s; h1; h2; m1; m2]
     /\ (s = "+"%char \/ s = "-"%char)
     /\ Forall (fun c => is_digit c = true) [h1; h2; m1; m2]
     /\ l = FixedZone (string_of_list_ascii src) (zone_seconds s h1 h2 m1 m2))
  /\ (parseTZOffset src = Ok l ->
      loc_offset l mod 60 = 0 /\ -362340 <= loc_offset l <= 362340).
Proof.
  split; [split|].
  - apply parseTZOffset_Ok.
  - intros (s & h1 & h2 & m1 & m2 & -> & Hs & Hd & ->).
    unfold parseTZOffset.
    assert (forallb is_digit [h1; h2; m1; m2] = true) as ->.
    { apply forallb_forall. intros c Hc.
      by apply (proj1 (Forall_forall _ _) Hd), list_elem_of_In. }
    destruct Hs as [-> | ->]; reflexivity.
  - intros (s & h1 & h2 & m1 & m2 & _ & _ & Hd & ->)%parseTZOffset_Ok.
    by apply zone_seconds_bounds.
Qed.

(** *** Timestamps *)

Lemma ParseUint_loop_result (s : bytes) : forall (n v : Z) (e : option error),
  0 <= n <= maxUint64 -> ParseUint_loop n s = (v, e) ->
  match e with
  | None => Forall (fun c => is_digit c = true) s /\ 0 <= v <= maxUint64
  | Some e => e = strconv_ErrSyntax \/ (e = strconv_ErrRange /\ v = maxUint64)
  end.
Proof.
  induction s as [|c s IH]; intros n v e Hn; cbn [ParseUint_loop].
  - intros [= <- <-]. split; [constructor | done].
  - destruct (is_digit c) eqn:Hc; cbn [negb]; [|intros [= <- <-]; by left].
    destruct (Z.leb_spec (maxUint64 / 10 + 1) n); [intros [= <- <-]; by right|].
    cbv zeta. destruct (Z.ltb_spec maxUint64 (n * 10 + (byte_val c - 48)));
      [intros [= <- <-]; by right|].
    intros Hrun. apply is_digit_range in Hc as Hc'.
    apply IH in Hrun; [|lia]. destruct e; [done|].
    destruct Hrun as [? ?]. split; [by constructor | done].
Qed.

(** What [strconv.ParseInt] has read when it succeeds: an optional sign
    and decimal digits, of a number that an [int64] holds. *)
Lemma strconv_ParseInt_None (s : bytes) (z : Z) :
  strconv_ParseInt s = (z, None) ->
  (- 2 ^ 63 <= z < 2 ^ 63)
  /\ Forall (fun c => is_digit c = true \/ c = "-"%char \/ c = "+"%char) s.
Proof.
  unfold strconv_ParseInt. destruct s as [|c s]; [done|]. cbv zeta.
  set (digits := if Ascii.eqb c "+" || Ascii.eqb c "-" then s else c :: s).
  assert (Forall (fun c => is_digit c = true) digits ->
          Forall (fun c => is_digit c = true \/ c = "-"%char \/ c = "+"%char) (c :: s))
    as Hchars.
  { unfold digits. intros Hd.
    destruct (Ascii.eqb_spec c "+") as [->|_]; cbn [orb] in Hd.
    { constructor; [auto|]. eapply Forall_impl; [exact Hd | auto]. }
    destruct (Ascii.eqb_spec c "-") as [->|_].
    { constructor; [auto|]. eapply Forall_impl; [exact Hd | auto]. }
    eapply Forall_impl; [exact Hd | auto]. }
  destruct (strconv_ParseUint digits) as [un e] eqn:Hun.
  assert (match e with
          | None => Forall (fun c => is_digit c = true) digits /\ 0 <= un <= maxUint64
          | Some e => e = strconv_ErrSyntax \/ (e = strconv_ErrRange /\ un = maxUint64)
          end) as Hres.
  { unfold strconv_ParseUint in Hun. destruct digits as [|d ds] eqn:Hd.
    - injection Hun as <- <-. by left.
    - apply ParseUint_loop_result in Hun; [done|]. unfold maxUint64. lia. }
  clear Hun. int64_bounds.
  destruct e as [e|].
  - destruct Hres as [-> | [-> ->] ]; [done|].
    destruct (Ascii.eqb c "-"); cbn [negb andb].
    + destruct (Z.ltb_spec 9223372036854775808 18446744073709551615); [done | lia].
    + destruct (Z.leb_spec 9223372036854775808 18446744073709551615); [done | lia].
  - destruct Hres as [Hd Hrange]. specialize (Hchars Hd).
    destruct (Ascii.eqb c "-"); cbn [negb andb].
    + destruct (Z.ltb_spec 9223372036854775808 un); [done|].
      intros [= <-]. split; [lia | done].
    + destruct (Z.leb_spec 9223372036854775808 un); [done|].
      intros [= <-]. split; [lia | done].
Qed.

Lemma sign_or_digit_not_SP_LF (s : bytes) :
  Forall (fun c => is_digit c = true \/ c = "-"%char \/ c = "+"%char) s ->
  (SP ∉ s) /\ (LF ∉ s).
Proof.
  intros Hs. split; intros Hin;
    apply (proj1 (Forall_forall _ _) Hs), SP_not_digit_or_sign in Hin as [? ?]; done.
Qed.

(** *** User lines *)

(** The fields of the line [<user> <seconds> <zone>]. *)
Lemma consumeUser_fields (u : string) (ts tz : bytes) (z : Z) (l : Location)
    (rest : bytes) :
  ~ contains_LF u ->
  strconv_ParseInt ts = (z, None) -> parseTZOffset tz = Ok l ->
  consumeUser (list_ascii_of_string u ++ [SP] ++ ts ++ [SP] ++ tz ++ [LF] ++ rest)
  = (u, time_Unix_In z l, rest, None).
Proof.
  intros Hu Hparse Hzone. unfold contains_LF in Hu.
  destruct (strconv_ParseInt_None _ _ Hparse) as [_ [HtsSP HtsLF]%sign_or_digit_not_SP_LF].
  assert ((SP ∉ tz) /\ (LF ∉ tz)) as [HtzSP HtzLF].
  { apply parseTZOffset_Ok in Hzone as (s & h1 & h2 & m1 & m2 & -> & Hs & Hd & _).
    apply sign_or_digit_not_SP_LF. constructor; [destruct Hs; auto|].
    eapply Forall_impl; [exact Hd | auto]. }
  set (ub := list_ascii_of_string u) in *.
  set (line := ub ++ [SP] ++ ts ++ [SP] ++ tz).
  replace (ub ++ [SP] ++ ts ++ [SP] ++ tz ++ [LF] ++ rest) with (line ++ LF :: rest)
    by (unfold line; by rewrite <- !app_assoc).
  assert (LF ∉ line) as HlineLF.
  { unfold line. rewrite !not_elem_of_app, !not_elem_of_cons.
    split_and!; try done; apply not_elem_of_nil. }
  unfold consumeUser. rewrite bytes_IndexByte_app by done.
  rewrite take_app_length, drop_S_app_cons.
  assert (line = (ub ++ SP :: ts) ++ SP :: tz) as Hline1
    by (unfold line; by rewrite <- !app_assoc).
  assert (bytes_LastIndexByte line SP = Some (length (ub ++ SP :: ts))) as ->
    by (rewrite Hline1; by apply bytes_LastIndexByte_app).
  assert (take (length (ub ++ SP :: ts)) line = ub ++ SP :: ts) as ->
    by (rewrite Hline1; apply take_app_length).
  rewrite bytes_LastIndexByte_app by done.
  rewrite drop_S_app_cons, Hparse.
  assert (drop (S (length (ub ++ SP :: ts))) line = tz) as ->
    by (rewrite Hline1; apply drop_S_app_cons).
  rewrite Hzone. unfold line. rewrite take_app_length.
  unfold ub. by rewrite list_ascii_of_string_inv.
Qed.

(** What [consumeUser] has read when it succeeds. *)
Lemma consumeUser_None (src : bytes) (u : User) (t : Time) (tail : bytes) :
  consumeUser src = (u, t, tail, None) ->
  exists ts tz sec zone,
    src = list_ascii_of_string u ++ [SP] ++ ts ++ [SP] ++ tz ++ [LF] ++ tail
    /\ ~ contains_LF u
    /\ strconv_ParseInt ts = (sec, None)
    /\ parseTZOffset tz = Ok zone
    /\ t = mkTime sec 0 zone.
Proof.
  unfold consumeUser.
  destruct (bytes_IndexByte src LF) as [eol|] eqn:Heol; [|done].
  apply bytes_IndexByte_split in Heol as (line & rest & -> & HLF & ->).
  rewrite take_app_length, drop_S_app_cons.
  destruct (bytes_LastIndexByte line SP) as [tsEnd|] eqn:Hts; [|done].
  apply bytes_LastIndexByte_split in Hts as (pre & tz & -> & HtzSP & ->).
  rewrite take_app_length, drop_S_app_cons.
  destruct (bytes_LastIndexByte pre SP) as [uEnd|] eqn:Hu; [|done].
  apply bytes_LastIndexByte_split in Hu as (ub & ts & -> & HtsSP & ->).
  rewrite drop_S_app_cons.
  destruct (strconv_ParseInt ts) as [sec [err|] ] eqn:Hsec; [done|].
  destruct (parseTZOffset tz) as [zone|err] eqn:Hzone; [|done].
  intros [= <- <- <-]. exists ts, tz, sec, zone.
  assert (take (length ub) ((ub ++ SP :: ts) ++ SP :: tz) = ub) as ->
    by (rewrite <- app_assoc; apply take_app_length).
  unfold contains_LF. rewrite list_ascii_of_string_of_list.
  split_and!; [by rewrite <- !app_assoc | | done..].
  rewrite !not_elem_of_app in HLF. tauto.
Qed.

Lemma consumeUser_Some (src : bytes) (u : User) (t : Time) (tail : bytes) (e : error) :
  consumeUser src = (u, t, tail, Some e) -> u = ""%string /\ t = Time_zero /\ tail = src.
Proof.
  unfold consumeUser.
  repeat (case_match; try (by intros [= <- <- <-])); done.
Qed.

(** X4: [consumeUser] accepts exactly a line [<user> <seconds> <zone>]
    ended by LF, found from the right: the zone is what follows the last
    space of the line and the seconds what lies between the last two
    spaces, so the user may hold spaces itself, but no LF.  The time it
    returns is the whole second [seconds] in the zone that
    [parseTZOffset] makes.  When it fails it returns the empty user,
    the zero time and the source whole. *)
Theorem consumeUser_iff (src : bytes) (u : User) (t : Time) (tail : bytes) :
  (consumeUser src = (u, t, tail, None) <->
   exists ts tz sec zone,
     src = list_ascii_of_string u ++ [SP] ++ ts ++ [SP] ++ tz ++ [LF] ++ tail
     /\ ~ contains_LF u
     /\ strconv_ParseInt ts = (sec, None)
     /\ parseTZOffset tz = Ok zone
     /\ t = mkTime sec 0 zone)
  /\ (forall e, consumeUser src = (u, t, tail, Some e) ->
      u = ""%string /\ t = Time_zero /\ tail = src).
Proof.
  split; [split|].
  - apply consumeUser_None.
  - intros (ts & tz & sec & zone & -> & Hu & Hsec & Hzone & ->).
    by apply consumeUser_fields.
  - intros e. apply consumeUser_Some.
Qed.

(** *** Signatures *)

Definition err_signature_eof : error := Wrapf "parse signature: %w" [] io_ErrUnexpectedEOF.

(** What the loop of [consumeSignature] has read when it stops: folded
    lines, up to a byte that is no space or, on the error, to a last
    line that has no end. *)
Lemma consumeSignature_loop_inv (fuel : nat) :
  forall (sig tail sig' tail' : bytes) (e : option error),
    (length tail <= fuel)%nat ->
    consumeSignature_loop fuel sig tail = (sig', tail', e) ->
    exists lines,
      tail = folded_lines lines ++ tail'
      /\ Forall (fun l => LF ∉ l) lines
      /\ sig' = sig ++ join_lines lines
      /\ match e with
         | None => head tail' <> Some SP
         | Some e => e = err_signature_eof /\ head tail' = Some SP /\ (LF ∉ tail')
         end.
Proof.
  assert (forall (sig tail : bytes) (P : Prop), P ->
            exists lines,
              tail = folded_lines lines ++ tail
              /\ Forall (fun l => LF ∉ l) lines
              /\ sig = sig ++ join_lines lines /\ P) as Hstop.
  { intros sig tail P HP. exists [].
    change (join_lines []) with (@nil ascii). by rewrite app_nil_r. }
  induction fuel as [|fuel IH]; intros sig tail sig' tail' e Hfuel.
  - destruct tail; [|simpl in Hfuel; lia]. intros [= <- <- <-]. by apply Hstop.
  - destruct tail as [|c tail].
    { intros [= <- <- <-]. by apply Hstop. }
    cbn [consumeSignature_loop].
    destruct (Ascii.eqb_spec c SP) as [->|Hc].
    + destruct (bytes_IndexByte (SP :: tail) LF) as [i|] eqn:Hi.
      * apply bytes_IndexByte_split in Hi as (line & rest & Hsplit & HLF & ->).
        destruct line as [|c' line]; [done|].
        injection Hsplit as <- ->. apply not_elem_of_cons in HLF as [_ HLF].
        change (SP :: line ++ LF :: rest) with ((SP :: line) ++ LF :: rest).
        rewrite take_S_app_cons, drop_S_app_cons. cbn [drop app]. rewrite ?drop_0.
        intros (lines & -> & Hlines & -> & He)%IH.
        2:{ simpl in Hfuel. rewrite length_app in Hfuel. simpl in Hfuel. lia. }
        exists (line :: lines). rewrite folded_lines_cons, join_lines_cons.
        split_and!; [by list_norm | by constructor | by list_norm | done].
      * intros [= <- <- <-]. apply Hstop.
        split_and!; try done. by apply bytes_IndexByte_None.
    + intros [= <- <- <-]. apply Hstop. simpl. congruence.
Qed.

Lemma consumeSignature_inv (src sig tail : bytes) (e : option error) :
  consumeSignature src = (sig, tail, e) ->
  match e with
  | None =>
      exists l lines,
        src = l ++ [LF] ++ folded_lines lines ++ tail
        /\ (LF ∉ l) /\ Forall (fun l => LF ∉ l) lines
        /\ head tail <> Some SP
        /\ sig = join_lines (l :: lines)
  | Some e =>
      e = err_signature_eof /\ (LF ∉ tail)
      /\ ((sig = [] /\ tail = src)
          \/ exists l lines,
               src = l ++ [LF] ++ folded_lines lines ++ tail
               /\ (LF ∉ l) /\ Forall (fun l => LF ∉ l) lines
               /\ head tail = Some SP
               /\ sig = join_lines (l :: lines))
  end.
Proof.
  unfold consumeSignature.
  destruct (bytes_IndexByte src LF) as [i|] eqn:Hi.
  - apply bytes_IndexByte_split in Hi as (l & rest & -> & HLF & ->).
    rewrite take_S_app_cons, drop_S_app_cons.
    intros (lines & -> & Hlines & -> & He)%consumeSignature_loop_inv; [|done].
    destruct e as [e|].
    + destruct He as (-> & Hhead & Hno). split_and!; [done..|].
      right. exists l, lines. rewrite join_lines_cons. by list_norm.
    + exists l, lines. rewrite join_lines_cons. by list_norm.
  - intros [= <- <- <-]. split_and!; [done | by apply bytes_IndexByte_None | by left].
Qed.

(** X5: [consumeSignature] accepts exactly a first line ended by LF
    followed by any number of lines that start with a space and end
    with LF; it stops before the first line that does not start with a
    space, and the signature is the lines without the leading spaces,
    each with its LF.  Its only error is [io.ErrUnexpectedEOF], wrapped,
    on a last line without LF: no line at all gives back the empty
    signature and the source whole, a later one the lines read so far
    and the unended line. *)
Theorem consumeSignature_iff (src sig tail : bytes) :
  (consumeSignature src = (sig, tail, None) <->
   exists l lines,
     src = l ++ [LF] ++ folded_lines lines ++ tail
     /\ (LF ∉ l) /\ Forall (fun l => LF ∉ l) lines
     /\ head tail <> Some SP
     /\ sig = join_lines (l :: lines))
  /\ (forall e,
        consumeSignature src = (sig, tail, Some e) ->
        e = err_signature_eof /\ (LF ∉ tail)
        /\ ((sig = [] /\ tail = src)
            \/ exists l lines,
                 src = l ++ [LF] ++ folded_lines lines ++ tail
                 /\ (LF ∉ l) /\ Forall (fun l => LF ∉ l) lines
                 /\ head tail = Some SP
                 /\ sig = join_lines (l :: lines))).
Proof.
  split; [split|].
  - apply (consumeSignature_inv src sig tail None).
  - intros (l & lines & -> & HLF & Hlines & Hhead & ->).
    by apply consumeSignature_folded.
  - intros e. apply (consumeSignature_inv src sig tail (Some e)).
Qed.

(** ** What [ParseCommit] accepts *)

(** The [parent] lines of the ids written in hexadecimal as [phs]. *)
Definition parent_text (phs : list bytes) : bytes :=
  concat ((fun h => B "parent " ++ h ++ [LF]) <$> phs).

(** The line [<key><user> <seconds> <zone>]. *)
Definition user_text (key : string) (u : User) (ts tz : bytes) : bytes :=
  B key ++ list_ascii_of_string u ++ [SP] ++ ts ++ [SP] ++ tz ++ [LF].

(** The seconds [ts] and the zone [tz] of a user line denote [t]. *)
Definition reads_time (ts tz : bytes) (t : Time) : Prop :=
  strconv_ParseInt ts = (unix_sec t, None) /\ nsec t = 0 /\ parseTZOffset tz = Ok (loc t).

(** The text of a commit object that denotes [c]: the tree, the parents,
    the author and the committer, the signature folded under [gpgsig] if
    there is one, a blank line and the message. *)
Definition commit_text (data : bytes) (c : Commit) : Prop :=
  exists (th : bytes) (phs : list bytes) (ats atz cts ctz : bytes) (lines : list bytes),
    data = B "tree " ++ th ++ [LF] ++ parent_text phs
             ++ user_text "author " (Author c) ats atz
             ++ user_text "committer " (Committer c) cts ctz
             ++ gpgsig_header lines ++ [LF] ++ list_ascii_of_string (Message c)
    /\ hex_denotes th (Tree c) /\ length (Tree c) = SHA1Size
    /\ Forall2 hex_denotes phs (Parents c)
    /\ Forall (fun p => length p = SHA1Size) (Parents c)
    /\ ~ contains_LF (Author c) /\ reads_time ats atz (AuthorTime c)
    /\ ~ contains_LF (Committer c) /\ reads_time cts ctz (CommitTime c)
    /\ Forall (fun l => LF ∉ l) lines /\ GPGSignature c = join_lines lines.

Lemma parent_text_cons (h : bytes) (phs : list bytes) :
  parent_text (h :: phs) = B "parent " ++ h ++ [LF] ++ parent_text phs.
Proof. unfold parent_text. simpl. by list_norm. Qed.

Lemma set_Parents_app (c : Commit) (p : SHA1) (ps : list SHA1) :
  set_Parents (set_Parents c (Parents c ++ [p]))
              (Parents (set_Parents c (Parents c ++ [p])) ++ ps)
  = set_Parents c (Parents c ++ p :: ps).
Proof. unfold set_Parents. simpl. by rewrite <- app_assoc. Qed.

(** What the [parent] loop has read when it ends without error. *)
Lemma UnmarshalText_parents_inv (fuel : nat) :
  forall (i : Z) (c : Commit) (data : bytes) (c' : Commit) (data' : bytes),
    (length data <= fuel)%nat ->
    UnmarshalText_parents fuel i c data = (c', data', None) ->
    exists phs ps,
      data = parent_text phs ++ data'
      /\ Forall2 hex_denotes phs ps
      /\ Forall (fun p => length p = SHA1Size) ps
      /\ c' = set_Parents c (Parents c ++ ps)
      /\ ~ (exists r, data' = B "parent " ++ r).
Proof.
  induction fuel as [|fuel IH]; intros i c data c' data' Hfuel.
  - destruct data; [|simpl in Hfuel; lia]. intros [= <- <-].
    exists [], []. rewrite set_Parents_id. split_and!; try done. by intros [r ?].
  - cbn [UnmarshalText_parents].
    destruct (consumeString data "parent ") as [d1 [|]] eqn:H1.
    + apply consumeString_length in H1 as Hl1. apply consumeString_true in H1 as ->.
      destruct (consumeHex SHA1_zero d1) as [[p d2] [e|]] eqn:H2; [done|].
      apply consumeHex_length in H2 as Hl2.
      apply consumeHex_None in H2 as (h & -> & Hp & Hden).
      destruct (consumeString d2 (String LF "")) as [d3 [|]] eqn:H3; [|done].
      apply consumeString_length in H3 as Hl3. apply consumeString_true in H3 as ->.
      intros (phs & ps & -> & Hphs & Hps & -> & Hstop)%IH.
      2:{ rewrite !length_app in Hfuel. simpl in Hfuel. lia. }
      exists (h :: phs), (p :: ps). rewrite parent_text_cons, set_Parents_app.
      split_and!; [by list_norm | by constructor | by constructor | done | done].
    + apply consumeString_false in H1 as [-> Hstop]. intros [= <- <-].
      exists [], []. by rewrite set_Parents_id.
Qed.

Lemma reads_time_Unix_In (ts tz : bytes) (sec : Z) (zone : Location) :
  strconv_ParseInt ts = (sec, None) -> parseTZOffset tz = Ok zone ->
  reads_time ts tz (mkTime sec 0 zone).
Proof. by intros Hsec Hzone. Qed.

(** Every text that [ParseCommit] accepts is the text of the commit it
    returns. *)
Lemma ParseCommit_commit_text (data : bytes) (c : Commit) :
  ParseCommit data = (c, None) -> commit_text data c.
Proof.
  unfold ParseCommit, Commit_UnmarshalText.
  destruct (consumeString data "tree ") as [d1 [|]] eqn:H1; [|done].
  apply consumeString_true in H1 as ->. cbv zeta.
  destruct (consumeHex (Tree Commit_zero) d1) as [[tree d2] [e|]] eqn:H2; [done|].
  apply consumeHex_None in H2 as (th & -> & Htree & Hth).
  destruct (consumeString d2 (String LF "")) as [d3 [|]] eqn:H3; [|done].
  apply consumeString_true in H3 as ->.
  destruct (UnmarshalText_parents _ 0 _ d3) as [[c1 d4] [e|]] eqn:H4; [done|].
  apply UnmarshalText_parents_inv in H4 as (phs & ps & -> & Hphs & Hps & -> & _); [|done].
  destruct (consumeString d4 "author ") as [d5 [|]] eqn:H5; [|done].
  apply consumeString_true in H5 as ->.
  destruct (consumeUser d5) as [[[au at_] d6] [e|]] eqn:H6; [done|].
  apply consumeUser_None in H6 as (ats & atz & asec & azone & -> & Hau & Hasec & Hazone & ->).
  destruct (consumeString d6 "committer ") as [d7 [|]] eqn:H7; [|done].
  apply consumeString_true in H7 as ->.
  destruct (consumeUser d7) as [[[cu ct] d8] [e|]] eqn:H8; [done|].
  apply consumeUser_None in H8 as (cts & ctz & csec & czone & -> & Hcu & Hcsec & Hczone & ->).
  destruct (consumeString d8 "gpgsig ") as [d9 [|]] eqn:H9.
  - apply consumeString_true in H9 as ->.
    destruct (consumeSignature d9) as [[sig d10] [e|]] eqn:H10; [done|].
    apply (consumeSignature_inv _ _ _ None) in H10
      as (l & lines & -> & Hl & Hlines & _ & ->).
    destruct (consumeString d10 (String LF "")) as [d11 [|]] eqn:H11; [|done].
    apply consumeString_true in H11 as ->. intros [= <-].
    exists th, phs, ats, atz, cts, ctz, (l :: lines).
    cbn [Tree Parents Author AuthorTime Committer CommitTime GPGSignature Message
         set_Tree set_Parents set_Author set_Committer set_GPGSignature set_Message
         Commit_zero app].
    rewrite list_ascii_of_string_of_list.
    split_and!; try done; try (by constructor).
    unfold user_text, gpgsig_header, gpgSignaturePrefix.
    rewrite folded_lines_cons. by list_norm.
  - apply consumeString_false in H9 as [-> _].
    destruct (consumeString d8 (String LF "")) as [d11 [|]] eqn:H11; [|done].
    apply consumeString_true in H11 as ->. intros [= <-].
    exists th, phs, ats, atz, cts, ctz, [].
    cbn [Tree Parents Author AuthorTime Committer CommitTime GPGSignature Message
         set_Tree set_Parents set_Author set_Committer set_GPGSignature set_Message
         Commit_zero app].
    rewrite list_ascii_of_string_of_list.
    split_and!; try done.
    unfold user_text, gpgsig_header. by list_norm.
Qed.

Definition fromHexChar_complete_at (c : ascii) (a : Z) : bool :=
  implb (Ascii.eqb (hex_lower c) (hex_digit a))
        (bool_decide (fromHexChar c = Some a)).

Lemma fromHexChar_complete_all :
  forallb (fun n => forallb (fun a => fromHexChar_complete_at (ascii_of_nat n) (Z.of_nat a))
                            (seq 0 16))
          (seq 0 256) = true.
Proof. vm_compute. reflexivity. Qed.

(** A byte whose lowercase form is a digit of the table is read as that
    digit. *)
Lemma fromHexChar_of_lower (c : ascii) (a : Z) :
  0 <= a < 16 -> hex_lower c = hex_digit a -> fromHexChar c = Some a.
Proof.
  intros Ha Hc. pose proof fromHexChar_complete_all as Hall.
  rewrite forallb_forall in Hall. specialize (Hall (nat_of_ascii c)).
  rewrite ascii_nat_embedding in Hall.
  assert (In (nat_of_ascii c) (seq 0 256)) as Hin
    by (apply in_seq; pose proof (nat_ascii_bounded c); lia).
  apply Hall in Hin. rewrite forallb_forall in Hin. specialize (Hin (Z.to_nat a)).
  rewrite Z2Nat.id in Hin by lia.
  assert (In (Z.to_nat a) (seq 0 16)) as Hin' by (apply in_seq; lia).
  apply Hin in Hin'. unfold fromHexChar_complete_at in Hin'.
  rewrite Hc, Ascii.eqb_refl in Hin'. simpl in Hin'. by apply bool_decide_eq_true in Hin'.
Qed.

Lemma hex_Decode_from_denotes (dec : bytes) : forall (h : bytes) (i : nat) (dst : bytes),
  hex_Encode dec = hex_lower <$> h ->
  (i + length dec <= length dst)%nat ->
  hex_Decode_from i dst h
  = (take i dst ++ dec ++ drop (i + length dec) dst, (i + length dec)%nat, None).
Proof.
  induction dec as [|c dec IH]; intros h i dst Henc Hlen.
  - destruct h; [|done]. simpl. by rewrite Nat.add_0_r, take_drop.
  - destruct h as [|x [|y h]]; try done.
    cbn [hex_Encode flat_map fmap list_fmap app] in Henc.
    injection Henc as Hx Hy Henc. pose proof (byte_val_range c) as Hc.
    cbn [hex_Decode_from].
    rewrite (fromHexChar_of_lower x (byte_val c / 16)); [|
      split; [apply Z.div_pos | apply Z.div_lt_upper_bound]; lia | done].
    rewrite (fromHexChar_of_lower y (byte_val c mod 16)); [|
      apply Z.mod_pos_bound; lia | done].
    replace (byte_val c / 16 * 16 + byte_val c mod 16) with (byte_val c)
      by (pose proof (Z.div_mod (byte_val c) 16); lia).
    rewrite byte_of_val. simpl in Hlen.
    rewrite (IH h) by (done || rewrite length_insert; lia).
    rewrite take_insert_lt by lia. rewrite drop_insert_lt by lia.
    rewrite insert_take_drop by (rewrite length_take; lia).
    rewrite take_take, Nat.min_l by lia.
    rewrite (drop_ge (take (S i) dst)) by (rewrite length_take; lia).
    rewrite <- app_assoc. simpl.
    by replace (i + S (length dec))%nat with (S (i + length dec)) by lia.
Qed.

(** Digits that denote an array of the size of [dst] are decoded into
    it. *)
Lemma consumeHex_denotes (dst h id rest : bytes) :
  hex_denotes h id -> length id = length dst ->
  consumeHex dst (h ++ rest) = (id, rest, None).
Proof.
  intros [Hh Henc] Hlen. unfold consumeHex, hex_EncodedLen.
  rewrite length_app, <- Hlen, <- Hh.
  destruct (Nat.ltb_spec (length h + length rest) (length h)) as [?|_]; [lia|].
  rewrite take_app_length, drop_app_length. unfold hex_Decode.
  rewrite (hex_Decode_from_denotes id) by (done || lia).
  simpl. rewrite drop_ge by lia. by rewrite app_nil_r.
Qed.

Lemma length_parent_text (phs : list bytes) :
  (length phs <= length (parent_text phs))%nat.
Proof.
  induction phs as [|h phs IH]; [done|].
  rewrite parent_text_cons, !length_app. simpl. lia.
Qed.

Lemma UnmarshalText_parents_text (phs : list bytes) (ps : list SHA1) :
  Forall2 hex_denotes phs ps ->
  Forall (fun p => length p = SHA1Size) ps ->
  forall (fuel : nat) (i : Z) (c : Commit) (rest : bytes),
    (length phs < fuel)%nat ->
    consumeString rest "parent " = (rest, false) ->
    UnmarshalText_parents fuel i c (parent_text phs ++ rest)
    = (set_Parents c (Parents c ++ ps), rest, None).
Proof.
  induction 1 as [|h p phs ps Hh Hphs IH]; intros Hps fuel i c rest Hfuel Hrest.
  - destruct fuel; [simpl in Hfuel; lia|]. simpl. by rewrite Hrest, set_Parents_id.
  - destruct fuel; [lia|]. inversion_clear Hps as [|? ? Hp Hps'].
    assert (parent_text (h :: phs) ++ rest
            = B "parent " ++ (h ++ (LF :: (parent_text phs ++ rest)))) as ->.
    { rewrite parent_text_cons. by rewrite <- !app_assoc. }
    cbn [UnmarshalText_parents].
    rewrite consumeString_app, (consumeHex_denotes _ h p) by done.
    rewrite consumeString_LF.
    rewrite IH by (done || simpl in Hfuel; lia).
    by rewrite set_Parents_app.
Qed.

Lemma reads_time_eq (ts tz : bytes) (t : Time) :
  reads_time ts tz t ->
  strconv_ParseInt ts = (unix_sec t, None) /\ parseTZOffset tz = Ok (loc t)
  /\ time_Unix_In (unix_sec t) (loc t) = t.
Proof. intros (? & ? & ?). destruct t. simpl in *. by subst. Qed.

(** Every text of a commit is read as that commit. *)
Lemma commit_text_UnmarshalText (recv : Commit) (data : bytes) (c : Commit) :
  commit_text data c -> Commit_UnmarshalText recv data = (c, None).
Proof.
  intros (th & phs & ats & atz & cts & ctz & lines & -> & Hth & Htree & Hphs & Hps
          & Hau & (Hasec & Hazone & Hat)%reads_time_eq
          & Hcu & (Hcsec & Hczone & Hct)%reads_time_eq & Hlines & Hsig).
  unfold Commit_UnmarshalText, user_text.
  rewrite consumeString_app. cbv zeta. simpl (Tree Commit_zero).
  rewrite <- !app_assoc.
  rewrite (consumeHex_denotes _ th (Tree c)) by done.
  rewrite consumeString_LF_app.
  rewrite (UnmarshalText_parents_text phs (Parents c)); [|done|done| |].
  2:{ rewrite !length_app. pose proof (length_parent_text phs). simpl. lia. }
  2:{ apply (consumeString_mismatch "a" "p"). done. }
  rewrite consumeString_app.
  rewrite (consumeUser_fields (Author c) ats atz _ _ _ Hau Hasec Hazone).
  rewrite consumeString_app.
  rewrite (consumeUser_fields (Committer c) cts ctz _ _ _ Hcu Hcsec Hczone).
  rewrite Hat, Hct.
  destruct lines as [|l lines].
  - simpl gpgsig_header. rewrite app_nil_l.
    change ([LF] ++ list_ascii_of_string (Message c))
      with (LF :: list_ascii_of_string (Message c)).
    rewrite (consumeString_mismatch LF "g") by done.
    rewrite consumeString_LF, list_ascii_of_string_inv.
    destruct c. simpl in *. by subst.
  - inversion_clear Hlines as [|? ? Hl Hlines'].
    assert (gpgsig_header (l :: lines) ++ [LF] ++ list_ascii_of_string (Message c)
            = B "gpgsig " ++ l ++ [LF] ++ folded_lines lines
                ++ LF :: list_ascii_of_string (Message c)) as ->.
    { unfold gpgsig_header, gpgSignaturePrefix. rewrite folded_lines_cons. by list_norm. }
    rewrite consumeString_app.
    rewrite consumeSignature_folded by (done || simpl; congruence).
    rewrite consumeString_LF, list_ascii_of_string_inv.
    destruct c. simpl in *. by subst.
Qed.

(** X6: [ParseCommit] accepts exactly the texts of commits, and returns
    the commit that the text denotes: a [tree] line, any number of
    [parent] lines, the [author] and [committer] lines, an optional
    folded [gpgsig] header, a blank line and the message.  Ids are 40
    hexadecimal digits in either case; the seconds are what
    [strconv.ParseInt] reads and the zone what [parseTZOffset] reads. *)
Theorem ParseCommit_iff (data : bytes) (c : Commit) :
  ParseCommit data = (c, None) <-> commit_text data c.
Proof.
  split; [apply ParseCommit_commit_text | apply commit_text_UnmarshalText].
Qed.

(** ** Parsed commits are emitted and hashed *)

Lemma commit_text_typed (data : bytes) (c : Commit) :
  commit_text data c ->
  Commit_typed c /\ well_formed_Commit c
  /\ nsec (AuthorTime c) = 0 /\ nsec (CommitTime c) = 0.
Proof.
  intros (th & phs & ats & atz & cts & ctz & lines & _ & _ & Htree & _ & Hps
          & Hau & (Hasec & Han & _) & Hcu & (Hcsec & Hcn & _) & Hlines & Hsig).
  apply strconv_ParseInt_None in Hasec as [Hasec _], Hcsec as [Hcsec _].
  unfold Commit_typed, Time_typed, well_formed_Commit. rewrite Han, Hcn.
  split_and!; try done; try lia. intros _. by exists lines.
Qed.

Lemma well_formed_MarshalText (c : Commit) :
  well_formed_Commit c ->
  exists s, Commit_MarshalText c = Ok s /\ Commit_SHA1 c = Returned (framed_SHA1 s).
Proof.
  intros (HA & HC & Hsig). rewrite Commit_SHA1_of_MarshalText.
  destruct (Commit_MarshalText c) as [s|e] eqn:Hemit; [by exists s|].
  destruct (proj1 (Commit_MarshalText_fails_iff c)) as [[?|?]|[Hne Hbad]];
    [by exists e | done | done | by destruct Hbad; apply Hsig].
Qed.

(** A commit text with ids in capital digits, a signed timestamp, a
    user that holds spaces and a signature of two lines. *)
Definition sample_text : bytes :=
  B "tree " ++ replicate 40 "A"%char ++ [LF]
    ++ B "parent " ++ replicate 40 "b"%char ++ [LF]
    ++ B "author Alice  Liddell <a@e> +1578610200 -0800" ++ [LF]
    ++ B "committer Bob <b@e> 1578610201 +0530" ++ [LF]
    ++ B "gpgsig -----BEGIN" ++ [LF] ++ B " -----END" ++ [LF]
    ++ [LF] ++ B "Subject" ++ [LF] ++ [LF] ++ B "Body." ++ [LF].

Definition sample_commit : Commit :=
  mkCommit (replicate 20 (ascii_of_nat 170)) [replicate 20 (ascii_of_nat 187)]
           "Alice  Liddell <a@e>" (mkTime 1578610200 0 (FixedZone "-0800" (-28800)))
           "Bob <b@e>" (mkTime 1578610201 0 (FixedZone "+0530" 19800))
           (B "-----BEGIN" ++ [LF] ++ B "-----END" ++ [LF])
           (String.append "Subject" (String LF (String LF (String.append "Body." (String LF ""))))).

Example ParseCommit_sample : ParseCommit sample_text = (sample_commit, None).
Proof. vm_compute. reflexivity. Qed.

(** X7: a commit that [ParseCommit] returned without error is always
    serialized, and [SHA1] on it never panics: it returns the SHA-1 of
    the framed serialization. *)
Theorem ParseCommit_then_SHA1 (data : bytes) (c : Commit) :
  ParseCommit data = (c, None) ->
  exists s, Commit_MarshalText c = Ok s /\ Commit_SHA1 c = Returned (framed_SHA1 s).
Proof.
  intros (_ & Hwf & _)%ParseCommit_commit_text%commit_text_typed.
  by apply well_formed_MarshalText.
Qed.

Lemma ParseCommit_then_SHA1_witness :
  exists s,
    Commit_MarshalText sample_commit = Ok s
    /\ Commit_SHA1 sample_commit = Returned (framed_SHA1 s).
Proof.
  apply (ParseCommit_then_SHA1 sample_text sample_commit).
  vm_compute. reflexivity.
Defined.

Lemma typed_wire_commit_reparsed (c : Commit) :
  Commit_typed c -> well_formed_Commit c ->
  wire_time (AuthorTime c) -> wire_time (CommitTime c) ->
  exists s, Commit_MarshalText c = Ok s /\ ParseCommit s = (c, None).
Proof.
  intros (Htree & Hps & [Haz _] & [Hcz _]) (HA & HC & Hsig) [Han Hal] [Hcn Hcl].
  destruct (Commit_MarshalText_cases c) as
    [(HA' & _)|[(_ & HC' & _)|[(_ & _ & Hne & Hbad & _)|(_ & _ & lines & Hl & Hlines & Hemit)]]];
    [done | done | by destruct Hbad; apply Hsig |].
  eexists. split; [exact Hemit|]. unfold ParseCommit.
  destruct c as [tree ps au [az an al] cu [cz cn cl] sig msg].
  cbn [Tree Parents Author AuthorTime Committer CommitTime GPGSignature Message
       nsec loc unix_sec] in *.
  subst an cn sig. unfold commit_header.
  cbn [Tree Parents Author AuthorTime Committer CommitTime GPGSignature Message].
  rewrite <- !app_assoc. by apply UnmarshalText_emitted.
Qed.

(** X8: parsing, emitting and parsing again gives the same commit when
    the two zones of the text are written as the layout [-0700] writes
    them, that is, when the name of each parsed zone is the rendering
    of its offset. *)
Theorem ParseCommit_MarshalText_stable (data : bytes) (c : Commit) :
  ParseCommit data = (c, None) ->
  numeric_zone (loc (AuthorTime c)) -> numeric_zone (loc (CommitTime c)) ->
  exists s, Commit_MarshalText c = Ok s /\ ParseCommit s = (c, None).
Proof.
  intros (Htyped & Hwf & Han & Hcn)%ParseCommit_commit_text%commit_text_typed Hal Hcl.
  by apply typed_wire_commit_reparsed.
Qed.

Lemma ParseCommit_MarshalText_stable_witness :
  exists s, Commit_MarshalText sample_commit = Ok s /\ ParseCommit s = (sample_commit, None).
Proof.
  apply (ParseCommit_MarshalText_stable sample_text sample_commit).
  - vm_compute. reflexivity.
  - split; [split; [reflexivity | split; reflexivity] | reflexivity].
  - split; [split; [reflexivity | split; reflexivity] | reflexivity].
Defined.

(** The zone [-0000] is read but written back as [+0000], and minutes
    above 59 are read but written back carried into the hours: such a
    text does not parse to the commit it came from after one more turn. *)
Definition text_in_zone (tz : string) : bytes :=
  B "tree " ++ replicate 40 "0"%char ++ [LF]
    ++ B "author A 0 " ++ B tz ++ [LF] ++ B "committer A 0 +0000" ++ [LF] ++ [LF].

Example minus_zero_zone_is_rewritten :
  exists c s c',
    ParseCommit (text_in_zone "-0000") = (c, None)
    /\ Commit_MarshalText c = Ok s /\ s = text_in_zone "+0000"
    /\ ParseCommit s = (c', None) /\ c' <> c.
Proof. eexists _, _, _. split_and!; [vm_compute; reflexivity..|done]. Qed.

Example wide_minutes_are_carried :
  exists c s c',
    ParseCommit (text_in_zone "+0090") = (c, None)
    /\ Commit_MarshalText c = Ok s /\ s = text_in_zone "+0130"
    /\ ParseCommit s = (c', None) /\ c' <> c.
Proof. eexists _, _, _. split_and!; [vm_compute; reflexivity..|done]. Qed.

(** ** The first line of the message *)

(** X9: [Summary] is the message up to its first LF, the LF left out:
    it holds no LF, the message continues it with nothing or with an
    LF, and a message without LF is its own summary. *)
Theorem Commit_Summary_first_line (c : Commit) :
  ~ contains_LF (Commit_Summary c)
  /\ (exists rest,
        list_ascii_of_string (Message c)
        = list_ascii_of_string (Commit_Summary c) ++ rest
        /\ (rest = [] \/ head rest = Some LF))
  /\ (~ contains_LF (Message c) -> Commit_Summary c = Message c).
Proof.
  unfold Commit_Summary, contains_LF.
  destruct (bytes_IndexByte (list_ascii_of_string (Message c)) LF) as [i|] eqn:Hi.
  - apply bytes_IndexByte_split in Hi as (l & r & Hmsg & HLF & ->).
    rewrite Hmsg, take_app_length, list_ascii_of_string_of_list.
    split_and!; [done | exists (LF :: r); auto |].
    intros Hno. destruct Hno. rewrite elem_of_app, elem_of_cons. auto.
  - apply bytes_IndexByte_None in Hi.
    split_and!; [done | exists []; rewrite app_nil_r; auto | done].
Qed.

(** ** Names and e-mail addresses *)

Section user_properties.

Variable strings_TrimSpace : string -> string.

Lemma strings_HasSuffix_one (u : string) (c : ascii) :
  strings_HasSuffix u (String c "") = true <->
  exists l, list_ascii_of_string u = l ++ [c].
Proof.
  unfold strings_HasSuffix. cbn [list_ascii_of_string length].
  set (ub := list_ascii_of_string u). split.
  - intros [Hlen%Nat.leb_le Heq%bytes_Equal_spec]%andb_true_iff.
    exists (take (length ub - 1) ub). by rewrite <- Heq, take_drop.
  - intros [l ->]. rewrite length_app. cbn [length].
    apply andb_true_iff. split; [apply Nat.leb_le; lia|].
    apply bytes_Equal_spec.
    replace (length l + 1 - 1)%nat with (length l) by lia.
    by rewrite drop_app_length.
Qed.

(** The user [name <email>]: the name, the address between the last
    [<] and the closing [>]. *)
Lemma User_split_bracketed (n e : bytes) :
  "<"%char ∉ e ->
  User_split strings_TrimSpace (string_of_list_ascii (n ++ ["<"%char] ++ e ++ [">"%char]))
  = Returned (strings_TrimSpace (string_of_list_ascii n), string_of_list_ascii e).
Proof.
  intros He. unfold User_split.
  rewrite (proj2 (strings_HasSuffix_one _ ">")).
  2:{ exists (n ++ ["<"%char] ++ e). rewrite list_ascii_of_string_of_list. by list_norm. }
  cbn [negb]. rewrite list_ascii_of_string_of_list.
  assert (n ++ ["<"%char] ++ e ++ [">"%char] = n ++ "<"%char :: (e ++ [">"%char])) as ->
    by done.
  rewrite bytes_LastIndexByte_app.
  2:{ rewrite not_elem_of_app, not_elem_of_cons. split_and!; [done..|apply not_elem_of_nil]. }
  assert (length (n ++ "<"%char :: e ++ [">"%char]) - 1 = length (n ++ "<"%char :: e))%nat
    as -> by (rewrite !length_app; cbn [length]; rewrite length_app; simpl; lia).
  destruct (Nat.ltb_spec (length (n ++ "<"%char :: e)) (S (length n))) as [Hlt|_].
  { rewrite length_app in Hlt. simpl in Hlt. lia. }
  rewrite take_app_length.
  assert (n ++ "<"%char :: e ++ [">"%char] = (n ++ "<"%char :: e) ++ [">"%char]) as ->
    by (by list_norm).
  by rewrite take_app_length, drop_S_app_cons.
Qed.

(** X10: [split] never panics.  A user that ends with [>] and holds a
    [<] is split at its last [<]: the address is what lies between and
    holds no [<], the name what comes before, trimmed; every other user
    is all name, trimmed, with the empty address. *)
Theorem User_split_spec (u : User) :
  (exists name email,
     User_split strings_TrimSpace u = Returned (name, email)
     /\ User_Name strings_TrimSpace u = Returned name
     /\ User_Email strings_TrimSpace u = Returned email
     /\ "<"%char ∉ list_ascii_of_string email)
  /\ (forall n e : bytes,
        list_ascii_of_string u = n ++ ["<"%char] ++ e ++ [">"%char] -> ("<"%char ∉ e) ->
        User_split strings_TrimSpace u
        = Returned (strings_TrimSpace (string_of_list_ascii n), string_of_list_ascii e))
  /\ ((~ exists l, list_ascii_of_string u = l ++ [">"%char])
      \/ ("<"%char ∉ list_ascii_of_string u) ->
      User_split strings_TrimSpace u = Returned (strings_TrimSpace u, ""%string)).
Proof.
  assert (forall n e : bytes,
            list_ascii_of_string u = n ++ ["<"%char] ++ e ++ [">"%char] -> ("<"%char ∉ e) ->
            User_split strings_TrimSpace u
            = Returned (strings_TrimSpace (string_of_list_ascii n), string_of_list_ascii e))
    as Hbracketed.
  { intros n e Hu He. rewrite <- (list_ascii_of_string_inv u), Hu.
    by apply User_split_bracketed. }
  assert ((~ exists l, list_ascii_of_string u = l ++ [">"%char])
          \/ ("<"%char ∉ list_ascii_of_string u) ->
          User_split strings_TrimSpace u = Returned (strings_TrimSpace u, ""%string))
    as Hplain.
  { intros Hu. unfold User_split.
    destruct (strings_HasSuffix u ">") eqn:Hsuffix; [|done]. cbn [negb].
    destruct Hu as [Hu|Hu].
    - destruct Hu. by apply strings_HasSuffix_one.
    - by rewrite bytes_LastIndexByte_None. }
  split_and!; [|done..].
  destruct (strings_HasSuffix u ">") eqn:Hsuffix.
  - apply strings_HasSuffix_one in Hsuffix as [l Hu].
    destruct (bytes_LastIndexByte l "<") as [i|] eqn:Hi.
    + apply bytes_LastIndexByte_split in Hi as (n & e & -> & He & _).
      assert (list_ascii_of_string u = n ++ ["<"%char] ++ e ++ [">"%char]) as Hu'
        by (rewrite Hu; by list_norm).
      unfold User_Name, User_Email. rewrite (Hbracketed n e Hu' He).
      eexists _, _. split_and!; [done..|]. by rewrite list_ascii_of_string_of_list.
    + apply bytes_LastIndexByte_notin in Hi.
      unfold User_Name, User_Email. rewrite Hplain.
      * eexists _, _. split_and!; [done..|]. apply not_elem_of_nil.
      * right. rewrite Hu, not_elem_of_app, not_elem_of_cons.
        split_and!; [done..|apply not_elem_of_nil].
  - unfold User_Name, User_Email. rewrite Hplain.
    + eexists _, _. split_and!; [done..|]. apply not_elem_of_nil.
    + left. intros Hl. apply strings_HasSuffix_one in Hl. congruence.
Qed.

End user_properties.

(** ** What [MarshalText] writes *)

(** X21: [MarshalText] succeeds exactly on the commits whose author and
    committer hold no LF and whose signature is made of LF-terminated
    lines, and then writes the [tree] line, one [parent] line for each
    parent in order, the [author] and [committer] lines, the signature
    folded under [gpgsig] (nothing for the empty signature), a blank
    line and the message. *)
Theorem Commit_MarshalText_writes (c : Commit) (data : bytes) :
  Commit_MarshalText c = Ok data <->
  ~ contains_LF (Author c) /\ ~ contains_LF (Committer c)
  /\ exists lines,
       Forall (fun l => LF ∉ l) lines
       /\ GPGSignature c = join_lines lines
       /\ data = B "tree " ++ SHA1_String (Tree c) ++ [LF] ++ parent_lines (Parents c)
                   ++ user_line "author " (Author c) (AuthorTime c)
                   ++ user_line "committer " (Committer c) (CommitTime c)
                   ++ gpgsig_header lines ++ [LF] ++ list_ascii_of_string (Message c).
Proof.
  assert (forall lines lines', join_lines lines = join_lines lines' ->
            Forall (fun l => LF ∉ l) lines -> Forall (fun l => LF ∉ l) lines' ->
            lines = lines') as Hinj.
  { induction lines as [|l lines IH]; intros [|l' lines'] Heq Hl Hl'.
    - done.
    - rewrite join_lines_cons in Heq. by destruct l'.
    - rewrite join_lines_cons in Heq. by destruct l.
    - rewrite !join_lines_cons in Heq.
      inversion_clear Hl as [|? ? Hl0 Hls]. inversion_clear Hl' as [|? ? Hl0' Hls'].
      apply split_at_first in Heq as [-> Heq]; [|done..].
      f_equal. by apply IH. }
  destruct (Commit_MarshalText_cases c) as
    [(HA & ->)|[(HA & HC & ->)|[(HA & HC & Hne & Hbad & ->)|(HA & HC & lines & Hl & Hsig & ->)]]].
  - split; [done | tauto].
  - split; [done | tauto].
  - split; [done|]. intros (_ & _ & lines & Hl & Hsig & _).
    destruct Hbad. by exists lines.
  - assert (forall lines,
              commit_header c ++ gpgsig_header lines ++ [LF]
                ++ list_ascii_of_string (Message c)
              = B "tree " ++ SHA1_String (Tree c) ++ [LF] ++ parent_lines (Parents c)
                  ++ user_line "author " (Author c) (AuthorTime c)
                  ++ user_line "committer " (Committer c) (CommitTime c)
                  ++ gpgsig_header lines ++ [LF] ++ list_ascii_of_string (Message c))
      as Hform by (intros; unfold commit_header; by rewrite <- !app_assoc).
    split.
    + intros Heq.
      assert (data = commit_header c ++ gpgsig_header lines ++ [LF]
                       ++ list_ascii_of_string (Message c)) as -> by congruence.
      split_and!; [done..|]. exists lines. split_and!; [done..|]. apply Hform.
    + intros (_ & _ & lines' & Hl' & Hsig' & ->).
      rewrite (Hinj lines lines') by (done || congruence).
      f_equal. apply Hform.
Qed.

(** * Further properties of the ref advertisement and of [negotiate] *)

Section advertisement_properties.

Variable Ref_IsValid : string -> bool.

(** ** The lines after the first *)

(** The line [<hexid> <name>] of a ref. *)
Definition ref_line (hexid : bytes) (name : string) : bytes :=
  hexid ++ [SP] ++ list_ascii_of_string name.

Lemma parseOtherRefV1_ref_line (line hexid : bytes) (name : string) :
  trimLF line = ref_line hexid name -> SP ∉ hexid ->
  parseOtherRefV1 Ref_IsValid line
  = if negb (Ref_IsValid name) then
      Err (Errorf "ref %q: invalid name" [ArgBytes (list_ascii_of_string name)])
    else
      match ParseSHA1 hexid with
      | Err err => Err (Wrapf "ref %s: %w" [ArgBytes (list_ascii_of_string name)] err)
      | Ok id => Ok (mkRef id name ""%string)
      end.
Proof.
  intros Hline HSP. unfold parseOtherRefV1, ref_line in *. rewrite Hline.
  change (hexid ++ [SP] ++ list_ascii_of_string name)
    with (hexid ++ SP :: list_ascii_of_string name).
  rewrite bytes_IndexByte_app by done.
  by rewrite drop_S_app_cons, take_app_length, list_ascii_of_string_inv.
Qed.

(** X11: [parseOtherRefV1] accepts exactly the lines, a last LF left
    out, made of the 40 digits of an id, a space and a name that is
    valid; the line is cut at its first space, so the name may hold
    spaces if [IsValid] lets it.  The ref has no symref target yet.  A
    line with an invalid name is refused for its name even when its id
    is malformed too. *)
Theorem parseOtherRefV1_iff (line : bytes) (ref : Ref) :
  (parseOtherRefV1 Ref_IsValid line = Ok ref <->
   exists hexid,
     trimLF line = ref_line hexid (Name ref) /\ (SP ∉ hexid)
     /\ Ref_IsValid (Name ref) = true
     /\ ParseSHA1 hexid = Ok (ObjectID ref)
     /\ SymrefTarget ref = ""%string)
  /\ (forall hexid name,
        trimLF line = ref_line hexid name -> (SP ∉ hexid) ->
        Ref_IsValid name = false ->
        parseOtherRefV1 Ref_IsValid line
        = Err (Errorf "ref %q: invalid name" [ArgBytes (list_ascii_of_string name)]))
  /\ ((SP ∉ trimLF line) ->
      parseOtherRefV1 Ref_IsValid line = Err (Errorf "ref: missing space" [])).
Proof.
  split_and!.
  - split.
    + unfold parseOtherRefV1.
      destruct (bytes_IndexByte (trimLF line) SP) as [idEnd|] eqn:Hi; [|done].
      apply bytes_IndexByte_split in Hi as (hexid & name & Hline & HSP & ->).
      rewrite Hline, drop_S_app_cons, take_app_length.
      destruct (Ref_IsValid (string_of_list_ascii name)) eqn:Hvalid; [|done].
      cbn [negb]. destruct (ParseSHA1 hexid) as [id|err] eqn:Hid; [|done].
      intros [= <-]. exists hexid. cbn [Name ObjectID SymrefTarget].
      unfold ref_line. by rewrite list_ascii_of_string_of_list.
    + intros (hexid & Hline & HSP & Hvalid & Hid & Htarget).
      rewrite (parseOtherRefV1_ref_line line hexid (Name ref)) by done.
      rewrite Hvalid, Hid. cbn [negb]. destruct ref. simpl in *. by subst.
  - intros hexid name Hline HSP Hvalid.
    rewrite (parseOtherRefV1_ref_line line hexid name) by done. by rewrite Hvalid.
  - intros HSP. unfold parseOtherRefV1.
    by rewrite (proj2 (bytes_IndexByte_None _ _) HSP).
Qed.

(** The ref that [readOtherRefsV1] appends for a parsed line: its
    symref target is looked up in the symrefs of the capabilities. *)
Definition with_symref (symrefs : gmap string string) (ref : Ref) : Ref :=
  set_SymrefTarget ref (default ""%string (symrefs !! Name ref)).

(** The data frame [payload] is the line of [ref]. *)
Definition reads_ref (payload : bytes) (ref : Ref) : Prop :=
  parseOtherRefV1 Ref_IsValid (trimLF payload) = Ok ref.

(** The frame the reader is on after the data frames [payloads]. *)
Definition current_after (cur : option packet) (payloads : list bytes) : option packet :=
  match last payloads with
  | Some p => Some (PktData p)
  | None => cur
  end.

Lemma current_after_cons (cur : option packet) (p : bytes) (payloads : list bytes) :
  current_after (Some (PktData p)) payloads = current_after cur (p :: payloads).
Proof.
  unfold current_after. rewrite last_cons. by destruct (last payloads).
Qed.

(** The loop of [readOtherRefsV1] over data frames that are lines of
    refs. *)
Lemma readOtherRefsV1_loop_refs (symrefs : gmap string string) (payloads : list bytes) :
  forall (parsed : list Ref) (fuel : nat) (refs : list Ref) (rest : list packet)
         (serr : option error) (cur : option packet),
    Forall2 reads_ref payloads parsed ->
    readOtherRefsV1_loop Ref_IsValid (length payloads + fuel) refs symrefs
      (mkReader ((PktData <$> payloads) ++ rest) serr cur None)
    = readOtherRefsV1_loop Ref_IsValid fuel (refs ++ (with_symref symrefs <$> parsed)) symrefs
        (mkReader rest serr (current_after cur payloads) None).
Proof.
  induction payloads as [|p payloads IH]; intros parsed fuel refs rest serr cur Hparsed.
  - inversion_clear Hparsed. simpl. by rewrite app_nil_r.
  - inversion_clear Hparsed as [|? ref ? parsed' Hp Hparsed'].
    cbn [length Nat.add readOtherRefsV1_loop fmap list_fmap app].
    unfold Reader_Next at 1. cbn [reader_err pending stream_err].
    unfold Reader_Type, Reader_Text. cbn [current reader_err packet_type].
    rewrite bool_decide_eq_false_2 by done. cbn [negb andb].
    unfold reads_ref in Hp. rewrite Hp.
    rewrite (IH parsed') by done.
    rewrite <- (current_after_cons cur). cbn [fmap list_fmap].
    by rewrite <- app_assoc.
Qed.

(** The list of refs that a flush ends. *)
Lemma readOtherRefsV1_flush (refs : list Ref) (symrefs : gmap string string)
    (payloads : list bytes) (parsed : list Ref) (after : list packet)
    (serr : option error) (cur : option packet) :
  Forall2 reads_ref payloads parsed ->
  readOtherRefsV1 Ref_IsValid refs symrefs
    (mkReader ((PktData <$> payloads) ++ PktFlush :: after) serr cur None)
  = (mkReader after serr (Some PktFlush) None,
     (refs ++ (with_symref symrefs <$> parsed), None)).
Proof.
  intros Hparsed. unfold readOtherRefsV1. cbn [pending].
  rewrite length_app, length_fmap.
  replace (S (length payloads + length (PktFlush :: after)))
    with (length payloads + S (length (PktFlush :: after)))%nat by lia.
  by rewrite (readOtherRefsV1_loop_refs symrefs payloads parsed) by done.
Qed.

(** X12: [readOtherRefsV1] on data frames that are lines of refs appends
    their refs in order, each with the symref target that the
    capabilities give its name.  A flush ends the list and is the last
    frame read; the end of the stream ends it too, with the refs and
    the error of the stream if it has one.  A frame that is no line of a
    ref, or no data frame, gives the error and no ref at all: the refs
    read so far and those passed in are dropped. *)
Theorem readOtherRefsV1_spec (refs : list Ref) (symrefs : gmap string string)
    (payloads : list bytes) (parsed : list Ref) (rest : list packet)
    (serr : option error) (cur : option packet) :
  Forall2 reads_ref payloads parsed ->
  let r := mkReader ((PktData <$> payloads) ++ rest) serr cur None in
  let refs' := refs ++ (with_symref symrefs <$> parsed) in
  (forall after,
     rest = PktFlush :: after ->
     readOtherRefsV1 Ref_IsValid refs symrefs r
     = (mkReader after serr (Some PktFlush) None, (refs', None)))
  /\ (rest = [] ->
      (readOtherRefsV1 Ref_IsValid refs symrefs r).2
      = (refs', match serr with
                | Some err => Some (Wrapf "read refs: %w" [] err)
                | None => None
                end))
  /\ (forall p more err,
        rest = PktData p :: more ->
        parseOtherRefV1 Ref_IsValid (trimLF p) = Err err ->
        (readOtherRefsV1 Ref_IsValid refs symrefs r).2
        = ([], Some (Wrapf "read refs: %w" [] err)))
  /\ (forall p more,
        rest = p :: more -> packet_type p = Delim \/ packet_type p = ResponseEnd ->
        (readOtherRefsV1 Ref_IsValid refs symrefs r).2
        = ([], Some (Wrapf "read refs: %w" [] (Errorf "unexpected packet" [])))).
Proof.
  intros Hparsed r refs'. unfold readOtherRefsV1, r. cbn [pending].
  rewrite length_app, length_fmap.
  replace (S (length payloads + length rest)) with (length payloads + S (length rest))%nat
    by lia.
  rewrite (readOtherRefsV1_loop_refs symrefs payloads parsed) by done.
  fold refs'. split_and!.
  - intros after ->. done.
  - intros ->. cbn [readOtherRefsV1_loop length]. unfold Reader_Next.
    cbn [reader_err pending stream_err andb Reader_Err]. by destruct serr.
  - intros p more err -> Hp. cbn [readOtherRefsV1_loop length]. unfold Reader_Next.
    cbn [reader_err pending stream_err].
    unfold Reader_Type, Reader_Text. cbn [current reader_err packet_type].
    rewrite bool_decide_eq_false_2 by done. cbn [negb andb]. by rewrite Hp.
  - intros p more -> Hp. cbn [readOtherRefsV1_loop length]. unfold Reader_Next.
    cbn [reader_err pending stream_err].
    unfold Reader_Type, Reader_Text. cbn [current reader_err].
    destruct p; simpl in Hp; destruct Hp as [?|?]; try done.
Qed.

(** ** The first line *)

(** A first line: the id, a space, the name, a NUL and the capability
    tokens. *)
Definition first_ref_line (hexid : bytes) (name : string) (capstext : bytes) : bytes :=
  hexid ++ [SP] ++ list_ascii_of_string name ++ NUL :: capstext.

Lemma parseFirstRefV1_first_ref_line (hexid : bytes) (name : string) (capstext : bytes) :
  SP ∉ hexid -> NUL ∉ hexid -> NUL ∉ list_ascii_of_string name ->
  parseFirstRefV1 Ref_IsValid (first_ref_line hexid name capstext)
  = match ParseSHA1 hexid with
    | Err err => (None, caps_empty, Some (Wrapf "first ref: %w" [] err))
    | Ok id =>
        match parseFirstRefV1_caps caps_empty (bytes_Fields capstext) with
        | Err err => (None, caps_empty, Some err)
        | Ok caps =>
            if bool_decide (name = "capabilities^{}"%string) then
              if negb (bool_decide (id = SHA1_zero)) then
                (None, caps_empty,
                 Some (Errorf "first ref: non-zero ID passed with no-refs response" []))
              else (None, caps, None)
            else if negb (Ref_IsValid name) then
              (None, caps_empty,
               Some (Errorf "first ref %q: invalid name"
                            [ArgBytes (list_ascii_of_string name)]))
            else
              (Some (mkRef id name (default ""%string (caps_symrefs_of caps !! name))),
               caps, None)
        end
    end.
Proof.
  intros HSP HNUL Hname. unfold parseFirstRefV1, first_ref_line.
  set (nb := list_ascii_of_string name) in *.
  assert (hexid ++ [SP] ++ nb ++ NUL :: capstext
          = (hexid ++ SP :: nb) ++ NUL :: capstext) as -> by (by rewrite <- app_assoc).
  assert (NUL ∉ hexid ++ SP :: nb) as Hnul.
  { rewrite not_elem_of_app, not_elem_of_cons. split_and!; done. }
  rewrite bytes_IndexByte_app by done.
  rewrite take_app_length, drop_S_app_cons.
  rewrite bytes_IndexByte_app by done.
  rewrite drop_S_app_cons, <- (app_assoc hexid), take_app_length.
  unfold nb. by rewrite list_ascii_of_string_inv.
Qed.

(** X13: on a first line that names a ref, [parseFirstRefV1] gives the
    ref exactly when the id is well formed, every capability token is
    and the name is valid; the ref has the symref target that the
    [symref] capabilities of this very line give its name, and the
    capabilities are returned with it.  A malformed id is reported
    before a malformed capability, and that before an invalid name. *)
Theorem parseFirstRefV1_ref (hexid : bytes) (name : string) (capstext : bytes) :
  SP ∉ hexid -> NUL ∉ hexid -> NUL ∉ list_ascii_of_string name ->
  name <> "capabilities^{}"%string ->
  (forall ref caps,
     parseFirstRefV1 Ref_IsValid (first_ref_line hexid name capstext)
     = (Some ref, caps, None)
     <-> ParseSHA1 hexid = Ok (ObjectID ref)
         /\ parseFirstRefV1_caps caps_empty (bytes_Fields capstext) = Ok caps
         /\ Ref_IsValid name = true
         /\ Name ref = name
         /\ SymrefTarget ref = default ""%string (caps_symrefs_of caps !! name))
  /\ (forall err,
        ParseSHA1 hexid = Err err ->
        parseFirstRefV1 Ref_IsValid (first_ref_line hexid name capstext)
        = (None, caps_empty, Some (Wrapf "first ref: %w" [] err)))
  /\ (forall id err,
        ParseSHA1 hexid = Ok id ->
        parseFirstRefV1_caps caps_empty (bytes_Fields capstext) = Err err ->
        parseFirstRefV1 Ref_IsValid (first_ref_line hexid name capstext)
        = (None, caps_empty, Some err))
  /\ (forall id caps,
        ParseSHA1 hexid = Ok id ->
        parseFirstRefV1_caps caps_empty (bytes_Fields capstext) = Ok caps ->
        Ref_IsValid name = false ->
        parseFirstRefV1 Ref_IsValid (first_ref_line hexid name capstext)
        = (None, caps_empty,
           Some (Errorf "first ref %q: invalid name"
                        [ArgBytes (list_ascii_of_string name)]))).
Proof.
  intros HSP HNUL Hname Hnot.
  rewrite parseFirstRefV1_first_ref_line by done.
  rewrite (bool_decide_eq_false_2 _ Hnot).
  split_and!.
  - intros ref caps.
    destruct (ParseSHA1 hexid) as [id|err]; [|by split; [|intros (? & _)]].
    destruct (parseFirstRefV1_caps _ _) as [caps'|err]; [|by split; [|intros (_ & ? & _)]].
    destruct (Ref_IsValid name); cbn [negb]; [|by split; [|intros (_ & _ & ? & _)]].
    split.
    + by intros [= <- <-].
    + intros ([= ->] & [= ->] & _ & Hn & Ht). destruct ref. simpl in *. by subst.
  - by intros err ->.
  - by intros id err -> ->.
  - by intros id caps -> -> ->.
Qed.

(** The reader as [readFirstRefV1] leaves it when the first line is the
    line of a ref. *)
Lemma readFirstRefV1_ref (r : Reader) (payload : bytes) (after : list packet)
    (ref0 : Ref) (caps : capabilityList) :
  first_ref_frame r = Some (payload, after) ->
  parseFirstRefV1 Ref_IsValid (trimLF payload) = (Some ref0, caps, None) ->
  exists cur,
    readFirstRefV1 Ref_IsValid r
    = (mkReader after (stream_err r) cur None, (Some ref0, caps, None)).
Proof.
  intros Hframe Hparse. unfold first_ref_frame in Hframe.
  destruct (reader_err r) as [|] eqn:Herr; [done|].
  destruct (current r) as [[v| | |]|] eqn:Hcur; try done.
  unfold readFirstRefV1, Reader_Text at 1. rewrite Herr, Hcur.
  destruct (bytes_Equal (trimLF v) (B "version 1")) eqn:Hversion.
  - destruct (pending r) as [|[p| | |] ps] eqn:Hpending; try done.
    injection Hframe as -> ->.
    assert (Reader_Next r
            = (true, mkReader after (stream_err r) (Some (PktData payload)) None)) as ->
      by (unfold Reader_Next; by rewrite Herr, Hpending).
    cbn [snd]. unfold Reader_Text. cbn [reader_err current]. rewrite Hparse.
    by eexists.
  - injection Hframe as -> <-. rewrite Hparse. exists (current r).
    destruct r. simpl in *. by subst.
Qed.

(** X14: the refs of an advertisement.  When the first ref line, after
    the optional [version 1] packet, is the line of a ref, the frames
    that follow up to the flush are lines of refs, [listRefs] of no
    prefix returns the first ref and then the others in the order of
    the advertisement, each with the symref target that the
    capabilities of the first line give its name, and no error; the
    capabilities are those of the first line and the reader is let
    go. *)
Theorem advertisement_listRefs (i : impl) (r : Reader) (payload0 : bytes)
    (payloads : list bytes) (after : list packet)
    (ref0 : Ref) (server : capabilityList) (parsed : list Ref) :
  first_ref_frame r = Some (payload0, (PktData <$> payloads) ++ PktFlush :: after) ->
  parseFirstRefV1 Ref_IsValid (trimLF payload0) = (Some ref0, server, None) ->
  Forall2 reads_ref payloads parsed ->
  let f := newFetchV1 Ref_IsValid i r in
  caps f = server
  /\ (listRefs Ref_IsValid f []).2
     = (ref0 :: (with_symref (caps_symrefs_of server) <$> parsed), None)
  /\ refsReader (listRefs Ref_IsValid f []).1 = None.
Proof.
  intros Hframe Hparse Hparsed f. unfold f, newFetchV1.
  destruct (readFirstRefV1_ref r payload0 _ ref0 server Hframe Hparse) as [cur ->].
  cbn [caps]. split; [done|].
  unfold listRefs. cbn [refsReader refs caps].
  by rewrite (readOtherRefsV1_flush [ref0] (caps_symrefs_of server) payloads parsed).
Qed.

(** ** Listing the refs *)

(** The receiver after a call of [listRefs]: the advertisement is read
    to its end, whatever the prefixes. *)
Definition drained (f : fetchV1) : fetchV1 :=
  match refsReader f with
  | Some r =>
      let res := readOtherRefsV1 Ref_IsValid (refs f) (caps_symrefs_of (caps f)) r in
      mkFetchV1 (caps f) (fetch_impl f) None res.2.1 res.2.2
  | None => f
  end.

Lemma listRefs_via_drained (f : fetchV1) (prefixes : list string) :
  refsReader (drained f) = None
  /\ listRefs Ref_IsValid f prefixes
     = (drained f,
        (match prefixes with
         | [] => refs (drained f)
         | _ => filtered_refs prefixes (refs (drained f))
         end, refsError (drained f))).
Proof.
  unfold drained, listRefs. destruct (refsReader f) as [r|] eqn:Hr.
  - destruct (readOtherRefsV1 _ _ _ r) as [r' [refs' err] ]. cbn [fst snd refs refsError].
    split; [done|]. destruct prefixes as [|p prefixes]; [done|].
    cbn [length Nat.eqb]. by rewrite listRefs_outer_loop.
  - split; [done|]. destruct prefixes as [|p prefixes]; [done|].
    cbn [length Nat.eqb]. by rewrite listRefs_outer_loop.
Qed.

(** X15: [listRefs] reads the advertisement once.  After a first call
    the reader is let go, and a later call reads nothing: it returns
    what it would have returned as the first call, and leaves the
    receiver as it is. *)
Theorem listRefs_reads_once (f : fetchV1) (P Q : list string) :
  refsReader (listRefs Ref_IsValid f P).1 = None
  /\ (listRefs Ref_IsValid f P).1 = (listRefs Ref_IsValid f Q).1
  /\ listRefs Ref_IsValid (listRefs Ref_IsValid f P).1 Q
     = ((listRefs Ref_IsValid f P).1, (listRefs Ref_IsValid f Q).2).
Proof.
  destruct (listRefs_via_drained f P) as [Hdrained ->].
  destruct (listRefs_via_drained f Q) as [_ ->]. cbn [fst snd].
  split_and!; [done..|]. by rewrite (listRefs_drained Ref_IsValid _ Q Hdrained).
Qed.

(** The refs that a list of prefixes selects, in their order. *)
Definition matching_refs (prefixes : list string) (rs : list Ref) : list Ref :=
  filter (fun r => existsb (strings_HasPrefix (Name r)) prefixes = true) rs.

Lemma filtered_refs_matching (prefixes : list string) (rs : list Ref) :
  Forall (fun r =>
            length (filter (fun p => strings_HasPrefix (Name r) p = true) prefixes) <= 1)%nat
         rs ->
  filtered_refs prefixes rs = matching_refs prefixes rs.
Proof.
  induction 1 as [|r rs Hr Hrs IH]; [done|].
  unfold filtered_refs, matching_refs in *. cbn [flat_map]. rewrite filter_cons, IH.
  assert (existsb (strings_HasPrefix (Name r)) prefixes = true
          <-> filter (fun p => strings_HasPrefix (Name r) p = true) prefixes <> []) as Hex.
  { rewrite existsb_exists. split.
    - intros (p & Hp%list_elem_of_In & Hmatch) Hnil.
      assert (p ∈ filter (fun p => strings_HasPrefix (Name r) p = true) prefixes) as Hin
        by (by apply list_elem_of_filter).
      rewrite Hnil in Hin. by apply not_elem_of_nil in Hin.
    - destruct (filter _ prefixes) as [|p ps] eqn:Hf; [done|]. intros _.
      assert (p ∈ filter (fun p => strings_HasPrefix (Name r) p = true) prefixes) as Hin
        by (rewrite Hf; left).
      apply list_elem_of_filter in Hin as [Hmatch Hin]. exists p.
      split; [by apply list_elem_of_In | done]. }
  destruct (filter (fun p => strings_HasPrefix (Name r) p = true) prefixes) as [|p [|q ps] ].
  - rewrite decide_False by (rewrite Hex; tauto). done.
  - rewrite decide_True by (by rewrite Hex). done.
  - simpl in Hr. lia.
Qed.

(** X16: when no name of a ref starts with two of the prefixes asked
    for (as when one prefix is asked for), [listRefs] returns each ref
    that a prefix selects exactly once, in the order of the
    advertisement. *)
Theorem listRefs_distinct_prefixes (f : fetchV1) (prefixes : list string) :
  prefixes <> [] ->
  Forall (fun r =>
            length (filter (fun p => strings_HasPrefix (Name r) p = true) prefixes) <= 1)%nat
         (listRefs Ref_IsValid f []).2.1 ->
  (listRefs Ref_IsValid f prefixes).2.1
  = matching_refs prefixes (listRefs Ref_IsValid f []).2.1.
Proof.
  intros Hne.
  destruct (listRefs_via_drained f prefixes) as [_ ->].
  destruct (listRefs_via_drained f []) as [_ ->]. cbn [fst snd].
  intros Hdistinct. destruct prefixes as [|p prefixes]; [done|].
  by apply filtered_refs_matching.
Qed.

(** ** The first frames *)




End advertisement_properties.

(** ** The request and the response of [negotiate] *)

Lemma negotiate_commandBuf_frames (f : fetchV1) (req : FetchRequest)
    (want0 : SHA1) (wants : list SHA1) (useCaps : capabilityList) :
  Want req = want0 :: wants ->
  Forall (fun id => length id = SHA1Size) (Want req) ->
  Forall (fun id => length id = SHA1Size) (Have req) ->
  negotiate_useCaps f req = Ok useCaps ->
  negotiate_commandBuf req useCaps = Returned (request_frames req want0 wants useCaps).
Proof.
  intros Hwant Hwants Hhaves Hcaps.
  unfold negotiate_commandBuf. rewrite Hwant in Hwants |- *.
  inversion_clear Hwants as [|? ? Hw0 Hws].
  pose proof (length_caps_String f req useCaps Hcaps) as Hlen.
  rewrite AppendString_data_frame.
  2:{ rewrite !length_app, length_SHA1_String by done. unfold MaxSize. simpl. lia. }
  cbn [mbind outcome_bind].
  rewrite (outcome_foldl_AppendString (fun want => B "want " ++ SHA1_String want ++ [LF])).
  2:{ eapply Forall_impl; [exact Hws|]. intros id Hid. cbv beta.
      rewrite !length_app, length_SHA1_String by done. unfold MaxSize. simpl. lia. }
  cbn [mbind outcome_bind]. unfold AppendFlush.
  rewrite (outcome_foldl_AppendString (fun have => B "have " ++ SHA1_String have ++ [LF])).
  2:{ eapply Forall_impl; [exact Hhaves|]. intros id Hid. cbv beta.
      rewrite !length_app, length_SHA1_String by done. unfold MaxSize. simpl. lia. }
  cbn [mbind outcome_bind]. unfold request_frames, flush_frame.
  destruct (HaveMore req); cbn [negb].
  - by rewrite <- !app_assoc.
  - rewrite AppendString_data_frame by done. by rewrite <- !app_assoc.
Qed.

(** X18: with no wanted id, [negotiate] never reaches the transport.
    On a server that offers no side-band capability it returns the
    error of that; on every other server it panics, at [req.Want[0]]. *)
Theorem negotiate_without_want (f : fetchV1) (errPrefix : string) (req : FetchRequest) :
  Want req = [] ->
  negotiate f errPrefix req
  = ([],
     if caps_supports (caps f) sideBand64KCap || caps_supports (caps f) sideBandCap then
       Panicked (Errorf "index out of range [0] with length 0" [])
     else Returned (Err (Errorf "remote does not support side-band" []))).
Proof.
  intros Hwant. unfold negotiate, negotiate_useCaps, negotiate_commandBuf.
  rewrite Hwant.
  destruct (caps_supports (caps f) sideBand64KCap); [done|].
  by destruct (caps_supports (caps f) sideBandCap).
Qed.

Definition request_none : FetchRequest := mkFetchRequest [] [Y_id] false None.

Lemma negotiate_without_want_witness :
  negotiate (stub_fetch server_caps []) "fetch" request_none
  = ([], Panicked (Errorf "index out of range [0] with length 0" [])).
Proof.
  exact (negotiate_without_want (stub_fetch server_caps []) "fetch" request_none eq_refl).
Defined.

(** X19: the error of the transport is returned as it is, after the
    one request that was posted. *)
Theorem negotiate_transport_error (f : fetchV1) (errPrefix : string) (req : FetchRequest)
    (want0 : SHA1) (wants : list SHA1) (useCaps : capabilityList) (err : error) :
  Want req = want0 :: wants ->
  Forall (fun id => length id = SHA1Size) (Want req) ->
  Forall (fun id => length id = SHA1Size) (Have req) ->
  negotiate_useCaps f req = Ok useCaps ->
  uploadPack (fetch_impl f) v1ExtraParams (request_frames req want0 wants useCaps) = Err err ->
  negotiate f errPrefix req
  = ([(v1ExtraParams, request_frames req want0 wants useCaps)], Returned (Err err)).
Proof.
  intros Hwant Hwants Hhaves Hcaps Hpost. unfold negotiate.
  rewrite Hcaps, (negotiate_commandBuf_frames f req want0 wants useCaps) by done.
  by rewrite Hpost.
Qed.

(** The frame [payload] is the line [ACK <hex-id>continue] of [id], the
    form of the status that the loop accepts and reads on after. *)
Definition continue_ack_of (payload : bytes) (id : SHA1) : Prop :=
  exists hexid, ParseSHA1 hexid = Ok id /\ trimLF payload = B ackPrefix ++ hexid ++ B "continue".

(** The frame [payload] is the line [ACK <hex-id>] of [id]. *)
Definition terminal_ack_of (payload : bytes) (id : SHA1) : Prop :=
  exists hexid, ParseSHA1 hexid = Ok id /\ trimLF payload = B ackPrefix ++ hexid.

(** The acknowledgements of the ids [ids]. *)
Definition acks_of (ids : list SHA1) : gmap SHA1 bool :=
  gset_to_gmap true (list_to_set ids).

Lemma classify_ack_line (hexid : bytes) (id : SHA1) (status : bytes) :
  ParseSHA1 hexid = Ok id ->
  classify_ack (B ackPrefix ++ hexid ++ status)
  = if (length status =? 0)%nat then StepFound id
    else if bytes_Equal status (B "continue") then StepContinue id
    else StepError (Errorf "parse response: acknowledgements: unknown status %q"
                           [ArgBytes status]).
Proof.
  intros Hid. unfold classify_ack. rewrite bytes_HasPrefix_app. cbv zeta.
  change (String.length ackPrefix) with (length (B ackPrefix)).
  rewrite drop_app_length. pose proof (ParseSHA1_length _ _ Hid) as Hlen.
  rewrite length_app, Hlen. change (hex_EncodedLen SHA1Size) with 40%nat.
  destruct (Nat.ltb_spec (40 + length status) 40); [lia|].
  rewrite take_app_length' by done. rewrite Hid.
  by rewrite drop_app_length' by done.
Qed.

Lemma acks_of_snoc (acks : gmap SHA1 bool) (id : SHA1) (ids : list SHA1) :
  acks_of ids ∪ <[id := true]> acks = acks_of (id :: ids) ∪ acks.
Proof.
  apply map_eq. intros k. unfold acks_of.
  rewrite !lookup_union, !lookup_gset_to_gmap. cbn [list_to_set].
  destruct (decide (k = id)) as [->|Hne];
    [rewrite lookup_insert_eq | rewrite lookup_insert_ne by done];
    repeat case_guard; simpl; try done; try set_solver;
    destruct (acks !! id); reflexivity.
Qed.

(** The loop [ackLoop] over accepted [continue] acknowledgements. *)
Lemma negotiate_ackLoop_continue (payloads : list bytes) :
  forall (ids : list SHA1) (fuel : nat) (acks : gmap SHA1 bool) (rest : list packet)
         (serr : option error) (cur : option packet),
    Forall2 continue_ack_of payloads ids ->
    negotiate_ackLoop (length payloads + fuel)
      (mkReader ((PktData <$> payloads) ++ rest) serr cur None) acks
    = negotiate_ackLoop fuel (mkReader rest serr (current_after cur payloads) None)
        (acks_of ids ∪ acks).
Proof.
  induction payloads as [|p payloads IH]; intros ids fuel acks rest serr cur Hids.
  - inversion_clear Hids. cbn [length Nat.add fmap list_fmap app].
    unfold acks_of. cbn [list_to_set]. rewrite gset_to_gmap_empty.
    by rewrite (left_id ∅ (∪)).
  - inversion_clear Hids as [|? id ? ids' (hexid & Hid & Hline) Hids'].
    cbn [length Nat.add fmap list_fmap app].
    rewrite negotiate_ackLoop_step by done. cbn [pending stream_err]. cbv zeta.
    rewrite Hline, (classify_ack_line hexid id (B "continue")) by done.
    rewrite bytes_Equal_refl. change (length (B "continue") =? 0)%nat with false.
    cbv iota. rewrite (IH ids') by done.
    by rewrite <- (current_after_cons cur), acks_of_snoc.
Qed.

(** X20: reading the response.  When the body starts with accepted
    [continue] acknowledgements, their ids are all acknowledged.  A
    line [ACK <hex-id>] after them acknowledges its id too and ends the
    section: the pack is read from the frame that follows it.  A line
    [NAK] ends the section as well, and the pack follows it when
    [HaveMore] is false.  At the end of the body the error of the
    stream, if any, is returned. *)
Theorem negotiate_response (f : fetchV1) (errPrefix : string) (req : FetchRequest)
    (commandBuf body : bytes) (payloads : list bytes) (ids : list SHA1)
    (rest : list packet) :
  (negotiate f errPrefix req).1 = [(v1ExtraParams, commandBuf)] ->
  uploadPack (fetch_impl f) v1ExtraParams commandBuf = Ok body ->
  response_frames body = (PktData <$> payloads) ++ rest ->
  Forall2 continue_ack_of payloads ids ->
  let serr := stream_err (NewReader body) in
  let pack (r : Reader) := Some (mkPackfileReader errPrefix r (Progress req)) in
  (forall p id after,
     rest = PktData p :: after -> terminal_ack_of p id ->
     (negotiate f errPrefix req).2
     = Returned (Ok (mkFetchResponse (acks_of (id :: ids))
                       (pack (mkReader after serr (Some (PktData p)) None)))))
  /\ (forall p after,
        rest = PktData p :: after -> trimLF p = B nak ->
        (negotiate f errPrefix req).2
        = Returned (Ok (mkFetchResponse (acks_of ids)
                          (if HaveMore req then None
                           else pack (mkReader after serr (Some (PktData p)) None)))))
  /\ (rest = [] ->
      (negotiate f errPrefix req).2
      = Returned
          match serr with
          | Some err => Err (Wrapf "parse response: %w" [] err)
          | None =>
              Ok (mkFetchResponse (acks_of ids)
                    (if HaveMore req then None else pack (mkReader [] None None None)))
          end).
Proof.
  intros Hcalls Hpost Hframes Hids serr pack.
  assert (forall res,
            negotiate_ackLoop (S (length (pending (NewReader body)))) (NewReader body) ∅ = res ->
            (negotiate f errPrefix req).2
            = match res with
              | (_, Err err) => Returned (Err err)
              | (respReader, Ok (acks, foundCommonBase)) =>
                  match Reader_Err respReader with
                  | Some err => Returned (Err (Wrapf "parse response: %w" [] err))
                  | None =>
                      Returned (Ok (if foundCommonBase || negb (HaveMore req) then
                                      mkFetchResponse acks (pack respReader)
                                    else mkFetchResponse acks None))
                  end
              end) as Hneg.
  { intros res <-. revert Hcalls. unfold negotiate.
    destruct (negotiate_useCaps f req) as [useCaps|e]; [|done].
    destruct (negotiate_commandBuf req useCaps) as [buf|e]; [|done].
    intros Hcalls.
    assert (buf = commandBuf) as ->.
    { destruct (uploadPack _ _ buf) as [?|?]; [|by injection Hcalls].
      destruct (negotiate_ackLoop _ _ _) as [? [ [? ?]|?] ]; [|by injection Hcalls].
      destruct (Reader_Err _); by injection Hcalls. }
    rewrite Hpost.
    destruct (negotiate_ackLoop _ _ _) as [r' [ [acks found]|e] ]; [|done].
    by destruct (Reader_Err r'). }
  assert (NewReader body = mkReader ((PktData <$> payloads) ++ rest) serr None None) as Hreader.
  { unfold serr. unfold response_frames in Hframes. rewrite <- Hframes.
    unfold NewReader. by destruct (pktline_decode _ _). }
  assert (forall res,
            negotiate_ackLoop (S (length rest))
              (mkReader rest serr (current_after None payloads) None) (acks_of ids) = res ->
            negotiate_ackLoop (S (length (pending (NewReader body)))) (NewReader body) ∅ = res)
    as Hloop.
  { intros res <-. rewrite Hreader. cbn [pending].
    rewrite length_app, length_fmap.
    replace (S (length payloads + length rest)) with (length payloads + S (length rest))%nat
      by lia.
    rewrite (negotiate_ackLoop_continue payloads ids) by done.
    by rewrite (right_id ∅ (∪)). }
  split_and!.
  - intros p id after -> (hexid & Hid & Hline).
    erewrite Hneg; [|apply Hloop; rewrite negotiate_ackLoop_step by done; reflexivity].
    cbn [pending stream_err]. cbv zeta.
    rewrite Hline. rewrite <- (app_nil_r hexid) at 1.
    rewrite (classify_ack_line hexid id []) by done.
    cbn [length Nat.eqb Reader_Err reader_err orb].
    unfold acks_of. cbn [list_to_set]. by rewrite gset_to_gmap_union_singleton.
  - intros p after -> Hline.
    erewrite Hneg; [|apply Hloop; rewrite negotiate_ackLoop_step by done; reflexivity].
    cbn [pending stream_err]. cbv zeta. rewrite Hline.
    change (classify_ack (B nak)) with StepNak. cbn [Reader_Err reader_err orb].
    by destruct (HaveMore req).
  - intros ->.
    erewrite Hneg; [|apply Hloop; rewrite negotiate_ackLoop_step by done; reflexivity].
    cbn [pending stream_err Reader_Err reader_err orb].
    destruct serr; [done|]. by destruct (HaveMore req).
Qed.

(** ** Scenarios *)

(** An advertisement of three refs after the [version 1] packet: [HEAD],
    which the capabilities make a symref of the branch, the branch and
    a tag. *)
Definition line_HEAD : bytes :=
  first_ref_line (SHA1_String X_id) "HEAD"
    (B "multi_ack side-band-64k symref=HEAD:refs/heads/main").

Definition payloads_refs : list bytes :=
  [ref_line (SHA1_String X_id) "refs/heads/main" ++ [LF];
   ref_line (SHA1_String Y_id) "refs/tags/v1" ++ [LF]].

Definition body_refs : bytes :=
  data_frame (B "version 1" ++ [LF]) ++ data_frame (line_HEAD ++ [LF])
    ++ flat_map data_frame payloads_refs ++ flush_frame.

Definition caps_HEAD : capabilityList :=
  caps_addSymref (caps_set (caps_set caps_empty "multi_ack" "") "side-band-64k" "")
                 "HEAD:refs/heads/main".

Definition ref_HEAD : Ref := mkRef X_id "HEAD" "refs/heads/main".
Definition ref_tag : Ref := mkRef Y_id "refs/tags/v1" "".

Lemma readOtherRefsV1_spec_witness :
  readOtherRefsV1 (fun _ => true) [ref_HEAD] (caps_symrefs_of caps_HEAD)
    (mkReader ((PktData <$> payloads_refs) ++ [PktFlush]) None None None)
  = (mkReader [] None (Some PktFlush) None, ([ref_HEAD; ref_main; ref_tag], None)).
Proof.
  refine (proj1 (readOtherRefsV1_spec (fun _ => true) [ref_HEAD] (caps_symrefs_of caps_HEAD)
                   payloads_refs [ref_main; ref_tag] [PktFlush] None None _) [] eq_refl).
  repeat (constructor; [vm_compute; reflexivity|]). constructor.
Defined.

Lemma parseFirstRefV1_ref_witness :
  parseFirstRefV1 (fun _ => true) line_HEAD = (Some ref_HEAD, caps_HEAD, None).
Proof.
  refine (proj2 (proj1 (parseFirstRefV1_ref (fun _ => true) (SHA1_String X_id) "HEAD"
                          (B "multi_ack side-band-64k symref=HEAD:refs/heads/main")
                          _ _ _ _) ref_HEAD caps_HEAD) _).
  - apply bytes_IndexByte_None. reflexivity.
  - apply bytes_IndexByte_None. reflexivity.
  - apply bytes_IndexByte_None. reflexivity.
  - done.
  - split_and!; [vm_compute; reflexivity..].
Defined.

Lemma advertisement_listRefs_witness :
  caps (newFetchV1 (fun _ => true) no_impl (advertisement_reader body_refs)) = caps_HEAD
  /\ (listRefs (fun _ => true)
        (newFetchV1 (fun _ => true) no_impl (advertisement_reader body_refs)) []).2
     = ([ref_HEAD; ref_main; ref_tag], None)
  /\ refsReader
       (listRefs (fun _ => true)
          (newFetchV1 (fun _ => true) no_impl (advertisement_reader body_refs)) []).1
     = None.
Proof.
  refine (advertisement_listRefs (fun _ => true) no_impl (advertisement_reader body_refs)
            (line_HEAD ++ [LF]) payloads_refs [] ref_HEAD caps_HEAD [ref_main; ref_tag]
            _ _ _).
  - vm_compute. reflexivity.
  - vm_compute. reflexivity.
  - repeat (constructor; [vm_compute; reflexivity|]). constructor.
Defined.

Lemma listRefs_distinct_prefixes_witness :
  (listRefs (fun _ => true)
     (newFetchV1 (fun _ => true) no_impl (advertisement_reader body_refs))
     ["refs/heads/"%string; "refs/tags/"%string]).2.1
  = [ref_main; ref_tag].
Proof.
  refine (listRefs_distinct_prefixes (fun _ => true)
            (newFetchV1 (fun _ => true) no_impl (advertisement_reader body_refs))
            ["refs/heads/"%string; "refs/tags/"%string] _ _).
  - done.
  - vm_compute. repeat constructor.
Defined.

Lemma negotiate_transport_error_witness :
  negotiate (mkFetchV1 server_caps no_impl None [] None) "fetch" request_two
  = ([(v1ExtraParams, request_frames request_two X_id [Y_id] selected_caps_two)],
     Returned (Err (Errorf "no transport" []))).
Proof.
  apply (negotiate_transport_error (mkFetchV1 server_caps no_impl None [] None) "fetch"
           request_two X_id [Y_id] selected_caps_two (Errorf "no transport" [])).
  - reflexivity.
  - repeat constructor.
  - repeat constructor.
  - vm_compute. reflexivity.
  - reflexivity.
Defined.

(** A response that acknowledges [Y_id] and goes on, then acknowledges
    [X_id] and sends the pack. *)
Definition payload_ack_Y : bytes := B "ACK " ++ SHA1_String Y_id ++ B "continue" ++ [LF].
Definition payload_ack_X : bytes := B "ACK " ++ SHA1_String X_id ++ [LF].
Definition payload_pack : bytes := ascii_of_nat 1 :: B "PACK".

Definition body_two_acks : bytes :=
  data_frame payload_ack_Y ++ data_frame payload_ack_X ++ data_frame payload_pack.

Lemma negotiate_response_witness :
  (negotiate (stub_fetch server_caps body_two_acks) "fetch" request_more).2
  = Returned
      (Ok (mkFetchResponse (acks_of [X_id; Y_id])
             (Some (mkPackfileReader "fetch"
                      (mkReader [PktData payload_pack] None (Some (PktData payload_ack_X)) None)
                      None)))).
Proof.
  refine (proj1 (negotiate_response (stub_fetch server_caps body_two_acks) "fetch" request_more
                   (request_frames request_more X_id [] selected_caps_two) body_two_acks
                   [payload_ack_Y] [Y_id] [PktData payload_ack_X; PktData payload_pack]
                   _ _ _ _)
                payload_ack_X X_id [PktData payload_pack] eq_refl _).
  - vm_compute. reflexivity.
  - reflexivity.
  - vm_compute. reflexivity.
  - constructor; [|constructor]. exists (SHA1_String Y_id). split; vm_compute; reflexivity.
  - exists (SHA1_String X_id). split; vm_compute; reflexivity.
Defined.
